(** * agent-triage: retry, circuit breaker, LLM facade, the per-project
      fold-and-commit loop, and the clients of a run

    A shallow embedding of [agent_triage/llm_client.py], of
    [_process_project_emails] and [run] in [agent_triage/main.py], and of
    the clients [run] builds: [s3_client.py], [email_client.py],
    [smtp_client.py] and the log handler of [logger.py].

    Remote services (the chat-completions endpoint, the Copilot session,
    MinIO, SMTP, IMAP, the wall clock) are oracles acting on an abstract
    world; the program threads that world explicitly and records the calls
    it makes in a ghost trace, so that "how many times was X called, and
    when" is a statement about a list. *)

From Stdlib Require Import String Ascii List ZArith QArith Qminmax Lia Bool.
From Stdlib Require Import DecimalString Sorted.
Import ListNotations.

Open Scope string_scope.
Open Scope list_scope.
Open Scope Z_scope.

(** ** Python values *)

(** [bool(s)] for a [str]: only the empty string is falsy. *)
Definition truthy (s : string) : bool :=
  match s with
  | EmptyString => false
  | String _ _ => true
  end.

(** [bool(x)] for an [Optional[str]]: [None] and the empty string are falsy. *)
Definition truthy_opt (x : option string) : bool :=
  match x with
  | None => false
  | Some s => truthy s
  end.

(** ** Exceptions *)

(** The exception classes the two modules raise or test for.  A class tag
    stands for "is an instance of"; [OtherException] is any [Exception]
    subclass that is none of the others (an [httpx] timeout, a [KeyError]
    while indexing the JSON answer, a botocore [ClientError], ...). *)
Inductive exn_class : Type :=
  | CircuitBreakerError
  | ValueError
  | IOError
  | RuntimeError
  | IndexError
  | OtherException.

Record exn : Type := Exn { exn_type : exn_class; exn_str : string }.

Definition exn_class_eqb (a b : exn_class) : bool :=
  match a, b with
  | CircuitBreakerError, CircuitBreakerError
  | ValueError, ValueError
  | IOError, IOError
  | RuntimeError, RuntimeError
  | IndexError, IndexError
  | OtherException, OtherException => true
  | _, _ => false
  end.

(** [isinstance(e, classes)] for a tuple of classes. *)
Definition isinstance (e : exn) (classes : list exn_class) : bool :=
  existsb (exn_class_eqb (exn_type e)) classes.

(** ** A state-and-exception monad

    [M St A] is a computation over a state [St] that returns an [A] or
    raises.  The state always survives a raise, as it does in Python. *)

Definition M (St A : Type) : Type := St -> St * (exn + A).

Definition ret {St A} (a : A) : M St A := fun s => (s, inr a).

Definition raise {St A} (e : exn) : M St A := fun s => (s, inl e).

Definition bind {St A B} (c : M St A) (k : A -> M St B) : M St B :=
  fun s =>
    match c s with
    | (s', inl e) => (s', inl e)
    | (s', inr a) => k a s'
    end.

(** [try: c except Exception as e: ...] with the outcome reified: the
    result never raises. *)
Definition attempt {St A} (c : M St A) : M St (exn + A) :=
  fun s => let '(s', r) := c s in (s', inr r).

Declare Scope monad_scope.
Delimit Scope monad_scope with monad.
Notation "x <- c ;; k" := (bind c (fun x => k))
  (at level 61, c at next level, right associativity) : monad_scope.
Notation "c ;; k" := (bind c (fun _ => k))
  (at level 61, right associativity) : monad_scope.
Open Scope monad_scope.

Definition is_ok {A} (r : exn + A) : bool :=
  match r with inr _ => true | inl _ => false end.

(** ** Configuration ([config.py])

    The fields of [Settings] the LLM client reads.  The two wait bounds are
    Python floats; only comparisons, [min]/[max] and exact powers of two are
    ever applied to them, so they are kept as rationals. *)

Record Settings : Type := {
  CHATGPT_API_KEY : string;
  CHATGPT_API_URL : string;
  GITHUB_TOKEN : string;
  CB_FAIL_MAX : Z;
  CB_RESET_TIMEOUT : Z;
  CB_RETRY_ATTEMPTS : Z;
  CB_RETRY_WAIT_MIN : Q;
  CB_RETRY_WAIT_MAX : Q
}.

(** ** The remote world *)

(** What [_http_call] looks at in an [httpx] response: the status, the body
    text, and the outcome of [response.json()["choices"][0]["message"]["content"]]
    (which raises when the body is not the expected JSON). *)
Record Response : Type := {
  status_code : Z;
  text : string;
  content : exn + string
}.

(** The services behind the two backends, over a world [W].
    - [utcnow]: the clock pybreaker reads, in microseconds;
    - [time_sleep]: tenacity's sleep between attempts;
    - [httpx_post]: one POST to the chat-completions endpoint (raises on a
      timeout or a connection error);
    - [copilot_send_and_wait]: start the CLI client, create a session, send
      the prompt, wait for the answer, tear down.  The answer is the
      response event: [None] when no event came, [Some None] when the event
      carries no [content] (or [None]), [Some (Some s)] otherwise. *)
Record Remote (W : Type) : Type := {
  utcnow : W -> Z;
  time_sleep : Q -> W -> W;
  httpx_post : Settings -> string -> string -> W -> W * (exn + Response);
  copilot_send_and_wait :
    Settings -> string -> string -> W -> W * (exn + option (option string))
}.
Arguments utcnow {W}.
Arguments time_sleep {W}.
Arguments httpx_post {W}.
Arguments copilot_send_and_wait {W}.

(** Ghost trace of the network layer: every POST issued, every Copilot
    session opened, every sleep between two attempts. *)
Inductive net_event : Type :=
  | HttpPost (system_message user_prompt : string)
  | CopilotSession (system_message user_prompt : string)
  | Sleep (seconds : Q).

Definition is_attempt (ev : net_event) : bool :=
  match ev with
  | HttpPost _ _ | CopilotSession _ _ => true
  | Sleep _ => false
  end.

(** Number of calls that reached the remote service. *)
Definition attempts (log : list net_event) : nat :=
  length (filter is_attempt log).


(** The world together with the ghost trace. *)
Definition Net (W : Type) : Type := (W * list net_event)%type.

Definition emit {W} (ev : net_event) : M (Net W) unit :=
  fun n => ((fst n, snd n ++ [ev]), inr tt).

Definition ask {W A} (f : W -> W * (exn + A)) : M (Net W) A :=
  fun n => let '(w', r) := f (fst n) in ((w', snd n), r).

Definition sleep_for {W} (remote : Remote W) (seconds : Q) (n : Net W) : Net W :=
  (time_sleep remote seconds (fst n), snd n ++ [Sleep seconds]).

Definition now {W} (remote : Remote W) (n : Net W) : Z := utcnow remote (fst n).

(** [str(n)] for an [int]. *)
Definition str_of_int (n : Z) : string := NilZero.string_of_int (Z.to_int n).

(** ** tenacity

    The retry decorator is the third-party tenacity package, whose source is
    not part of the repository.  It is modelled as RetryPolicy of section
    4.1 of the specification, with the three policies the source passes. *)
Module tenacity.

(** Modelled from the spec: [stop_after_attempt(n)], absent from the
    sources; at most [n] attempts: stop once [attempt_number >= n]. *)
Definition stop_after_attempt (max_attempt_number attempt_number : Z) : bool :=
  max_attempt_number <=? attempt_number.

(** Modelled from the spec: [wait_exponential(min=, max=)], absent from the
    sources; the wait grows exponentially and is bounded, with the default
    multiplier 1 and base 2:
    [max(max(0, min), min(2 ** (attempt_number - 1), max))]. *)
Definition wait_exponential (min max : Q) (attempt_number : Z) : Q :=
  Qmax (Qmax 0 min) (Qmin (inject_Z (2 ^ (attempt_number - 1))) max).

(** Modelled from the spec: [retry_if_not_exception_type(classes)], absent
    from the sources; an error of one of [classes] is permanent, any other
    is retried. *)
Definition retry_if_not_exception_type (classes : list exn_class) (e : exn) : bool :=
  negb (isinstance e classes).

Section Retrying.
Context {St A : Type}.
Variable sleep : Q -> St -> St.
Variable wait : Z -> Q.
Variable retry : exn -> bool.
Variable stop : Z -> bool.

(** Modelled from the spec: the attempt loop of the [@retry] decorator,
    absent from the sources.  An attempt that returns ends the loop; an
    error that is not to be retried is raised at once; otherwise the loop
    stops when [stop] says so, re-raising the last error ([reraise=True]),
    or sleeps and tries again.  [fuel] bounds the recursion;
    [retrying] below gives it as many steps as [stop_after_attempt]
    allows, so the last branch is never taken. *)
Fixpoint retry_loop (fuel : nat) (attempt_number : Z) (fn : M St A) : M St A :=
  fun s =>
    match fn s with
    | (s', inr v) => (s', inr v)
    | (s', inl e) =>
        if retry e then
          if stop attempt_number then (s', inl e)
          else
            match fuel with
            | S k => retry_loop k (attempt_number + 1) fn (sleep (wait attempt_number) s')
            | O => (s', inl e)
            end
        else (s', inl e)
    end.

End Retrying.

(** Modelled from the spec: [@retry(stop=stop_after_attempt(n), wait=...,
    retry=..., reraise=True)] applied to [fn], absent from the sources. *)
Definition retrying {St A} (sleep : Q -> St -> St) (wait : Z -> Q) (retry : exn -> bool)
    (max_attempt_number : Z) (fn : M St A) : M St A :=
  retry_loop sleep wait retry (stop_after_attempt max_attempt_number)
    (Z.to_nat (max_attempt_number - 1)) 1 fn.

End tenacity.

(** ** pybreaker

    The breaker is the third-party pybreaker package, whose source is not
    part of the repository.  It is modelled as CircuitState and
    CircuitBreaker of sections 3 and 4.2 of the specification; which
    exception the tripping call raises is pinned by
    [test_circuit_opens_after_fail_max_exhausted_retries]: the call that
    opens the circuit raises [CircuitBreakerError], not the error of the
    wrapped function. *)
Module pybreaker.

Inductive status : Type := CLOSED | OPEN | HALF_OPEN.

(** Modelled from the spec: the state of [pybreaker.CircuitBreaker], absent
    from the sources (CircuitState of section 3). *)
Record CircuitBreaker : Type := {
  fail_max : Z;
  reset_timeout : Z;          (* seconds *)
  current_state : status;
  fail_counter : Z;
  opened_at : option Z        (* microseconds, as the clock *)
}.

(** [CircuitBreaker(fail_max=, reset_timeout=)]: closed, nothing counted. *)
Definition new (fail_max reset_timeout : Z) : CircuitBreaker :=
  {| fail_max := fail_max; reset_timeout := reset_timeout;
     current_state := CLOSED; fail_counter := 0; opened_at := None |}.

Definition inc_counter (cb : CircuitBreaker) : CircuitBreaker :=
  {| fail_max := fail_max cb; reset_timeout := reset_timeout cb;
     current_state := current_state cb; fail_counter := fail_counter cb + 1;
     opened_at := opened_at cb |}.

(** [open()]: the state becomes OPEN and [opened_at] is the current time. *)
Definition open (cb : CircuitBreaker) (t : Z) : CircuitBreaker :=
  {| fail_max := fail_max cb; reset_timeout := reset_timeout cb;
     current_state := OPEN; fail_counter := fail_counter cb;
     opened_at := Some t |}.

Definition half_open (cb : CircuitBreaker) : CircuitBreaker :=
  {| fail_max := fail_max cb; reset_timeout := reset_timeout cb;
     current_state := HALF_OPEN; fail_counter := fail_counter cb;
     opened_at := opened_at cb |}.

(** A success: the counter is reset; a half-open breaker closes. *)
Definition on_success (cb : CircuitBreaker) : CircuitBreaker :=
  {| fail_max := fail_max cb; reset_timeout := reset_timeout cb;
     current_state := match current_state cb with
                      | HALF_OPEN => CLOSED
                      | st => st
                      end;
     fail_counter := 0; opened_at := opened_at cb |}.

Definition still_open : exn :=
  Exn CircuitBreakerError "Timeout not elapsed yet, circuit breaker still open".
Definition threshold_reached : exn :=
  Exn CircuitBreakerError "Failures threshold reached, circuit breaker opened".
Definition trial_failed : exn :=
  Exn CircuitBreakerError "Trial call failed, circuit breaker opened".

(** Modelled from the spec: the test of the OPEN state, absent from the
    sources; it rejects while [utcnow() < opened_at + reset_timeout]. *)
Definition rejects (cb : CircuitBreaker) (t : Z) : bool :=
  match current_state cb, opened_at cb with
  | OPEN, Some t0 => t <? t0 + 1000000 * reset_timeout cb
  | _, _ => false
  end.

Section Call.
Context {St A : Type}.
Variable clock : St -> Z.

(** Modelled from the spec: the body of [CircuitBreaker.call] once the call
    is let through, absent from the sources.  The wrapped function is run
    once and its single outcome is counted: a success resets the counter and
    closes a half-open breaker; a failure increments the counter and opens
    the breaker when the probe failed or [fail_max] is reached. *)
Definition run_and_count (cb : CircuitBreaker) (func : M St A) (s : St)
  : (CircuitBreaker * St) * (exn + A) :=
  match func s with
  | (s', inr v) => ((on_success cb, s'), inr v)
  | (s', inl e) =>
      let cb1 := inc_counter cb in
      match current_state cb with
      | HALF_OPEN => ((open cb1 (clock s'), s'), inl trial_failed)
      | _ =>
          if fail_max cb1 <=? fail_counter cb1
          then ((open cb1 (clock s'), s'), inl threshold_reached)
          else ((cb1, s'), inl e)
      end
  end.

(** Modelled from the spec: [CircuitBreaker.call(func)], absent from the
    sources.  An open breaker whose timeout has not elapsed raises without
    calling [func]; one whose timeout has elapsed lets one probe through. *)
Definition call (func : M St A) : M (CircuitBreaker * St) A :=
  fun bs =>
    let cb := fst bs in
    let s := snd bs in
    match current_state cb with
    | OPEN =>
        if rejects cb (clock s) then (bs, inl still_open)
        else run_and_count (half_open cb) func s
    | _ => run_and_count cb func s
    end.

End Call.
End pybreaker.

(** ** llm_client.py: the two backends *)

Module ChatGPTBackend.
Section WithRemote.
Context {W : Type} (remote : Remote W).
Variable _settings : Settings.

(** [__init__]: the breaker of this backend. *)
Definition _cb : pybreaker.CircuitBreaker :=
  pybreaker.new (CB_FAIL_MAX _settings) (CB_RESET_TIMEOUT _settings).

(** [bool(CHATGPT_API_URL and CHATGPT_API_KEY)]. *)
Definition is_configured : bool :=
  truthy (CHATGPT_API_URL _settings) && truthy (CHATGPT_API_KEY _settings).

Definition server_error (r : Response) : exn :=
  Exn IOError ("ChatGPT server error " ++ str_of_int (status_code r) ++ ": "
               ++ substring 0 200 (text r))%string.

Definition client_error (r : Response) : exn :=
  Exn ValueError ("ChatGPT client error " ++ str_of_int (status_code r) ++ ": "
                  ++ substring 0 200 (text r))%string.

(** One blocking POST; 5xx raises [IOError], 4xx raises [ValueError], any
    other status returns the extracted content as it is. *)
Definition _http_call (system_message user_prompt : string) : M (Net W) string :=
  emit (HttpPost system_message user_prompt) ;;
  response <- ask (httpx_post remote _settings system_message user_prompt) ;;
  if 500 <=? status_code response then raise (server_error response)
  else if 400 <=? status_code response then raise (client_error response)
  else match content response with
       | inl e => raise e
       | inr c => ret c
       end.

(** The [@retry]-decorated inner function of [generate]. *)
Definition _call_with_retry (system_message user_prompt : string) : M (Net W) string :=
  tenacity.retrying
    (sleep_for remote)
    (tenacity.wait_exponential (CB_RETRY_WAIT_MIN _settings) (CB_RETRY_WAIT_MAX _settings))
    (tenacity.retry_if_not_exception_type [CircuitBreakerError; ValueError])
    (CB_RETRY_ATTEMPTS _settings)
    (_http_call system_message user_prompt).

Definition not_configured : exn :=
  Exn RuntimeError "ChatGPT backend is not configured (missing URL or key).".

Definition generate (system_message user_prompt : string)
  : M (pybreaker.CircuitBreaker * Net W) string :=
  if negb is_configured then raise not_configured
  else pybreaker.call (now remote) (_call_with_retry system_message user_prompt).

End WithRemote.
End ChatGPTBackend.

(** [_run_copilot_session]: an absent event, an absent content and an empty
    content all raise. *)
Definition empty_response : exn :=
  Exn RuntimeError "Copilot SDK returned an empty response.".

Definition _run_copilot_session {W} (remote : Remote W) (settings : Settings)
    (system_message_content user_prompt : string) : M (Net W) string :=
  emit (CopilotSession system_message_content user_prompt) ;;
  response_event <- ask (copilot_send_and_wait remote settings
                           system_message_content user_prompt) ;;
  let response_text :=
    match response_event with
    | None => EmptyString
    | Some None => EmptyString
    | Some (Some c) => c
    end in
  if negb (truthy response_text) then raise empty_response
  else ret response_text.

Module CopilotBackend.
Section WithRemote.
Context {W : Type} (remote : Remote W).
Variable _settings : Settings.

Definition _cb : pybreaker.CircuitBreaker :=
  pybreaker.new (CB_FAIL_MAX _settings) (CB_RESET_TIMEOUT _settings).

(** [bool(GITHUB_TOKEN)]. *)
Definition is_configured : bool := truthy (GITHUB_TOKEN _settings).

Definition _call_with_retry (system_message user_prompt : string) : M (Net W) string :=
  tenacity.retrying
    (sleep_for remote)
    (tenacity.wait_exponential (CB_RETRY_WAIT_MIN _settings) (CB_RETRY_WAIT_MAX _settings))
    (tenacity.retry_if_not_exception_type [CircuitBreakerError])
    (CB_RETRY_ATTEMPTS _settings)
    (_run_copilot_session remote _settings system_message user_prompt).

Definition not_configured : exn :=
  Exn RuntimeError "Copilot backend is not configured (missing GITHUB_TOKEN).".

Definition generate (system_message user_prompt : string)
  : M (pybreaker.CircuitBreaker * Net W) string :=
  if negb is_configured then raise not_configured
  else pybreaker.call (now remote) (_call_with_retry system_message user_prompt).

End WithRemote.
End CopilotBackend.

(** ** llm_client.py: the facade *)

(** The capability the facade needs from a backend.  The tests replace
    [generate] of either backend by a stub, so the facade is written over
    this interface and instantiated with the two real backends below. *)
Record Backend (X : Type) : Type := {
  is_configured : bool;
  generate : string -> string -> M X string
}.
Arguments is_configured {X}.
Arguments generate {X}.

Inductive backend_id : Type := ChatGPT | Copilot.

Definition backend_id_eqb (a b : backend_id) : bool :=
  match a, b with
  | ChatGPT, ChatGPT | Copilot, Copilot => true
  | _, _ => false
  end.

(** [backend] was attempted: its [generate] was called. *)
Definition attempted (backend : backend_id) (called : list backend_id) : bool :=
  existsb (backend_id_eqb backend) called.

Module LLMClient.

Definition circuit_open : exn :=
  Exn RuntimeError
    "Both LLM backends are unavailable: ChatGPT failed or unconfigured, Copilot circuit is open.".

Definition both_failed (exc : exn) : exn :=
  Exn RuntimeError ("Both LLM backends failed. Copilot error: " ++ exn_str exc)%string.

Definition unconfigured : exn :=
  Exn RuntimeError
    "Both LLM backends are unconfigured. Set CHATGPT_API_URL+CHATGPT_API_KEY or GITHUB_TOKEN.".

Section Facade.
Context {X : Type}.
Variables _chatgpt _copilot : Backend X.

(** The primary stage: the result if ChatGPT answered, [None] to fall
    through.  Both [except] clauses only log.  The second component lists
    the backends whose [generate] was called. *)
Definition try_primary (system_message user_prompt : string) (x : X)
  : X * list backend_id * option string :=
  if is_configured _chatgpt then
    match generate _chatgpt system_message user_prompt x with
    | (x1, inr result) => (x1, [ChatGPT], Some result)
    | (x1, inl _) => (x1, [ChatGPT], None)
    end
  else (x, [], None).

(** [LLMClient.generate], with the list of backends it called. *)
Definition generate_traced (system_message user_prompt : string) (x : X)
  : X * list backend_id * (exn + string) :=
  match try_primary system_message user_prompt x with
  | (x1, called, Some result) => (x1, called, inr result)
  | (x1, called, None) =>
      if is_configured _copilot then
        match generate _copilot system_message user_prompt x1 with
        | (x2, inr result) => (x2, called ++ [Copilot], inr result)
        | (x2, inl exc) =>
            if isinstance exc [CircuitBreakerError]
            then (x2, called ++ [Copilot], inl circuit_open)
            else (x2, called ++ [Copilot], inl (both_failed exc))
        end
      else (x1, called, inl unconfigured)
  end.

Definition generate_with (system_message user_prompt : string) : M X string :=
  fun x =>
    let '(x', _, r) := generate_traced system_message user_prompt x in (x', r).

End Facade.

(** The facade owns one breaker per backend; both live as long as the
    client does. *)
Record t : Type := {
  chatgpt_cb : pybreaker.CircuitBreaker;
  copilot_cb : pybreaker.CircuitBreaker
}.

Section WithRemote.
Context {W : Type} (remote : Remote W).
Variable settings : Settings.

(** [__init__]. *)
Definition init : t :=
  {| chatgpt_cb := ChatGPTBackend._cb settings;
     copilot_cb := CopilotBackend._cb settings |}.

Definition on_chatgpt {A} (c : M (pybreaker.CircuitBreaker * Net W) A)
  : M (t * Net W) A :=
  fun x =>
    let '((cb, n), r) := c (chatgpt_cb (fst x), snd x) in
    (({| chatgpt_cb := cb; copilot_cb := copilot_cb (fst x) |}, n), r).

Definition on_copilot {A} (c : M (pybreaker.CircuitBreaker * Net W) A)
  : M (t * Net W) A :=
  fun x =>
    let '((cb, n), r) := c (copilot_cb (fst x), snd x) in
    (({| chatgpt_cb := chatgpt_cb (fst x); copilot_cb := cb |}, n), r).

Definition _chatgpt : Backend (t * Net W) :=
  {| is_configured := ChatGPTBackend.is_configured settings;
     generate := fun sm up => on_chatgpt (ChatGPTBackend.generate remote settings sm up) |}.

Definition _copilot : Backend (t * Net W) :=
  {| is_configured := CopilotBackend.is_configured settings;
     generate := fun sm up => on_copilot (CopilotBackend.generate remote settings sm up) |}.

Definition generate (system_message user_prompt : string) : M (t * Net W) string :=
  generate_with _chatgpt _copilot system_message user_prompt.

End WithRemote.
End LLMClient.

(** ** epic_generator.py *)

(** The keyword arguments of [EpicGenerator.generate]. *)
Record GenArgs : Type := {
  arg_project_name : string;
  arg_requirements_body : string;
  arg_existing_epic : option string;
  arg_extension_rules : option string;
  arg_title : option string;
  arg_idea : option string;
  arg_envs : option string;
  arg_directives : option string
}.

(** The three prompt builders render text from the rule files and their
    arguments; nothing below depends on what they render. *)
Record Prompts : Type := {
  _build_system_message : option string -> string;
  _build_creation_prompt :
    string -> string -> option string -> option string -> option string
    -> option string -> string;
  _build_update_prompt :
    string -> string -> string -> option string -> option string
    -> option string -> option string -> string
}.

Module EpicGenerator.
Section WithLLM.
Context {X : Type}.
Variable prompts : Prompts.
Variable _llm_generate : string -> string -> M X string.

(** [if existing_epic:] sends an update prompt, anything falsy a creation
    prompt. *)
Definition generate (a : GenArgs) : M X string :=
  let system_msg := _build_system_message prompts (arg_extension_rules a) in
  let user_prompt :=
    match arg_existing_epic a with
    | Some existing =>
        if truthy existing then
          _build_update_prompt prompts (arg_project_name a) existing
            (arg_requirements_body a) (arg_title a) (arg_idea a) (arg_envs a)
            (arg_directives a)
        else
          _build_creation_prompt prompts (arg_project_name a)
            (arg_requirements_body a) (arg_title a) (arg_idea a) (arg_envs a)
            (arg_directives a)
    | None =>
        _build_creation_prompt prompts (arg_project_name a)
          (arg_requirements_body a) (arg_title a) (arg_idea a) (arg_envs a)
          (arg_directives a)
    end in
  _llm_generate system_msg user_prompt.

End WithLLM.
End EpicGenerator.

(** ** main.py *)

(** [AgentEmail].  [sender] is the field [main.py] reads and
    [tests/test_email_client.py] checks ([None] when the message has no
    usable From header). *)
Record AgentEmail : Type := {
  uid : string;
  project_name : string;
  project_slug : string;
  subject : string;
  body : string;
  title : option string;
  idea : option string;
  envs : option string;
  directives : option string;
  extension_rules : option string;
  sender : option string
}.

(** The clients handed to [_process_project_emails], over whatever state [G]
    they share: the S3 client, the SMTP client and the IMAP client.  Each
    call returns or raises.  The epic generator is the fourth argument and
    is passed on its own. *)
Record Services (G : Type) : Type := {
  s3_ensure_bucket : string -> M G string;
  s3_read_latest_epic : string -> M G (option string);
  s3_read_extension_rules : string -> M G (option string);
  s3_write_extension_rules : string -> string -> M G string;
  s3_write_epic : string -> string -> string -> M G string;
  smtp_send_reply : string -> string -> string -> string -> string -> M G unit;
  email_mark_as_seen : string -> M G unit
}.
Arguments s3_ensure_bucket {G}.
Arguments s3_read_latest_epic {G}.
Arguments s3_read_extension_rules {G}.
Arguments s3_write_extension_rules {G}.
Arguments s3_write_epic {G}.
Arguments smtp_send_reply {G}.
Arguments email_mark_as_seen {G}.

(** Ghost trace of one partition: every collaborator call with its outcome,
    and the start of every loop iteration. *)
Inductive event : Type :=
  | Ev_ensure_bucket (slug : string) (outcome : exn + string)
  | Ev_read_latest_epic (slug : string) (outcome : exn + option string)
  | Ev_processing_email (mail_uid : string)
  | Ev_read_extension_rules (slug : string) (outcome : exn + option string)
  | Ev_generate (mail_uid : string) (existing_epic : option string)
      (outcome : exn + string)
  | Ev_send_reply (mail_uid : string) (outcome : exn + unit)
  | Ev_write_extension_rules (slug content : string) (outcome : exn + string)
  | Ev_write_epic (slug epic_markdown : string) (outcome : exn + string)
  | Ev_mark_as_seen (mail_uid : string) (outcome : exn + unit).

(** Call a collaborator and record the call with its outcome. *)
Definition invoke {G A} (c : M G A) (ev : exn + A -> event) : M (G * list event) A :=
  fun s => let '(g', r) := c (fst s) in ((g', snd s ++ [ev r]), r).

Definition note {G} (ev : event) : M (G * list event) unit :=
  fun s => ((fst s, snd s ++ [ev]), inr tt).

(** The three variables the loop of [_process_project_emails] updates. *)
Record LoopState : Type := {
  accumulated_epic : option string;
  accumulated_extension_rules : option string;
  processed_uids : list string
}.

Definition nl : string := String (ascii_of_nat 10) EmptyString.

Definition reply_body (name : string) : string :=
  ("Hello," ++ nl ++ nl
   ++ "We've processed your requirements for '" ++ name ++ "' "
   ++ "and generated a project specification document. "
   ++ "Please see the attached file for details." ++ nl ++ nl
   ++ "Best regards," ++ nl
   ++ "JARVIS Agent")%string.

Section Orchestrator.
Context {G : Type}.
Variable c : Services G.
Variable generator_generate : GenArgs -> M G string.

(** Rules attached to the email, else the rules kept from an earlier email
    of this run, else what S3 holds. *)
Definition _resolve_extension_rules (mail : AgentEmail) (pending_extension_rules : option string)
  : M (G * list event) (option string) :=
  if truthy_opt (extension_rules mail) then ret (extension_rules mail)
  else if truthy_opt pending_extension_rules then ret pending_extension_rules
  else invoke (s3_read_extension_rules c (project_slug mail))
              (Ev_read_extension_rules (project_slug mail)).

(** The body of [for mail in mails:] (lines 121-195).  The outer [try]
    swallows a failure of the rule lookup or of the generator and leaves the
    email out; the inner [try] swallows a failure of the reply.  The
    assignment to [accumulated_extension_rules] precedes the generator call
    and so survives its failure. *)
Definition process_email (mail : AgentEmail) (st : LoopState) : M (G * list event) LoopState :=
  note (Ev_processing_email (uid mail)) ;;
  resolved <- attempt (_resolve_extension_rules mail (accumulated_extension_rules st)) ;;
  match resolved with
  | inl _ => ret st
  | inr rules_for_mail =>
      let rules :=
        if truthy_opt (extension_rules mail) then extension_rules mail
        else accumulated_extension_rules st in
      generated <- attempt
        (invoke
           (generator_generate
              {| arg_project_name := project_name mail;
                 arg_requirements_body := body mail;
                 arg_existing_epic := accumulated_epic st;
                 arg_extension_rules := rules_for_mail;
                 arg_title := title mail;
                 arg_idea := idea mail;
                 arg_envs := envs mail;
                 arg_directives := directives mail |})
           (Ev_generate (uid mail) (accumulated_epic st))) ;;
      match generated with
      | inl _ =>
          ret {| accumulated_epic := accumulated_epic st;
                 accumulated_extension_rules := rules;
                 processed_uids := processed_uids st |}
      | inr epic =>
          let st' := {| accumulated_epic := Some epic;
                        accumulated_extension_rules := rules;
                        processed_uids := processed_uids st ++ [uid mail] |} in
          match sender mail with
          | Some recipient =>
              if truthy recipient && truthy epic then
                attempt
                  (invoke
                     (smtp_send_reply c recipient ("Re: " ++ subject mail)%string
                        (reply_body (project_name mail)) "requirements.md" epic)
                     (Ev_send_reply (uid mail))) ;;
                ret st'
              else ret st'
          | None => ret st'
          end
      end
  end.

(** [for mail in mails:]. *)
Fixpoint process_emails (mails : list AgentEmail) (st : LoopState)
  : M (G * list event) LoopState :=
  match mails with
  | [] => ret st
  | mail :: rest => st' <- process_email mail st ;; process_emails rest st'
  end.

(** [for uid in processed_uids: email_client.mark_as_seen(uid)]. *)
Fixpoint mark_all_as_seen (uids : list string) : M (G * list event) unit :=
  match uids with
  | [] => ret tt
  | u :: rest =>
      invoke (email_mark_as_seen c u) (Ev_mark_as_seen u) ;;
      mark_all_as_seen rest
  end.

(** What follows the loop (lines 197-224): nothing when no email was
    processed; else the rules when some were attached, the epic when it is
    truthy, then the acknowledgments. *)
Definition commit_and_acknowledge (slug name : string) (st : LoopState)
  : M (G * list event) nat :=
  match processed_uids st with
  | [] => ret 0%nat
  | _ :: _ =>
      match accumulated_extension_rules st with
      | Some rules =>
          if truthy rules
          then invoke (s3_write_extension_rules c slug rules)
                      (Ev_write_extension_rules slug rules) ;; ret tt
          else ret tt
      | None => ret tt
      end ;;
      match accumulated_epic st with
      | Some epic =>
          if truthy epic
          then invoke (s3_write_epic c slug epic name) (Ev_write_epic slug epic) ;; ret tt
          else ret tt
      | None => ret tt
      end ;;
      mark_all_as_seen (processed_uids st) ;;
      ret (length (processed_uids st))
  end.

(** [_process_project_emails]: ensure the bucket, read the baseline epic,
    take the project name of the first email ([mails[0]] raises on an empty
    list), fold the emails, then commit and acknowledge.  An exception of
    [ensure_bucket], [read_latest_epic] or of a call after the loop leaves
    the function; [run] catches it and goes on with the next project.  The
    result is the number of emails processed. *)
Definition _process_project_emails (slug : string) (mails : list AgentEmail)
  : M (G * list event) nat :=
  bucket <- invoke (s3_ensure_bucket c slug) (Ev_ensure_bucket slug) ;;
  baseline <- invoke (s3_read_latest_epic c slug) (Ev_read_latest_epic slug) ;;
  name <- match mails with
          | [] => raise (Exn IndexError "list index out of range")
          | first :: _ => ret (project_name first)
          end ;;
  st <- process_emails mails
          {| accumulated_epic := baseline;
             accumulated_extension_rules := None;
             processed_uids := [] |} ;;
  commit_and_acknowledge slug name st.

End Orchestrator.

(** ** The clients as [run] builds them

    [run] creates one [EpicGenerator] (hence one [LLMClient] and one breaker
    per backend) for the whole run; the S3, SMTP and IMAP clients only touch
    the world. *)

Definition on_world {W T A} (f : M W A) : M (T * Net W) A :=
  fun x =>
    let '(w', r) := f (fst (snd x)) in ((fst x, (w', snd (snd x))), r).

Definition run_services {W} (services : Services W) : Services (LLMClient.t * Net W) :=
  {| s3_ensure_bucket := fun slug => on_world (s3_ensure_bucket services slug);
     s3_read_latest_epic := fun slug => on_world (s3_read_latest_epic services slug);
     s3_read_extension_rules :=
       fun slug => on_world (s3_read_extension_rules services slug);
     s3_write_extension_rules :=
       fun slug rules => on_world (s3_write_extension_rules services slug rules);
     s3_write_epic :=
       fun slug epic name => on_world (s3_write_epic services slug epic name);
     smtp_send_reply :=
       fun recipient subj text_body filename attachment =>
         on_world (smtp_send_reply services recipient subj text_body filename attachment);
     email_mark_as_seen := fun u => on_world (email_mark_as_seen services u) |}.

Definition run_generator {W} (remote : Remote W) (settings : Settings) (prompts : Prompts)
  : GenArgs -> M (LLMClient.t * Net W) string :=
  EpicGenerator.generate prompts (LLMClient.generate remote settings).

(** ** Reading a trace *)

(** Number of [write_epic] calls. *)
Fixpoint commits (tr : list event) : nat :=
  match tr with
  | [] => O
  | Ev_write_epic _ _ _ :: rest => S (commits rest)
  | _ :: rest => commits rest
  end.

(** The uids [mark_as_seen] was called with, in order. *)
Fixpoint acked (tr : list event) : list string :=
  match tr with
  | [] => []
  | Ev_mark_as_seen u _ :: rest => u :: acked rest
  | _ :: rest => acked rest
  end.

(** The uids whose fold returned, in order. *)
Fixpoint folded (tr : list event) : list string :=
  match tr with
  | [] => []
  | Ev_generate u _ (inr _) :: rest => u :: folded rest
  | _ :: rest => folded rest
  end.

(** The uids whose loop iteration started, in order. *)
Fixpoint visited (tr : list event) : list string :=
  match tr with
  | [] => []
  | Ev_processing_email u :: rest => u :: visited rest
  | _ :: rest => visited rest
  end.

(** The uids the generator was called for, in order. *)
Fixpoint fold_uids (tr : list event) : list string :=
  match tr with
  | [] => []
  | Ev_generate u _ _ :: rest => u :: fold_uids rest
  | _ :: rest => fold_uids rest
  end.

(** Every generator call of the trace receives [current] as the existing
    epic; a call that returns replaces [current] by its result, a call that
    raises leaves it. *)
Fixpoint chained (current : option string) (tr : list event) : Prop :=
  match tr with
  | [] => True
  | Ev_generate _ existing outcome :: rest =>
      existing = current /\
      chained (match outcome with inr epic => Some epic | inl _ => current end) rest
  | _ :: rest => chained current rest
  end.

(** The epic a trace ends with, from [current]. *)
Fixpoint last_epic (current : option string) (tr : list event) : option string :=
  match tr with
  | [] => current
  | Ev_generate _ _ (inr epic) :: rest => last_epic (Some epic) rest
  | _ :: rest => last_epic current rest
  end.

(** No [mark_as_seen] call before a [write_epic] call has returned. *)
Fixpoint acks_after_commit (committed : bool) (tr : list event) : bool :=
  match tr with
  | [] => true
  | Ev_write_epic _ _ (inr _) :: rest => acks_after_commit true rest
  | Ev_mark_as_seen _ _ :: rest => committed && acks_after_commit committed rest
  | _ :: rest => acks_after_commit committed rest
  end.

(** The collaborator calls whose exception leaves [_process_project_emails]:
    everything but the generator, the rule lookup and the reply, which the
    loop catches. *)
Definition raised_by (e : exn) (ev : event) : Prop :=
  match ev with
  | Ev_ensure_bucket _ (inl e')
  | Ev_read_latest_epic _ (inl e')
  | Ev_write_extension_rules _ _ (inl e')
  | Ev_write_epic _ _ (inl e')
  | Ev_mark_as_seen _ (inl e') => e' = e
  | _ => False
  end.

(** The events of the loop, and those of the steps after it. *)
Definition loop_event (ev : event) : bool :=
  match ev with
  | Ev_processing_email _ | Ev_read_extension_rules _ _
  | Ev_generate _ _ _ | Ev_send_reply _ _ => true
  | _ => false
  end.

Definition final_event (ev : event) : bool :=
  match ev with
  | Ev_write_extension_rules _ _ _ | Ev_write_epic _ _ _ | Ev_mark_as_seen _ _ => true
  | _ => false
  end.

(** [l1] is [l2] with some elements left out. *)
Inductive subseq {A : Type} : list A -> list A -> Prop :=
  | subseq_nil : subseq [] []
  | subseq_skip x l1 l2 : subseq l1 l2 -> subseq l1 (x :: l2)
  | subseq_take x l1 l2 : subseq l1 l2 -> subseq (x :: l1) (x :: l2).

(** The trace ends with the call that raised [e]. *)
Definition ends_raising (e : exn) (tr : list event) : Prop :=
  exists tr0 ev, tr = tr0 ++ [ev] /\ raised_by e ev.

(** ** Successive calls through one breaker *)

(** Each step is a wrapped function and the state of the world when the
    breaker is asked to call it: anything may happen between two calls.  The
    result is the breaker after the last call and the outcome of each. *)
Fixpoint call_sequence {St A} (clock : St -> Z) (steps : list (M St A * St))
    (cb : pybreaker.CircuitBreaker) : pybreaker.CircuitBreaker * list (exn + A) :=
  match steps with
  | [] => (cb, [])
  | (func, s) :: rest =>
      let '((cb1, _), r) := pybreaker.call clock func (cb, s) in
      let '(cb2, rs) := call_sequence clock rest cb1 in
      (cb2, r :: rs)
  end.

(** ** Reading a network trace *)

(** The trace of [k + 1] attempts from attempt number [a]: the attempt event
    [ev], then [k] times a sleep followed by [ev]. *)
Fixpoint retry_log (wait : Z -> Q) (k : nat) (a : Z) (ev : net_event) : list net_event :=
  match k with
  | O => [ev]
  | S k' => ev :: Sleep (wait a) :: retry_log wait k' (a + 1) ev
  end.

(** [fn] makes exactly one attempt, recorded as [ev], and nothing else. *)
Definition logs_one {W A} (fn : M (Net W) A) (ev : net_event) : Prop :=
  is_attempt ev = true /\ forall n, snd (fst (fn n)) = snd n ++ [ev].


(** What the loop guarantees, from loop state [st] to [st'] over emails
    with uids [uids], its events being [new]: only loop events; one
    iteration per email, in order; generator calls in that order; every call
    seeded by the epic accumulated so far; the final epic and the processed
    list are those of the calls that returned; a reply is only ever sent for
    an email whose fold returned. *)
Definition loop_post (uids : list string) (st : LoopState) (new : list event)
    (st' : LoopState) : Prop :=
  forallb loop_event new = true /\
  visited new = uids /\
  subseq (fold_uids new) uids /\
  chained (accumulated_epic st) new /\
  accumulated_epic st' = last_epic (accumulated_epic st) new /\
  processed_uids st' = processed_uids st ++ folded new /\
  (forall u o, In (Ev_send_reply u o) new -> In u (folded new)).

(** What the acknowledgment loop guarantees over [uids], its events being
    [acks]: only [mark_as_seen] calls, for a prefix of [uids] in order; all
    of [uids] when it returns; when it raises, the last call raised. *)
Definition acks_post (uids : list string) (acks : list event) (res : exn + unit) : Prop :=
  forallb final_event acks = true /\
  commits acks = O /\
  (exists rest, uids = acked acks ++ rest) /\
  (is_ok res = true -> acked acks = uids) /\
  (forall e, res = inl e -> ends_raising e acks) /\
  (forall s r o, ~ In (Ev_write_extension_rules s r o) acks).

(** What the steps after the loop guarantee from loop state [st], their
    events being [fin]. *)
Definition final_post (st : LoopState) (fin : list event) (res : exn + nat) : Prop :=
  forallb final_event fin = true /\
  (commits fin <= 1)%nat /\
  (exists rest, processed_uids st = acked fin ++ rest) /\
  (processed_uids st = [] -> fin = [] /\ res = inr O) /\
  (forall n, res = inr n ->
     acked fin = processed_uids st /\ n = length (processed_uids st) /\
     (processed_uids st <> [] ->
      commits fin = if truthy_opt (accumulated_epic st) then 1%nat else O)) /\
  (forall e, res = inl e -> ends_raising e fin) /\
  (processed_uids st <> [] ->
   (forall s r e, ~ In (Ev_write_extension_rules s r (inl e)) fin) ->
   truthy_opt (accumulated_epic st) = true -> commits fin = 1%nat) /\
  (truthy_opt (accumulated_epic st) = true -> acks_after_commit false fin = true).

(** What one run of [_process_project_emails] guarantees, [tr] being its
    trace, [res] its result and [uids] the uids of its emails. *)
Definition partition_post (slug : string) (uids : list string) (tr : list event)
    (res : exn + nat) : Prop :=
  (commits tr <= 1)%nat /\
  (exists rest, folded tr = acked tr ++ rest) /\
  (folded tr = [] -> commits tr = O /\ acked tr = []) /\
  (forall n, res = inr n ->
     acked tr = folded tr /\ n = length (folded tr) /\
     commits tr = if truthy_opt (last_epic None tr) then 1%nat else O) /\
  (forall e, res = inl e -> folded tr <> [] -> ends_raising e tr) /\
  (forall baseline, In (Ev_read_latest_epic slug (inr baseline)) tr ->
     chained baseline tr /\
     (uids <> [] -> visited tr = uids /\ subseq (fold_uids tr) uids)) /\
  (forall u o, In (Ev_send_reply u o) tr -> In u (folded tr)) /\
  ((forall s r e, ~ In (Ev_write_extension_rules s r (inl e)) tr) ->
   truthy_opt (last_epic None tr) = true -> commits tr = 1%nat) /\
  (truthy_opt (last_epic None tr) = true -> acks_after_commit false tr = true).

(** ** Concrete runs

    A world that is just the clock (microseconds): sleeping advances it, the
    endpoint and the Copilot session always answer the same way, and the
    storage, mail and reply clients answer as given. *)
Module Scenario.

Definition settings (url key token : string) (fail_max attempts : Z) : Settings :=
  {| CHATGPT_API_KEY := key; CHATGPT_API_URL := url; GITHUB_TOKEN := token;
     CB_FAIL_MAX := fail_max; CB_RESET_TIMEOUT := 60;
     CB_RETRY_ATTEMPTS := attempts;
     CB_RETRY_WAIT_MIN := 1; CB_RETRY_WAIT_MAX := 30 |}.

Definition answer (status : Z) (c : string) : exn + Response :=
  inr {| status_code := status; text := c; content := inr c |}.

(** The clock and the number of POSTs answered so far. *)
Definition World : Type := (Z * nat)%type.

(** The endpoint answers its [n]-th POST with [http n]. *)
Definition remote (http : nat -> exn + Response) (copilot : exn + option (option string))
  : Remote World :=
  {| utcnow := fun w => fst w;
     time_sleep := fun q w => (fst w + 1000000, snd w);
     httpx_post := fun _ _ _ w => ((fst w, S (snd w)), http (snd w));
     copilot_send_and_wait := fun _ _ _ w => (w, copilot) |}.

Definition always {A} (a : A) : nat -> A := fun _ => a.

Definition scripted {A} (script : list A) (otherwise : A) : nat -> A :=
  fun n => nth n script otherwise.

Definition client_error : exn := Exn OtherException "ClientError".
Definition smtp_error : exn := Exn OtherException "SMTPException".

Definition services (baseline : option string) (write_epic : exn + string)
    (send_reply : exn + unit) : Services World :=
  {| s3_ensure_bucket := fun slug w => (w, inr ("jarvis-" ++ slug)%string);
     s3_read_latest_epic := fun _ w => (w, inr baseline);
     s3_read_extension_rules := fun _ w => (w, inr None);
     s3_write_extension_rules :=
       fun _ _ w => (w, inr "epics/project-extension-rules.md");
     s3_write_epic := fun _ _ _ w => (w, write_epic);
     smtp_send_reply := fun _ _ _ _ _ w => (w, send_reply);
     email_mark_as_seen := fun _ w => (w, inr tt) |}.

Definition prompts : Prompts :=
  {| _build_system_message := fun _ => "system";
     _build_creation_prompt := fun _ _ _ _ _ _ => "create";
     _build_update_prompt := fun _ _ _ _ _ _ _ => "update" |}.

Definition mail (u : string) (from : option string) : AgentEmail :=
  {| uid := u; project_name := "Alpha"; project_slug := "alpha";
     subject := "[JARVIS]-[Alpha]"; body := "requirements";
     title := None; idea := None; envs := None; directives := None;
     extension_rules := None; sender := from |}.

(** One partition, run with fresh breakers from clock 0. *)
Definition start (cfg : Settings) : LLMClient.t * Net World :=
  (LLMClient.init cfg, ((0, O), [])).

Definition run_partition (cfg : Settings) (r : Remote World) (s : Services World)
    (mails : list AgentEmail) :=
  _process_project_emails (run_services s) (run_generator r cfg prompts)
    "alpha" mails (start cfg, []).

Definition trace_of {St A} (result : (St * list event) * A) : list event :=
  snd (fst result).

Definition key : exn + string := inr "epics/alpha_2026-01-01.md".

(** ChatGPT answers 200 with an empty content; one email. *)
Definition empty_epic_run :=
  run_partition (settings "http://llm" "k" EmptyString 3 3)
    (remote (always (answer 200 EmptyString)) (inr None))
    (services None key (inr tt))
    [mail "1" (Some "a@example.com")].

(** ChatGPT answers; the write to S3 raises. *)
Definition failed_commit_run :=
  run_partition (settings "http://llm" "k" EmptyString 3 3)
    (remote (always (answer 200 "# Epic")) (inr None))
    (services None (inl client_error) (inr tt))
    [mail "1" (Some "a@example.com")].

(** ChatGPT answers; the reply cannot be sent; two emails. *)
Definition failed_reply_run :=
  run_partition (settings "http://llm" "k" EmptyString 3 3)
    (remote (always (answer 200 "# Epic")) (inr None))
    (services None key (inl smtp_error))
    [mail "1" (Some "a@example.com"); mail "2" (Some "b@example.com")].



(** An endpoint that answers 503 to everything; no Copilot answer. *)
Definition down : Remote World := remote (always (answer 503 "busy")) (inr None).

(** The scenario of section 8 for the breaker: [fail_max = 3], one attempt
    per call, three calls to the endpoint that is down. *)
Definition strict : Settings := settings "http://llm" "k" EmptyString 3 1.

Definition three_calls : list (M (Net World) string * Net World) :=
  repeat (ChatGPTBackend._call_with_retry down strict "s" "p", ((0, O), [])) 3.

(** Three attempts per call, waits between 1 and 30 seconds. *)
Definition patient : Settings := settings "http://llm" "k" "gh" 3 3.

(** ChatGPT is not configured. *)
Definition no_chatgpt : Settings := settings EmptyString EmptyString "gh" 3 3.

(** The endpoint is down and Copilot answers. *)
Definition copilot_only : Remote World :=
  remote (always (answer 503 "busy")) (inr (Some (Some "# From Copilot"))).

Definition both : Settings := settings "http://llm" "k" "gh" 3 1.

End Scenario.

(** ** main.py: [run] *)

(** The IMAP client as [run] uses it: [__enter__] ([connect]), the fetch and
    [__exit__] ([disconnect], which swallows whatever closing raises). *)
Record Mailbox (G : Type) : Type := {
  email_connect : M G unit;
  email_fetch_unread_jarvis_emails : M G (list AgentEmail);
  email_disconnect : G -> G
}.
Arguments email_connect {G}.
Arguments email_fetch_unread_jarvis_emails {G}.
Arguments email_disconnect {G}.

(** [emails_by_project[mail.project_slug].append(mail)] on a dict, which
    keeps its keys in insertion order: the email joins the list of its slug,
    and a slug seen for the first time goes to the end. *)
Fixpoint append_to_project (mail : AgentEmail) (groups : list (string * list AgentEmail))
  : list (string * list AgentEmail) :=
  match groups with
  | [] => [(project_slug mail, [mail])]
  | (slug, mails) :: rest =>
      if String.eqb slug (project_slug mail) then (slug, mails ++ [mail]) :: rest
      else (slug, mails) :: append_to_project mail rest
  end.

(** [for mail in emails: emails_by_project[mail.project_slug].append(mail)],
    read as [emails_by_project.items()]. *)
Definition group_by_project (emails : list AgentEmail) : list (string * list AgentEmail) :=
  fold_left (fun groups mail => append_to_project mail groups) emails [].

(** The two counters of [run], logged as [agent.run_finished]. *)
Record Counters : Type := { processed : Z; errors : Z }.

Definition _LOG_PROJECT_SLUG : string := "agent-triage-logs".

(** A client call that is not recorded in the trace of the partitions. *)
Definition quiet {G A} (f : M G A) : M (G * list event) A :=
  fun s => let '(g', r) := f (fst s) in ((g', snd s), r).

Section Run.
Context {G : Type}.
Variable c : Services G.
Variable generator_generate : GenArgs -> M G string.
Variable mailbox : Mailbox G.
Variable flush_to_s3 : M G unit.

(** [for project_slug, project_mails in emails_by_project.items():] with its
    [try]: a project that raises counts all its emails as errors and the
    loop goes on. *)
Fixpoint process_projects (groups : list (string * list AgentEmail)) (k : Counters)
  : M (G * list event) Counters :=
  match groups with
  | [] => ret k
  | (slug, project_mails) :: rest =>
      outcome <- attempt (_process_project_emails c generator_generate slug project_mails) ;;
      process_projects rest
        match outcome with
        | inr count =>
            {| processed := processed k + Z.of_nat count;
               errors := errors k + (Z.of_nat (length project_mails) - Z.of_nat count) |}
        | inl _ =>
            {| processed := processed k;
               errors := errors k + Z.of_nat (length project_mails) |}
        end
  end.

(** The body of the [with] block (lines 254-286); [if not emails: return]
    leaves with both counters at zero. *)
Definition fetch_and_process : M (G * list event) Counters :=
  emails <- quiet (email_fetch_unread_jarvis_emails mailbox) ;;
  match emails with
  | [] => ret {| processed := 0; errors := 0 |}
  | _ :: _ => process_projects (group_by_project emails) {| processed := 0; errors := 0 |}
  end.

(** [with EmailClient(settings) as email_client:].  When [__enter__] raises
    neither the body nor [__exit__] runs; otherwise [__exit__] runs however
    the body ends, and an exception of the body goes on. *)
Definition with_email_client {A} (body : M (G * list event) A) : M (G * list event) A :=
  quiet (email_connect mailbox) ;;
  fun s => let '(s', r) := body s in ((email_disconnect mailbox (fst s'), snd s'), r).

(** [run], from its [try] on (lines 252-306), the clients being built.  The
    only calls outside an inner [try] are the connection and the fetch,
    reached with both counters at zero, so [errors += 1] gives one error.
    The [finally] block ensures the log bucket and flushes the log handler
    inside its own [try].  The result is the pair logged at the end. *)
Definition run : M (G * list event) Counters :=
  fun s =>
    let '(s1, r) := with_email_client fetch_and_process s in
    let counters :=
      match r with
      | inr k => k
      | inl _ => {| processed := 0; errors := 0 + 1 |}
      end in
    let '(s2, _) :=
      attempt (invoke (s3_ensure_bucket c _LOG_PROJECT_SLUG)
                      (Ev_ensure_bucket _LOG_PROJECT_SLUG) ;;
               quiet flush_to_s3) s1 in
    (s2, inr counters).

End Run.

(** ** Reading the trace of a run *)

(** The slugs [ensure_bucket] was called with, in order. *)
Fixpoint ensured (tr : list event) : list string :=
  match tr with
  | [] => []
  | Ev_ensure_bucket s _ :: rest => s :: ensured rest
  | _ :: rest => ensured rest
  end.

(** The slugs [read_extension_rules] was called with, in order. *)
Fixpoint rule_reads (tr : list event) : list string :=
  match tr with
  | [] => []
  | Ev_read_extension_rules s _ :: rest => s :: rule_reads rest
  | _ :: rest => rule_reads rest
  end.

(** The arguments [write_extension_rules] was called with, in order. *)
Fixpoint rule_writes (tr : list event) : list (string * string) :=
  match tr with
  | [] => []
  | Ev_write_extension_rules s content _ :: rest => (s, content) :: rule_writes rest
  | _ :: rest => rule_writes rest
  end.

(** The arguments [write_epic] was called with, in order. *)
Fixpoint epic_writes (tr : list event) : list (string * string) :=
  match tr with
  | [] => []
  | Ev_write_epic s epic _ :: rest => (s, epic) :: epic_writes rest
  | _ :: rest => epic_writes rest
  end.

(** Number of [write_epic] calls for the project [slug]. *)
Definition commits_to (slug : string) (tr : list event) : nat :=
  length (filter (fun w => String.eqb (fst w) slug) (epic_writes tr)).

(** The rules attached to the last email of [mails] that attached some,
    [pending] when none did. *)
Definition latest_rules (pending : option string) (mails : list AgentEmail) : option string :=
  fold_left
    (fun rules mail =>
       if truthy_opt (extension_rules mail) then extension_rules mail else rules)
    mails pending.

(** The emails that come before the first one with rules attached. *)
Fixpoint leading_without_rules (mails : list AgentEmail) : list AgentEmail :=
  match mails with
  | [] => []
  | mail :: rest =>
      if truthy_opt (extension_rules mail) then []
      else mail :: leading_without_rules rest
  end.

(** The computation extends the trace it is given and does not read it. *)
Definition framed {G A} (m : M (G * list event) A) : Prop :=
  forall g tr0,
    m (g, tr0) = (let '((g', tr), r) := m (g, []) in ((g', tr0 ++ tr), r)).

(** What the loop does with the extension rules, from loop state [st] to
    [st'] over [mails], its events being [new]: it keeps the rules of the
    last email that attached some, and asks S3 for the stored rules once for
    every email that comes before the first attachment, and never after. *)
Definition rules_post (mails : list AgentEmail) (st : LoopState) (new : list event)
    (st' : LoopState) : Prop :=
  accumulated_extension_rules st' = latest_rules (accumulated_extension_rules st) mails /\
  rule_reads new =
    (if truthy_opt (accumulated_extension_rules st) then []
     else map project_slug (leading_without_rules mails)).

(** The writes [commit_and_acknowledge] asks for. *)
Definition rules_to_write (slug : string) (st : LoopState) : list (string * string) :=
  match processed_uids st, accumulated_extension_rules st with
  | _ :: _, Some rules => if truthy rules then [(slug, rules)] else []
  | _, _ => []
  end.

(** What the steps after the loop write, from loop state [st], their events
    being [fin]: the kept rules when an email was processed and the rules
    are not empty, then at most the accumulated epic, both for [slug]. *)
Definition writes_post (slug : string) (st : LoopState) (fin : list event) : Prop :=
  rule_writes fin = rules_to_write slug st /\
  (epic_writes fin = [] \/
   exists epic, epic_writes fin = [(slug, epic)] /\
     accumulated_epic st = Some epic /\ truthy epic = true /\
     processed_uids st <> []).

(** What one run of [_process_project_emails] reads and writes, [tr] being
    its trace and [res] its result: the bucket of [slug] is the only one
    ensured; the epic written, if any, is the result of the last fold that
    returned; the rules written are those of the last email that attached
    some, provided a fold returned; the stored rules are looked up for the
    emails that come before the first attachment; and the count returned is
    the number of acknowledgments, at most the number of emails. *)
Definition partition_io (slug : string) (mails : list AgentEmail) (tr : list event)
    (res : exn + nat) : Prop :=
  ensured tr = [slug] /\
  (epic_writes tr = [] \/
   exists epic, epic_writes tr = [(slug, epic)] /\
     last_epic None tr = Some epic /\ truthy epic = true /\ folded tr <> []) /\
  rule_writes tr =
    match folded tr, latest_rules None mails with
    | _ :: _, Some rules => if truthy rules then [(slug, rules)] else []
    | _, _ => []
    end /\
  (rule_reads tr = [] \/
   rule_reads tr = map project_slug (leading_without_rules mails)) /\
  (forall baseline, In (Ev_read_latest_epic slug (inr baseline)) tr ->
     rule_reads tr = map project_slug (leading_without_rules mails)) /\
  (forall n, res = inr n -> (n <= length mails)%nat /\ n = length (acked tr)).

(** The emails of [emails] that belong to the project [slug], in order. *)
Definition of_project (slug : string) (emails : list AgentEmail) : list AgentEmail :=
  filter (fun mail => String.eqb (project_slug mail) slug) emails.

(** [slugs] without its repetitions, each slug where it first appears. *)
Definition first_seen (slugs : list string) : list string :=
  rev (nodup string_dec (rev slugs)).

(** One group per slug of [keys]: the emails of that project, in order. *)
Definition grouped (emails : list AgentEmail) (keys : list string)
  : list (string * list AgentEmail) :=
  map (fun slug => (slug, of_project slug emails)) keys.

(** What the loop over the projects guarantees, from counters [k] to [k']
    over [groups], its events being [tr]: every project is entered, in
    order, whatever happened to the ones before it; a project gets at most
    as many [write_epic] calls as it has groups; every email is counted
    once, as processed or as an error; and an email counted as processed was
    acknowledged. *)
Definition projects_post (groups : list (string * list AgentEmail)) (k : Counters)
    (tr : list event) (k' : Counters) : Prop :=
  ensured tr = map fst groups /\
  (forall slug, (commits_to slug tr <= count_occ string_dec (map fst groups) slug)%nat) /\
  processed k' + errors k'
    = processed k + errors k + Z.of_nat (length (concat (map snd groups))) /\
  processed k <= processed k' /\
  processed k' - processed k <= Z.of_nat (length (acked tr)) /\
  errors k <= errors k'.

(** ** Concrete runs of [run] *)

Module Cases.

(** An email of project [slug], with or without rules attached. *)
Definition mail_of (slug u : string) (rules : option string) : AgentEmail :=
  {| uid := u; project_name := slug; project_slug := slug;
     subject := "[JARVIS]-[" ++ slug ++ "]"; body := "requirements";
     title := None; idea := None; envs := None; directives := None;
     extension_rules := rules; sender := None |}.

Definition State : Type := (LLMClient.t * Net Scenario.World)%type.

(** A mailbox that connects and hands out [emails], or fails as told. *)
Definition mailbox (connect : exn + unit) (fetch : exn + list AgentEmail) : Mailbox State :=
  {| email_connect := fun g => (g, connect);
     email_fetch_unread_jarvis_emails := fun g => (g, fetch);
     email_disconnect := fun g => g |}.


Definition cfg : Settings := Scenario.settings "http://llm" "k" EmptyString 3 1.

(** ChatGPT answers every POST with the same epic. *)
Definition answering : Remote Scenario.World :=
  Scenario.remote (Scenario.always (Scenario.answer 200 "# Epic")) (inr None).

(** The bucket of [beta] cannot be ensured; everything else works. *)
Definition beta_is_down : Services Scenario.World :=
  {| s3_ensure_bucket :=
       fun slug w =>
         if String.eqb slug "beta" then (w, inl Scenario.client_error)
         else (w, inr ("jarvis-" ++ slug)%string);
     s3_read_latest_epic := fun _ w => (w, inr None);
     s3_read_extension_rules := fun _ w => (w, inr None);
     s3_write_extension_rules := fun _ _ w => (w, inr "epics/project-extension-rules.md");
     s3_write_epic := fun _ _ _ w => (w, Scenario.key);
     smtp_send_reply := fun _ _ _ _ _ w => (w, inr tt);
     email_mark_as_seen := fun _ w => (w, inr tt) |}.

Definition run_with (s : Services Scenario.World) (m : Mailbox State) :=
  run (run_services s) (run_generator answering cfg Scenario.prompts) m
    (fun g => (g, inr tt)) (Scenario.start cfg, []).

(** Four emails of three projects, interleaved. *)
Definition inbox : list AgentEmail :=
  [mail_of "alpha" "1" None; mail_of "beta" "2" None;
   mail_of "alpha" "3" None; mail_of "gamma" "4" None].

Definition interleaved_run := run_with beta_is_down (mailbox (inr tt) (inr inbox)).

(** One project; the second email attaches rules, and the endpoint answers
    the first email only. *)
Definition rules_mails : list AgentEmail :=
  [mail_of "alpha" "1" None; mail_of "alpha" "2" (Some "R2"); mail_of "alpha" "3" None].

Definition rules_run :=
  _process_project_emails
    (run_services (Scenario.services None Scenario.key (inr tt)))
    (run_generator
       (Scenario.remote
          (Scenario.scripted [Scenario.answer 200 "A1"] (Scenario.answer 401 "no")) (inr None))
       cfg Scenario.prompts)
    "alpha" rules_mails (Scenario.start cfg, []).

End Cases.

(** ** Reading the network trace of the facade *)

Definition is_post (ev : net_event) : bool :=
  match ev with
  | HttpPost _ _ => true
  | _ => false
  end.

(** Number of POSTs sent to the chat-completions endpoint. *)
Definition posts (log : list net_event) : nat := length (filter is_post log).

(** Concrete states of the facade. *)
Module Breakers.

(** The facade after three calls of [generate] in a row, the endpoint being
    down and Copilot answering: each call went to both backends. *)
Definition after_three_failures : LLMClient.t * Net Scenario.World :=
  let call x := fst (LLMClient.generate Scenario.copilot_only Scenario.both "s" "p" x) in
  call (call (call (Scenario.start Scenario.both))).

(** A ChatGPT breaker opened at time 0, seen 61 seconds later. *)
Definition opened : pybreaker.CircuitBreaker :=
  pybreaker.open
    (pybreaker.inc_counter (pybreaker.inc_counter (pybreaker.inc_counter
       (ChatGPTBackend._cb Scenario.both)))) 0.



End Breakers.

(** ** Text ([str] methods and the [re] classes the sources use)

    Which characters Python counts as word characters or as whitespace, and
    what [str.lower] does, are tables of the interpreter.  They are
    parameters here: nothing below depends on what they hold. *)
Record Unicode : Type := {
  str_lower : string -> string;   (* [str.lower()] *)
  is_word : ascii -> bool;        (* the class [\w] *)
  is_space : ascii -> bool        (* the class [\s]; also [str.split()], [str.strip()] *)
}.

Definition hyphen : ascii := "-"%char.
Definition underscore : ascii := "_"%char.

(** [s[:stop]] for a list. *)
Definition slice_to {A} (stop : Z) (l : list A) : list A :=
  if 0 <=? stop then firstn (Z.to_nat stop) l
  else firstn (length l - Z.to_nat (- stop)) l.

(** The characters of [s] that [keep] accepts: [re.sub] of the complement
    class by the empty string. *)
Fixpoint str_filter (keep : ascii -> bool) (s : string) : string :=
  match s with
  | EmptyString => EmptyString
  | String ch rest =>
      if keep ch then String ch (str_filter keep rest) else str_filter keep rest
  end.

Section Text.
Variable u : Unicode.

(** [str.split()]: the maximal runs of characters that are not whitespace;
    [word] is the run being read. *)
Fixpoint split_from (s word : string) : list string :=
  match s with
  | EmptyString => if truthy word then [word] else []
  | String ch rest =>
      if is_space u ch
      then (if truthy word then word :: split_from rest EmptyString
            else split_from rest EmptyString)
      else split_from rest (word ++ String ch EmptyString)%string
  end.

Definition str_split (s : string) : list string := split_from s EmptyString.

(** [_short_description(text, max_words)]. *)
Definition _short_description (text : string) (max_words : Z) : string :=
  let words :=
    slice_to max_words
      (str_split (str_filter (fun ch => is_word u ch || is_space u ch) (str_lower u text))) in
  match words with
  | [] => "epic"
  | _ :: _ => String.concat "-" words
  end.

(** [str.lstrip()] and [str.strip()]. *)
Fixpoint str_lstrip (s : string) : string :=
  match s with
  | EmptyString => EmptyString
  | String ch rest => if is_space u ch then str_lstrip rest else s
  end.

Fixpoint str_rstrip (s : string) : string :=
  match s with
  | EmptyString => EmptyString
  | String ch rest =>
      match str_rstrip rest with
      | EmptyString => if is_space u ch then EmptyString else String ch EmptyString
      | kept => String ch kept
      end
  end.

Definition str_strip (s : string) : string := str_rstrip (str_lstrip s).

(** [re.sub(r"[\s_]+", "-", s)]: every maximal run of whitespace and
    underscores becomes one hyphen; [in_run] tells that the run has been
    replaced already. *)
Fixpoint hyphenate (s : string) (in_run : bool) : string :=
  match s with
  | EmptyString => EmptyString
  | String ch rest =>
      if is_space u ch || Ascii.eqb ch underscore
      then (if in_run then hyphenate rest true else String hyphen (hyphenate rest true))
      else String ch (hyphenate rest false)
  end.

(** [_slugify(name)] of [email_client.py]. *)
Definition _slugify (name : string) : string :=
  let slug := str_lower u (str_strip name) in
  let slug :=
    str_filter (fun ch => is_word u ch || is_space u ch || Ascii.eqb ch hyphen) slug in
  hyphenate slug false.

End Text.

(** ** s3_client.py *)

(** What a boto3 call raises: a botocore [ClientError], with the code of its
    response and its text, or any other exception. *)
Inductive boto_error : Type :=
  | ClientError (code message : string)
  | BotoError (e : exn).

(** The exception as a caller of [S3Client] sees it. *)
Definition exn_of_boto (err : boto_error) : exn :=
  match err with
  | ClientError _ message => Exn OtherException message
  | BotoError e => e
  end.

(** The notification [_register_notification] asks for: one queue
    configuration for the puts under a prefix. *)
Record NotificationConfiguration : Type := {
  notification_id : string;
  queue_arn : string;
  notification_events : list string;
  prefix_filter : string
}.

(** The boto3 client and the calendar, over a world [W].  [list_objects_v2]
    answers with the keys of [Contents] (none when the field is absent);
    [get_object] with the bytes of the body. *)
Record Boto3 (W : Type) : Type := {
  boto_head_bucket : string -> W -> W * (boto_error + unit);
  boto_create_bucket : string -> W -> W * (boto_error + unit);
  boto_put_bucket_notification_configuration :
    string -> NotificationConfiguration -> W -> W * (boto_error + unit);
  boto_put_object : string -> string -> string -> W -> W * (boto_error + unit);
  boto_get_object : string -> string -> W -> W * (boto_error + string);
  boto_list_objects_v2 : string -> string -> string -> W -> W * (boto_error + list string);
  date_today : W -> string;        (* [date.today().isoformat()] *)
  utc_timestamp : W -> string      (* [datetime.now(tz=utc).strftime(...)] *)
}.
Arguments boto_head_bucket {W}.
Arguments boto_create_bucket {W}.
Arguments boto_put_bucket_notification_configuration {W}.
Arguments boto_put_object {W}.
Arguments boto_get_object {W}.
Arguments boto_list_objects_v2 {W}.
Arguments date_today {W}.
Arguments utc_timestamp {W}.

(** The settings [S3Client] reads.  [bucket_template_format] is
    [S3_BUCKET_TEMPLATE.format(project_slug=...)], which raises on a
    template that names another field; [decode_utf8] is
    [bytes.decode("utf-8")], which raises on bytes that are not UTF-8.  A
    [str] and its UTF-8 encoding are the same string here. *)
Record StorageSettings : Type := {
  bucket_template_format : string -> exn + string;
  decode_utf8 : string -> exn + string;
  S3_NOTIFICATION_WEBHOOK_URL : string;
  S3_NOTIFICATION_QUEUE_ARN : string;
  S3_LOG_PREFIX : string;
  unicode : Unicode
}.

(** Ghost trace of the storage layer: every boto3 call made; a put is
    recorded with whether it returned. *)
Inductive s3_call : Type :=
  | HeadBucket (bucket : string)
  | CreateBucket (bucket : string)
  | PutBucketNotification (bucket : string) (config : NotificationConfiguration)
  | PutObject (bucket key body : string) (returned : bool)
  | GetObject (bucket key : string)
  | ListObjects (bucket prefix delimiter : string).

Definition Store (W : Type) : Type := (W * list s3_call)%type.

(** One boto3 call, recorded. *)
Definition boto_call {W A} (call : exn + A -> s3_call) (f : W -> W * (boto_error + A))
  : Store W -> Store W * (boto_error + A) :=
  fun s =>
    let '(w', r) := f (fst s) in
    ((w', snd s ++ [call match r with
                         | inl err => inl (exn_of_boto err)
                         | inr a => inr a
                         end]), r).

(** A boto3 call outside any [try]: whatever it raises goes on. *)
Definition propagate {W A} (c : Store W -> Store W * (boto_error + A)) : M (Store W) A :=
  fun s =>
    match c s with
    | (s', inr a) => (s', inr a)
    | (s', inl err) => (s', inl (exn_of_boto err))
    end.

(** The boto3 call returned. *)
Definition succeeded {A} (r : boto_error + A) : bool :=
  match r with
  | inr _ => true
  | inl _ => false
  end.

(** [code in (a, b)]. *)
Definition code_in (code : string) (codes : list string) : bool :=
  existsb (String.eqb code) codes.

(** [max(keys)]: strings compare by code point. *)
Definition max_key (first : string) (others : list string) : string :=
  fold_left (fun best key => if String.ltb best key then key else best) others first.

Definition extension_rules_key : string := "epics/project-extension-rules.md".

Module S3Client.
Section WithBoto.
Context {W : Type} (boto : Boto3 W).
Variable _settings : StorageSettings.

(** [bucket_name]. *)
Definition bucket_name (project_slug : string) : M (Store W) string :=
  fun s => (s, bucket_template_format _settings project_slug).

(** The [notification_config] of [_register_notification]. *)
Definition notification_config (bucket : string) : NotificationConfiguration :=
  {| notification_id := (bucket ++ "-epics-put")%string;
     queue_arn := S3_NOTIFICATION_QUEUE_ARN _settings;
     notification_events := ["s3:ObjectCreated:Put"];
     prefix_filter := "epics/" |}.

(** [_register_notification]: nothing without a webhook URL; a
    [ClientError] is logged and swallowed. *)
Definition _register_notification (bucket : string) : M (Store W) unit :=
  if negb (truthy (S3_NOTIFICATION_WEBHOOK_URL _settings)) then ret tt
  else
    fun s =>
      match boto_call (fun _ => PutBucketNotification bucket (notification_config bucket))
              (boto_put_bucket_notification_configuration boto bucket
                 (notification_config bucket))
              s with
      | (s', inr _) => (s', inr tt)
      | (s', inl (ClientError _ _)) => (s', inr tt)
      | (s', inl (BotoError e)) => (s', inl e)
      end.

(** [ensure_bucket]: the bucket is created, and the notification
    registered, when [head_bucket] says it is not there; any other error of
    [head_bucket] goes on. *)
Definition ensure_bucket (project_slug : string) : M (Store W) string :=
  name <- bucket_name project_slug ;;
  fun s =>
    match boto_call (fun _ => HeadBucket name) (boto_head_bucket boto name) s with
    | (s', inr _) => (s', inr name)
    | (s', inl (ClientError code message)) =>
        if code_in code ["404"; "NoSuchBucket"] then
          (propagate (boto_call (fun _ => CreateBucket name)
                        (boto_create_bucket boto name)) ;;
           _register_notification name ;;
           ret name) s'
        else (s', inl (exn_of_boto (ClientError code message)))
    | (s', inl (BotoError e)) => (s', inl e)
    end.

(** [put_object]. *)
Definition put_object (bucket key body : string) : M (Store W) unit :=
  propagate (boto_call (fun r => PutObject bucket key body (is_ok r))
               (boto_put_object boto bucket key body)).

(** [get_object]: [None] when the object is not there. *)
Definition get_object (bucket key : string) : M (Store W) (option string) :=
  fun s =>
    match boto_call (fun _ => GetObject bucket key) (boto_get_object boto bucket key) s with
    | (s', inr data) => (s', inr (Some data))
    | (s', inl (ClientError code message)) =>
        if code_in code ["404"; "NoSuchKey"] then (s', inr None)
        else (s', inl (exn_of_boto (ClientError code message)))
    | (s', inl (BotoError e)) => (s', inl e)
    end.

(** [epic_key]. *)
Definition epic_key (short_description : string) : M (Store W) string :=
  fun s =>
    let today := date_today boto (fst s) in
    let slug := _short_description (unicode _settings) short_description 4 in
    (s, inr ("epics/" ++ slug ++ "_" ++ today ++ ".md")%string).

(** [data.decode("utf-8") if data else None]. *)
Definition decode_if_any (data : option string) : M (Store W) (option string) :=
  match data with
  | Some bytes =>
      if truthy bytes
      then fun s => (s, match decode_utf8 _settings bytes with
                        | inl e => inl e
                        | inr text => inr (Some text)
                        end)
      else ret None
  | None => ret None
  end.

(** [read_latest_epic]: the object under the greatest key listed. *)
Definition read_latest_epic (project_slug : string) : M (Store W) (option string) :=
  bucket <- bucket_name project_slug ;;
  fun s =>
    match boto_call (fun _ => ListObjects bucket "epics/" "/")
            (boto_list_objects_v2 boto bucket "epics/" "/") s with
    | (s', inl (ClientError _ _)) => (s', inr None)
    | (s', inl (BotoError e)) => (s', inl e)
    | (s', inr []) => (s', inr None)
    | (s', inr (first :: others)) =>
        (data <- get_object bucket (max_key first others) ;; decode_if_any data) s'
    end.

(** [write_epic]. *)
Definition write_epic (project_slug epic_markdown short_description : string)
  : M (Store W) string :=
  bucket <- ensure_bucket project_slug ;;
  key <- epic_key short_description ;;
  put_object bucket key epic_markdown ;;
  ret key.

(** [write_extension_rules]. *)
Definition write_extension_rules (project_slug content : string) : M (Store W) string :=
  bucket <- ensure_bucket project_slug ;;
  put_object bucket extension_rules_key content ;;
  ret extension_rules_key.

(** [read_extension_rules]. *)
Definition read_extension_rules (project_slug : string) : M (Store W) (option string) :=
  bucket <- bucket_name project_slug ;;
  data <- get_object bucket extension_rules_key ;;
  decode_if_any data.

(** [write_log]. *)
Definition write_log (project_slug content : string) : M (Store W) string :=
  bucket <- ensure_bucket project_slug ;;
  fun s =>
    let ts := utc_timestamp boto (fst s) in
    let day := date_today boto (fst s) in
    let key := (S3_LOG_PREFIX _settings ++ "/" ++ day ++ "/" ++ ts ++ ".log")%string in
    (put_object bucket key content ;; ret key) s.

End WithBoto.
End S3Client.

(** ** Reading a storage trace *)

(** The puts, as (bucket, key) pairs, in order. *)
Fixpoint puts (log : list s3_call) : list (string * string) :=
  match log with
  | [] => []
  | PutObject bucket key _ _ :: rest => (bucket, key) :: puts rest
  | _ :: rest => puts rest
  end.

(** The gets, as (bucket, key) pairs, in order. *)
Fixpoint gets (log : list s3_call) : list (string * string) :=
  match log with
  | [] => []
  | GetObject bucket key :: rest => (bucket, key) :: gets rest
  | _ :: rest => gets rest
  end.

(** The buckets created, in order. *)
Fixpoint created (log : list s3_call) : list string :=
  match log with
  | [] => []
  | CreateBucket bucket :: rest => bucket :: created rest
  | _ :: rest => created rest
  end.

(** The buckets a notification was registered on, in order. *)
Fixpoint notified (log : list s3_call) : list string :=
  match log with
  | [] => []
  | PutBucketNotification bucket _ :: rest => bucket :: notified rest
  | _ :: rest => notified rest
  end.

(** [ch] occurs in [s]. *)
Definition occurs (ch : ascii) (s : string) : Prop := In ch (list_ascii_of_string s).

(** ** A storage server in memory

    Buckets and objects as lists; the errors are those MinIO answers with.
    Used for concrete runs only. *)
Module Minio.

Record World : Type := {
  buckets : list string;
  objects : list (string * string * string)   (* bucket, key, body *)
}.

Definition empty : World := {| buckets := []; objects := [] |}.

Definition has_bucket (w : World) (bucket : string) : bool :=
  existsb (String.eqb bucket) (buckets w).

Definition is_object (bucket key : string) (o : string * string * string) : bool :=
  String.eqb (fst (fst o)) bucket && String.eqb (snd (fst o)) key.

Definition no_such_bucket : boto_error := ClientError "NoSuchBucket" "NoSuchBucket".

Definition boto : Boto3 World :=
  {| boto_head_bucket :=
       fun bucket w =>
         (w, if has_bucket w bucket then inr tt else inl (ClientError "404" "Not Found"));
     boto_create_bucket :=
       fun bucket w => ({| buckets := buckets w ++ [bucket]; objects := objects w |}, inr tt);
     boto_put_bucket_notification_configuration := fun _ _ w => (w, inr tt);
     boto_put_object :=
       fun bucket key body w =>
         if has_bucket w bucket
         then ({| buckets := buckets w;
                  objects := filter (fun o => negb (is_object bucket key o)) (objects w)
                             ++ [(bucket, key, body)] |}, inr tt)
         else (w, inl no_such_bucket);
     boto_get_object :=
       fun bucket key w =>
         (w, match find (is_object bucket key) (objects w) with
             | Some o => inr (snd o)
             | None => inl (ClientError "NoSuchKey" "NoSuchKey")
             end);
     boto_list_objects_v2 :=
       fun bucket prefix _ w =>
         (w, if has_bucket w bucket
             then inr (map (fun o => snd (fst o))
                         (filter (fun o => String.eqb (fst (fst o)) bucket
                                           && String.prefix prefix (snd (fst o)))
                            (objects w)))
             else inl no_such_bucket);
     date_today := fun _ => "2026-01-01";
     utc_timestamp := fun _ => "2026-01-01T00-00-00Z" |}.

(** The tables of Python, restricted to ASCII. *)
Definition between (lo hi : nat) (ch : ascii) : bool :=
  (lo <=? nat_of_ascii ch)%nat && (nat_of_ascii ch <=? hi)%nat.

Definition lower_char (ch : ascii) : ascii :=
  if between 65 90 ch then ascii_of_nat (nat_of_ascii ch + 32) else ch.

Fixpoint lower (s : string) : string :=
  match s with
  | EmptyString => EmptyString
  | String ch rest => String (lower_char ch) (lower rest)
  end.

Definition ascii_tables : Unicode :=
  {| str_lower := lower;
     is_word := fun ch => between 48 57 ch || between 65 90 ch || between 97 122 ch
                          || Ascii.eqb ch underscore;
     is_space := fun ch => between 9 13 ch || between 28 32 ch |}.

Definition settings (webhook : string) : StorageSettings :=
  {| bucket_template_format := fun slug => inr ("jarvis-" ++ slug)%string;
     decode_utf8 := fun bytes => inr bytes;
     S3_NOTIFICATION_WEBHOOK_URL := webhook;
     S3_NOTIFICATION_QUEUE_ARN := "arn:minio:sqs::WEBHOOK:webhook";
     S3_LOG_PREFIX := "logs";
     unicode := ascii_tables |}.

Definition with_webhook : StorageSettings :=
  settings "http://agent-scrum-master:8080/webhooks/minio".

Definition start : Store World := (empty, []).

(** A bucket that holds one epic of an earlier day and the rules file. *)
Definition alpha_bucket : Store World :=
  ({| buckets := ["jarvis-alpha"];
      objects := [("jarvis-alpha", "epics/alpha_2025-12-31.md", "# Epic");
                  ("jarvis-alpha", extension_rules_key, "rules")] |}, []).

End Minio.

(** ** logger.py *)

Module S3LogHandler.

(** The handler: the bucket and the prefix it was built with, and the lines
    it holds. *)
Record t : Type := {
  _bucket : string;
  _prefix : string;
  _buffer : list string
}.

(** [__init__]. *)
Definition init (bucket prefix : string) : t :=
  {| _bucket := bucket; _prefix := prefix; _buffer := [] |}.

(** [emit]: [formatted] is what [self.format(record)] gives.  When it
    raises, [handleError] reports the record and the buffer stays as it
    is. *)
Definition emit (formatted : exn + string) (h : t) : t :=
  match formatted with
  | inr line =>
      {| _bucket := _bucket h; _prefix := _prefix h; _buffer := _buffer h ++ [line] |}
  | inl _ => h
  end.

Section WithBoto.
Context {W : Type} (boto : Boto3 W).

(** [flush_to_s3]: nothing on an empty buffer; else one put of the lines
    joined by newlines, and the buffer is cleared once the put has
    returned.  An exception of the put leaves the function before
    [self._buffer.clear()]. *)
Definition flush_to_s3 (key_suffix : string) : M (t * Store W) unit :=
  fun x =>
    let h := fst x in
    match _buffer h with
    | [] => (x, inr tt)
    | _ :: _ =>
        let day := date_today boto (fst (snd x)) in
        let key := (_prefix h ++ "/" ++ day ++ "/" ++ key_suffix ++ ".log")%string in
        let content := String.concat nl (_buffer h) in
        match S3Client.put_object boto (_bucket h) key content (snd x) with
        | (s', inr _) =>
            (({| _bucket := _bucket h; _prefix := _prefix h; _buffer := [] |}, s'), inr tt)
        | (s', inl e) => ((h, s'), inl e)
        end
    end.

End WithBoto.
End S3LogHandler.

(** What happens to a handler over time: a record is emitted, or the
    handler is flushed (the caller catching what the flush raises, as [run]
    does). *)
Inductive handler_call : Type :=
  | Emit (formatted : exn + string)
  | Flush (key_suffix : string).

Fixpoint handle {W} (boto : Boto3 W) (calls : list handler_call)
    (x : S3LogHandler.t * Store W) : S3LogHandler.t * Store W :=
  match calls with
  | [] => x
  | Emit formatted :: rest => handle boto rest (S3LogHandler.emit formatted (fst x), snd x)
  | Flush key_suffix :: rest =>
      handle boto rest (fst (S3LogHandler.flush_to_s3 boto key_suffix x))
  end.

(** The lines the calls gave to the handler, in order. *)
Fixpoint emitted (calls : list handler_call) : list string :=
  match calls with
  | [] => []
  | Emit (inr line) :: rest => line :: emitted rest
  | _ :: rest => emitted rest
  end.

(** The bodies of the puts that returned, in order. *)
Fixpoint stored_bodies (log : list s3_call) : list string :=
  match log with
  | [] => []
  | PutObject _ _ body true :: rest => body :: stored_bodies rest
  | _ :: rest => stored_bodies rest
  end.

(** The puts with their bodies, as (bucket, key, body), in order. *)
Fixpoint put_objects (log : list s3_call) : list (string * string * string) :=
  match log with
  | [] => []
  | PutObject bucket key body _ :: rest => (bucket, key, body) :: put_objects rest
  | _ :: rest => put_objects rest
  end.

(** ** The clients of [run] over one world

    [run] hands [_process_project_emails] the [S3Client] it built, with the
    SMTP client, the IMAP client and the generator.  The storage trace is
    written by the S3 client only; the others act on the world. *)

Definition off_the_record {W A} (f : M W A) : M (Store W) A :=
  fun s => let '(w', r) := f (fst s) in ((w', snd s), r).

Definition storage_services {W} (boto : Boto3 W) (settings : StorageSettings)
    (send_reply : string -> string -> string -> string -> string -> M W unit)
    (mark_as_seen : string -> M W unit) : Services (Store W) :=
  {| s3_ensure_bucket := S3Client.ensure_bucket boto settings;
     s3_read_latest_epic := S3Client.read_latest_epic boto settings;
     s3_read_extension_rules := S3Client.read_extension_rules boto settings;
     s3_write_extension_rules := S3Client.write_extension_rules boto settings;
     s3_write_epic := S3Client.write_epic boto settings;
     smtp_send_reply :=
       fun recipient subj text_body filename attachment =>
         off_the_record (send_reply recipient subj text_body filename attachment);
     email_mark_as_seen := fun u => off_the_record (mark_as_seen u) |}.

(** ** Relating a trace to the states it went through *)

(** [m] extends the trace by events that [R] relates to the state before
    and the state after. *)
Definition stepwise {G A} (R : G -> list event -> G -> Prop) (m : M (G * list event) A)
  : Prop :=
  forall g tr0, exists new,
    snd (fst (m (g, tr0))) = tr0 ++ new /\ R g new (fst (fst (m (g, tr0)))).

(** The call [f], recorded by [ev], is a step of [R]. *)
Definition call_step {G A} (R : G -> list event -> G -> Prop) (f : M G A)
    (ev : exn + A -> event) : Prop :=
  forall g, R g [ev (snd (f g))] (fst (f g)).

(** [R] holds of no event and of one run after another. *)
Record composable {G} (R : G -> list event -> G -> Prop) : Prop := {
  step_nil : forall g, R g [] g;
  step_app : forall g a g1 b g2, R g a g1 -> R g1 b g2 -> R g (a ++ b) g2
}.

(** Every call of the clients, and of the generator, is a step of [R]. *)
Record service_steps {G} (R : G -> list event -> G -> Prop) (c : Services G)
    (generator_generate : GenArgs -> M G string) : Prop := {
  step_ensure_bucket :
    forall slug, call_step R (s3_ensure_bucket c slug) (Ev_ensure_bucket slug);
  step_read_latest_epic :
    forall slug, call_step R (s3_read_latest_epic c slug) (Ev_read_latest_epic slug);
  step_read_extension_rules :
    forall slug,
      call_step R (s3_read_extension_rules c slug) (Ev_read_extension_rules slug);
  step_write_extension_rules :
    forall slug rules,
      call_step R (s3_write_extension_rules c slug rules)
        (Ev_write_extension_rules slug rules);
  step_write_epic :
    forall slug epic name,
      call_step R (s3_write_epic c slug epic name) (Ev_write_epic slug epic);
  step_send_reply :
    forall mail_uid recipient subj text_body filename attachment,
      call_step R (smtp_send_reply c recipient subj text_body filename attachment)
        (Ev_send_reply mail_uid);
  step_mark_as_seen :
    forall u, call_step R (email_mark_as_seen c u) (Ev_mark_as_seen u);
  step_generate :
    forall args mail_uid existing,
      call_step R (generator_generate args) (Ev_generate mail_uid existing);
  step_processing_email : forall mail_uid g, R g [Ev_processing_email mail_uid] g
}.

(** The objects a storage call may have put, given the event that records
    the call: the rules, under the key of the rules file; the epic, under a
    dated key; nothing for any other call.  Either write puts nothing when
    the bucket could not be ensured. *)
Definition accounts_for (settings : StorageSettings) (ev : event) (calls : list s3_call)
  : Prop :=
  match ev with
  | Ev_write_extension_rules slug content _ =>
      put_objects calls = [] \/
      exists name,
        bucket_template_format settings slug = inr name /\
        put_objects calls = [(name, extension_rules_key, content)]
  | Ev_write_epic slug epic _ =>
      put_objects calls = [] \/
      exists name description today,
        bucket_template_format settings slug = inr name /\
        put_objects calls
        = [(name, ("epics/" ++ description ++ "_" ++ today ++ ".md")%string, epic)]
  | _ => put_objects calls = []
  end.

(** The storage trace grew by one segment per event, each accounted for by
    its event. *)
Definition storage_step {W} (settings : StorageSettings)
  : Store W -> list event -> Store W -> Prop :=
  fun s new s' =>
    exists segments,
      snd s' = snd s ++ concat segments /\ Forall2 (accounts_for settings) new segments.

(** The object is the rules file. *)
Definition is_rules_file (o : string * string * string) : bool :=
  String.eqb (snd (fst o)) extension_rules_key.

(** ** email_client.py: the client *)

(** The settings [EmailClient] reads. *)
Record MailSettings : Type := {
  IMAP_HOST : string;
  IMAP_PORT : Z;
  IMAP_USE_SSL : bool;
  IMAP_USERNAME : string;
  IMAP_PASSWORD : string;
  IMAP_MAILBOX : string;
  EMAIL_SUBJECT_PREFIX : string
}.

(** [imaplib] over a world [W]; [H] is an [IMAP4] object.  [IMAP4_SSL]
    stands for [ssl.create_default_context()] followed by the constructor.
    [imap_search] answers with the uids of [data[0].split() if data[0] else
    []]; [imap_fetch] with the raw message [fetch_data[0][1]], [None] when
    [not fetch_data or fetch_data[0] is None].  A uid and its encoding are
    the same string. *)
Record Imaplib (W H : Type) : Type := {
  IMAP4_SSL : string -> Z -> W -> W * (exn + H);
  IMAP4 : string -> Z -> W -> W * (exn + H);
  imap_login : H -> string -> string -> W -> W * (exn + unit);
  imap_select : H -> string -> W -> W * (exn + unit);
  imap_close : H -> W -> W * (exn + unit);
  imap_logout : H -> W -> W * (exn + unit);
  imap_search : H -> string -> W -> W * (exn + list string);
  imap_fetch : H -> string -> string -> W -> W * (exn + option string);
  imap_store : H -> string -> string -> string -> W -> W * (exn + unit)
}.
Arguments IMAP4_SSL {W H}.
Arguments IMAP4 {W H}.
Arguments imap_login {W H}.
Arguments imap_select {W H}.
Arguments imap_close {W H}.
Arguments imap_logout {W H}.
Arguments imap_search {W H}.
Arguments imap_fetch {W H}.
Arguments imap_store {W H}.

(** Ghost trace of the IMAP layer: every [imaplib] call made, with whether
    it returned where that matters. *)
Inductive imap_call : Type :=
  | Imap_new (use_ssl : bool) (host : string) (port : Z) (returned : bool)
  | Imap_login (username password : string) (returned : bool)
  | Imap_select (mailbox : string) (returned : bool)
  | Imap_close (returned : bool)
  | Imap_logout (returned : bool)
  | Imap_search (criteria : string)
  | Imap_fetch (message_uid message_parts : string)
  | Imap_store (message_uid command flags : string) (returned : bool).

(** The world, the [_connection] attribute of the client, and the calls
    made so far. *)
Record Session (W H : Type) : Type := {
  world : W;
  _connection : option H;
  commands : list imap_call
}.
Arguments world {W H}.
Arguments _connection {W H}.
Arguments commands {W H}.

(** One [imaplib] call, recorded. *)
Definition imap_do {W H A} (call : exn + A -> imap_call) (f : W -> W * (exn + A))
  : M (Session W H) A :=
  fun x =>
    let '(w', r) := f (world x) in
    ({| world := w'; _connection := _connection x; commands := commands x ++ [call r] |}, r).

(** [self._connection = h]. *)
Definition set_connection {W H} (h : option H) : M (Session W H) unit :=
  fun x => ({| world := world x; _connection := h; commands := commands x |}, inr tt).

(** A call of another client: it acts on the world and leaves the IMAP
    client alone. *)
Definition beside_mail {W H A} (f : M W A) : M (Session W H) A :=
  fun x =>
    let '(w', r) := f (world x) in
    ({| world := w'; _connection := _connection x; commands := commands x |}, r).

Definition dquote : string := String (ascii_of_nat 34) EmptyString.

Definition seen_flag : string := String (ascii_of_nat 92) "Seen".

Module EmailClient.

Definition not_connected : exn := Exn RuntimeError "Not connected. Call connect() first.".

Section WithImap.
Context {W H : Type} (imap : Imaplib W H).
Variable _settings : MailSettings.
(** [_parse_message(uid, raw)]: an email, [None] for a message that is
    skipped, or what the parsers raise. *)
Variable _parse_message : string -> string -> exn + option AgentEmail.

(** [connect]: the attribute is set as soon as the constructor has
    returned, before the login. *)
Definition connect : M (Session W H) unit :=
  h <- imap_do (fun r => Imap_new (IMAP_USE_SSL _settings) (IMAP_HOST _settings)
                           (IMAP_PORT _settings) (is_ok r))
         (if IMAP_USE_SSL _settings
          then IMAP4_SSL imap (IMAP_HOST _settings) (IMAP_PORT _settings)
          else IMAP4 imap (IMAP_HOST _settings) (IMAP_PORT _settings)) ;;
  set_connection (Some h) ;;
  imap_do (fun r => Imap_login (IMAP_USERNAME _settings) (IMAP_PASSWORD _settings) (is_ok r))
    (imap_login imap h (IMAP_USERNAME _settings) (IMAP_PASSWORD _settings)) ;;
  imap_do (fun r => Imap_select (IMAP_MAILBOX _settings) (is_ok r))
    (imap_select imap h (IMAP_MAILBOX _settings)).

(** [disconnect]: whatever [close] or [logout] raises is swallowed, and the
    attribute is reset in the [finally]. *)
Definition disconnect : M (Session W H) unit :=
  fun x =>
    match _connection x with
    | None => (x, inr tt)
    | Some h =>
        let '(x', _) :=
          attempt (imap_do (fun r => Imap_close (is_ok r)) (imap_close imap h) ;;
                   imap_do (fun r => Imap_logout (is_ok r)) (imap_logout imap h)) x in
        set_connection None x'
    end.

(** [(UNSEEN SUBJECT "<prefix>")]. *)
Definition search_criteria : string :=
  ("(UNSEEN SUBJECT " ++ dquote ++ EMAIL_SUBJECT_PREFIX _settings ++ dquote ++ ")")%string.

(** [for uid_bytes in uid_list:] of [fetch_unread_jarvis_emails]. *)
Fixpoint fetch_each (h : H) (uid_list : list string) (results : list AgentEmail)
  : M (Session W H) (list AgentEmail) :=
  match uid_list with
  | [] => ret results
  | message_uid :: rest =>
      fetch_data <- imap_do (fun _ => Imap_fetch message_uid "(RFC822)")
                      (imap_fetch imap h message_uid "(RFC822)") ;;
      match fetch_data with
      | None => fetch_each h rest results
      | Some raw =>
          match _parse_message message_uid raw with
          | inl e => raise e
          | inr None => fetch_each h rest results
          | inr (Some parsed) => fetch_each h rest (results ++ [parsed])
          end
      end
  end.

(** [fetch_unread_jarvis_emails]. *)
Definition fetch_unread_jarvis_emails : M (Session W H) (list AgentEmail) :=
  fun x =>
    match _connection x with
    | None => raise not_connected x
    | Some h =>
        (uid_list <- imap_do (fun _ => Imap_search search_criteria)
                       (imap_search imap h search_criteria) ;;
         fetch_each h uid_list []) x
    end.

(** [mark_as_seen]. *)
Definition mark_as_seen (message_uid : string) : M (Session W H) unit :=
  fun x =>
    match _connection x with
    | None => raise not_connected x
    | Some h =>
        imap_do (fun r => Imap_store message_uid "+FLAGS" seen_flag (is_ok r))
          (imap_store imap h message_uid "+FLAGS" seen_flag) x
    end.

(** The client as [run] uses it: [__enter__] is [connect], [__exit__] is
    [disconnect]. *)
Definition mailbox : Mailbox (Session W H) :=
  {| email_connect := connect;
     email_fetch_unread_jarvis_emails := fetch_unread_jarvis_emails;
     email_disconnect := fun x => fst (disconnect x) |}.

(** The clients [run] hands to [_process_project_emails]: the S3 and SMTP
    clients of [c], which act on the world, and this client. *)
Definition services (c : Services W) : Services (Session W H) :=
  {| s3_ensure_bucket := fun slug => beside_mail (s3_ensure_bucket c slug);
     s3_read_latest_epic := fun slug => beside_mail (s3_read_latest_epic c slug);
     s3_read_extension_rules := fun slug => beside_mail (s3_read_extension_rules c slug);
     s3_write_extension_rules :=
       fun slug rules => beside_mail (s3_write_extension_rules c slug rules);
     s3_write_epic := fun slug epic name => beside_mail (s3_write_epic c slug epic name);
     smtp_send_reply :=
       fun recipient subj text_body filename attachment =>
         beside_mail (smtp_send_reply c recipient subj text_body filename attachment);
     email_mark_as_seen := mark_as_seen |}.

End WithImap.
End EmailClient.

(** ** Reading an IMAP trace *)

(** The [STORE] calls that the [mark_as_seen] calls of a trace stand for. *)
Fixpoint stores_of (tr : list event) : list imap_call :=
  match tr with
  | [] => []
  | Ev_mark_as_seen u r :: rest => Imap_store u "+FLAGS" seen_flag (is_ok r) :: stores_of rest
  | _ :: rest => stores_of rest
  end.

Definition is_fetch (call : imap_call) : bool :=
  match call with
  | Imap_fetch _ _ => true
  | _ => false
  end.

(** The calls that end a session: [close], and [logout] when [close] has
    returned. *)
Definition closing (calls : list imap_call) : Prop :=
  calls = [Imap_close false] \/ exists returned, calls = [Imap_close true; Imap_logout returned].

(** While the client is connected, the IMAP calls made are the [STORE]
    calls of the acknowledgments, and the connection stays. *)
Definition session_step {W H} : Session W H -> list event -> Session W H -> Prop :=
  fun x new x' =>
    forall h, _connection x = Some h ->
      _connection x' = Some h /\ commands x' = commands x ++ stores_of new.

(** ** A mail server in memory

    The messages not yet seen, as (uid, raw message), and whether the server
    accepts the login.  Used for concrete runs only. *)
Module Mailhost.

Record World : Type := {
  unseen : list (string * string);
  accepts_login : bool
}.

Definition login_failed : exn := Exn OtherException "[AUTHENTICATIONFAILED]".

Definition imap : Imaplib World unit :=
  {| IMAP4_SSL := fun _ _ w => (w, inr tt);
     IMAP4 := fun _ _ w => (w, inr tt);
     imap_login := fun _ _ _ w => (w, if accepts_login w then inr tt else inl login_failed);
     imap_select := fun _ _ w => (w, inr tt);
     imap_close := fun _ w => (w, inr tt);
     imap_logout := fun _ w => (w, inr tt);
     imap_search := fun _ _ w => (w, inr (map fst (unseen w)));
     imap_fetch :=
       fun _ u _ w =>
         (w, inr (option_map snd (find (fun m => String.eqb (fst m) u) (unseen w))));
     imap_store :=
       fun _ u _ _ w =>
         ({| unseen := filter (fun m => negb (String.eqb (fst m) u)) (unseen w);
             accepts_login := accepts_login w |}, inr tt) |}.

Definition settings : MailSettings :=
  {| IMAP_HOST := "imap"; IMAP_PORT := 993; IMAP_USE_SSL := true;
     IMAP_USERNAME := "agent"; IMAP_PASSWORD := "secret"; IMAP_MAILBOX := "INBOX";
     EMAIL_SUBJECT_PREFIX := "[JARVIS]-" |}.

(** A raw message is the name of its project here. *)
Definition parse (message_uid raw : string) : exn + option AgentEmail :=
  inr (if truthy raw then Some (Cases.mail_of raw message_uid None) else None).

(** Clients that store nothing and always answer. *)
Definition answering : Services World :=
  {| s3_ensure_bucket := fun slug => ret slug;
     s3_read_latest_epic := fun _ => ret None;
     s3_read_extension_rules := fun _ => ret None;
     s3_write_extension_rules := fun _ _ => ret extension_rules_key;
     s3_write_epic := fun _ _ _ => ret "epics/epic_2026-01-01.md";
     smtp_send_reply := fun _ _ _ _ _ => ret tt;
     email_mark_as_seen := fun _ => ret tt |}.

Definition start (accepts : bool) : Session World unit :=
  {| world := {| unseen := [("1", "alpha"); ("2", EmptyString); ("3", "beta")];
                 accepts_login := accepts |};
     _connection := None;
     commands := [] |}.

Definition run_on (accepts : bool) :=
  run (EmailClient.services imap answering)
    (fun _ => beside_mail (ret "# Epic"))
    (EmailClient.mailbox imap settings parse)
    (beside_mail (ret tt))
    (start accepts, []).

End Mailhost.

(** ** smtp_client.py *)

(** The settings [SMTPClient] reads, with the three properties of
    [config.py] that fall back to the IMAP settings: [a or b] is [a] when
    [a] is not empty. *)
Record SmtpSettings : Type := {
  imap_settings : MailSettings;
  SMTP_HOST : string;
  SMTP_PORT : Z;
  SMTP_USE_SSL : bool;
  SMTP_USERNAME : string;
  SMTP_PASSWORD : string
}.

Definition smtp_host (cfg : SmtpSettings) : string :=
  if truthy (SMTP_HOST cfg) then SMTP_HOST cfg else IMAP_HOST (imap_settings cfg).

Definition smtp_username (cfg : SmtpSettings) : string :=
  if truthy (SMTP_USERNAME cfg) then SMTP_USERNAME cfg else IMAP_USERNAME (imap_settings cfg).

Definition smtp_password (cfg : SmtpSettings) : string :=
  if truthy (SMTP_PASSWORD cfg) then SMTP_PASSWORD cfg else IMAP_PASSWORD (imap_settings cfg).

(** The [MIMEMultipart] message [send_reply] builds: three headers, a plain
    text part and one attachment. *)
Record MimeMessage : Type := {
  header_from : string;
  header_to : string;
  header_subject : string;
  text_part : string;
  attachment_name : string;
  attachment_disposition : string;
  attachment_payload : string
}.

(** [smtplib] over a world [W]; [S] is an [SMTP] object.  Either
    constructor stands for [ssl.create_default_context()] followed by the
    constructor; [smtp_exit] is [SMTP.__exit__], which sends QUIT and
    closes the socket. *)
Record Smtplib (W S : Type) : Type := {
  SMTP_SSL : string -> Z -> W -> W * (exn + S);
  SMTP : string -> Z -> W -> W * (exn + S);
  smtp_starttls : S -> W -> W * (exn + unit);
  smtp_login : S -> string -> string -> W -> W * (exn + unit);
  smtp_send_message : S -> MimeMessage -> W -> W * (exn + unit);
  smtp_exit : S -> W -> W * (exn + unit)
}.
Arguments SMTP_SSL {W S}.
Arguments SMTP {W S}.
Arguments smtp_starttls {W S}.
Arguments smtp_login {W S}.
Arguments smtp_send_message {W S}.
Arguments smtp_exit {W S}.

(** Ghost trace of the SMTP layer: every [smtplib] call made, with whether
    it returned. *)
Inductive smtp_call : Type :=
  | Smtp_new (use_ssl : bool) (host : string) (port : Z) (returned : bool)
  | Smtp_starttls (returned : bool)
  | Smtp_login (username password : string) (returned : bool)
  | Smtp_send_message (msg : MimeMessage) (returned : bool)
  | Smtp_exit (returned : bool).

Definition Outbox (W : Type) : Type := (W * list smtp_call)%type.

(** One [smtplib] call, recorded. *)
Definition smtp_do {W A} (call : bool -> smtp_call) (f : W -> W * (exn + A))
  : M (Outbox W) A :=
  fun s => let '(w', r) := f (fst s) in ((w', snd s ++ [call (is_ok r)]), r).

(** [with server: body]: [__exit__] runs however the body ends; what it
    raises replaces the outcome of the body, and when it returns the outcome
    of the body stands. *)
Definition with_server {W S A} (lib : Smtplib W S) (server : S) (body : M (Outbox W) A)
  : M (Outbox W) A :=
  fun s =>
    let '(s1, r) := body s in
    match smtp_do Smtp_exit (smtp_exit lib server) s1 with
    | (s2, inl e) => (s2, inl e)
    | (s2, inr _) => (s2, r)
    end.

Module SMTPClient.
Section WithSmtplib.
Context {W S : Type} (lib : Smtplib W S).
Variable _settings : SmtpSettings.
(** What the [email.mime] constructors raise while the message is built, if
    anything. *)
Variable mime_error : MimeMessage -> option exn.

(** The message of [send_reply]. *)
Definition message (recipient subj text_body attachment_filename attachment_content : string)
  : MimeMessage :=
  {| header_from := smtp_username _settings;
     header_to := recipient;
     header_subject := subj;
     text_part := text_body;
     attachment_name := attachment_filename;
     attachment_disposition :=
       ("attachment; filename=" ++ dquote ++ attachment_filename ++ dquote)%string;
     attachment_payload := attachment_content |}.

(** The session of [send_reply]: implicit TLS, or STARTTLS before the
    login. *)
Definition deliver (msg : MimeMessage) : M (Outbox W) unit :=
  let host := smtp_host _settings in
  let port := SMTP_PORT _settings in
  let username := smtp_username _settings in
  let password := smtp_password _settings in
  if SMTP_USE_SSL _settings then
    server <- smtp_do (Smtp_new true host port) (SMTP_SSL lib host port) ;;
    with_server lib server
      (smtp_do (Smtp_login username password) (smtp_login lib server username password) ;;
       smtp_do (Smtp_send_message msg) (smtp_send_message lib server msg))
  else
    server <- smtp_do (Smtp_new false host port) (SMTP lib host port) ;;
    with_server lib server
      (smtp_do Smtp_starttls (smtp_starttls lib server) ;;
       smtp_do (Smtp_login username password) (smtp_login lib server username password) ;;
       smtp_do (Smtp_send_message msg) (smtp_send_message lib server msg)).

(** [send_reply]: the message is built outside the [try], then the session
    runs.  The [except smtplib.SMTPException] clause logs and raises again,
    so every exception goes on to the caller. *)
Definition send_reply (recipient subj text_body attachment_filename attachment_content : string)
  : M (Outbox W) unit :=
  let msg := message recipient subj text_body attachment_filename attachment_content in
  match mime_error msg with
  | Some e => raise e
  | None => deliver msg
  end.

End WithSmtplib.
End SMTPClient.

(** The calls of [calls] that come before the first one [p] accepts. *)
Fixpoint before (p : smtp_call -> bool) (calls : list smtp_call) : list smtp_call :=
  match calls with
  | [] => []
  | call :: rest => if p call then [] else call :: before p rest
  end.

Definition is_login (call : smtp_call) : bool :=
  match call with
  | Smtp_login _ _ _ => true
  | _ => false
  end.

Definition is_send (call : smtp_call) : bool :=
  match call with
  | Smtp_send_message _ _ => true
  | _ => false
  end.

(** ** email_client.py: the body tags *)

(** A [dict] of strings as an association list, in insertion order. *)
Fixpoint dict_set (key value : string) (d : list (string * string)) : list (string * string) :=
  match d with
  | [] => [(key, value)]
  | (k, v) :: rest =>
      if String.eqb k key then (k, value) :: rest else (k, v) :: dict_set key value rest
  end.

Fixpoint dict_get (key : string) (d : list (string * string)) : option string :=
  match d with
  | [] => None
  | (k, v) :: rest => if String.eqb k key then Some v else dict_get key rest
  end.

(** The pairs [(parts[i], parts[i + 1])] for [i = 1, 3, ...] while
    [i + 1 <= len(parts) - 1]; [parts] is given from index 1 on. *)
Fixpoint tag_sections (parts : list string) : list (string * string) :=
  match parts with
  | tag :: content :: rest => (tag, content) :: tag_sections rest
  | _ => []
  end.

Section BodyTags.
Variable u : Unicode.
(** [_BODY_TAG_RE.split(body)]: the text before the first tag, then a tag
    name and the text that follows it, for each tag found. *)
Variable body_tag_split : string -> list string.

(** The body of the [while] loop. *)
Definition keep_section (result : list (string * string)) (section : string * string)
  : list (string * string) :=
  let tag := str_lower u (fst section) in
  let content := str_strip u (snd section) in
  if truthy content then dict_set tag content result else result.

(** [_parse_body_tags(body)]. *)
Definition _parse_body_tags (body : string) : list (string * string) :=
  fold_left keep_section (tag_sections (tl (body_tag_split body))) [].

End BodyTags.

(** ** A relay in memory

    It refuses the login of anyone but [agent].  Used for concrete runs
    only. *)
Module Relay.

Definition refused : exn := Exn OtherException "SMTPAuthenticationError".

Definition lib : Smtplib (list MimeMessage) unit :=
  {| SMTP_SSL := fun _ _ w => (w, inr tt);
     SMTP := fun _ _ w => (w, inr tt);
     smtp_starttls := fun _ w => (w, inr tt);
     smtp_login :=
       fun _ username _ w =>
         (w, if String.eqb username "agent" then inr tt else inl refused);
     smtp_send_message := fun _ msg w => (w ++ [msg], inr tt);
     smtp_exit := fun _ w => (w, inr tt) |}.

(** No SMTP setting of its own: the IMAP host and credentials are used. *)
Definition settings (username : string) : SmtpSettings :=
  {| imap_settings :=
       {| IMAP_HOST := "imap"; IMAP_PORT := 993; IMAP_USE_SSL := true;
          IMAP_USERNAME := username; IMAP_PASSWORD := "secret"; IMAP_MAILBOX := "INBOX";
          EMAIL_SUBJECT_PREFIX := "[JARVIS]-" |};
     SMTP_HOST := EmptyString; SMTP_PORT := 587; SMTP_USE_SSL := false;
     SMTP_USERNAME := EmptyString; SMTP_PASSWORD := EmptyString |}.

Definition start : Outbox (list MimeMessage) := ([], []).

End Relay.

(** * Properties *)

Lemma exn_class_eqb_eq (a b : exn_class) : exn_class_eqb a b = true <-> a = b.
Proof. destruct a, b; simpl; split; congruence. Qed.

(** ** Traces: concatenation *)

Ltac by_event_induction a :=
  induction a as [|[] a IH]; intros; simpl;
  repeat match goal with
         | o : (_ + _)%type |- _ => destruct o
         end;
  simpl; rewrite ?IH; auto.

Lemma commits_app (a b : list event) : commits (a ++ b) = (commits a + commits b)%nat.
Proof. by_event_induction a. Qed.

Lemma acked_app (a b : list event) : acked (a ++ b) = acked a ++ acked b.
Proof. by_event_induction a. Qed.

Lemma folded_app (a b : list event) : folded (a ++ b) = folded a ++ folded b.
Proof. by_event_induction a. Qed.

Lemma visited_app (a b : list event) : visited (a ++ b) = visited a ++ visited b.
Proof. by_event_induction a. Qed.

Lemma fold_uids_app (a b : list event) : fold_uids (a ++ b) = fold_uids a ++ fold_uids b.
Proof. by_event_induction a. Qed.

Lemma last_epic_app (a b : list event) :
  forall cur, last_epic cur (a ++ b) = last_epic (last_epic cur a) b.
Proof. by_event_induction a. Qed.

Lemma chained_app (a b : list event) :
  forall cur, chained cur (a ++ b) <-> chained cur a /\ chained (last_epic cur a) b.
Proof.
  induction a as [|ev a IH]; intros cur; simpl; [tauto|].
  destruct ev; simpl; try apply IH.
  destruct outcome; rewrite IH; tauto.
Qed.

(** ** Traces: the two phases *)

Lemma loop_events_quiet (tr : list event) :
  forallb loop_event tr = true ->
  commits tr = O /\ acked tr = [] /\
  (forall ev, In ev tr -> final_event ev = false).
Proof.
  induction tr as [|ev tr IH]; simpl; intros H.
  - repeat split; auto. intros ev [].
  - apply andb_prop in H as [Hev Htr]. destruct (IH Htr) as (Hc & Ha & Hf).
    destruct ev; simpl in Hev; try discriminate; simpl; repeat split; auto;
      intros ev' [<- | Hin]; auto.
Qed.

Lemma final_events_quiet (tr : list event) :
  forallb final_event tr = true ->
  folded tr = [] /\ visited tr = [] /\ fold_uids tr = [] /\
  (forall cur, chained cur tr /\ last_epic cur tr = cur) /\
  (forall ev, In ev tr -> loop_event ev = false).
Proof.
  induction tr as [|ev tr IH]; simpl; intros H.
  - repeat split; auto. intros ev [].
  - apply andb_prop in H as [Hev Htr]. destruct (IH Htr) as (Hf & Hv & Hu & Hc & Hl).
    destruct ev; simpl in Hev; try discriminate; simpl; repeat split; auto;
      try apply Hc; intros ev' [<- | Hin]; auto.
Qed.

Lemma last_epic_no_fold (tr : list event) :
  folded tr = [] -> forall cur, last_epic cur tr = cur.
Proof.
  induction tr as [|ev tr IH]; simpl; intros H cur; [reflexivity|].
  destruct ev; auto. destruct outcome; [auto | discriminate].
Qed.

Lemma last_epic_some_fold (tr : list event) :
  folded tr <> [] -> forall cur cur', last_epic cur tr = last_epic cur' tr.
Proof.
  induction tr as [|ev tr IH]; simpl; intros H cur cur'; [contradiction|].
  destruct ev; auto. destruct outcome; auto.
Qed.

Lemma last_epic_none (tr : list event) :
  forall cur, last_epic cur tr = None -> cur = None /\ folded tr = [].
Proof.
  induction tr as [|ev tr IH]; simpl; intros cur H; [auto|].
  destruct ev; auto. destruct outcome; auto.
  destruct (IH _ H) as [? _]. discriminate.
Qed.

Lemma acks_after_commit_true (tr : list event) : acks_after_commit true tr = true.
Proof.
  induction tr as [|ev tr IH]; simpl; [reflexivity|].
  destruct ev; auto. destruct outcome; auto.
Qed.

Lemma acks_after_commit_no_ack (tr : list event) :
  acked tr = [] -> forall b, acks_after_commit b tr = true.
Proof.
  induction tr as [|ev tr IH]; simpl; intros H b; [reflexivity|].
  destruct ev; auto; [destruct outcome; auto | discriminate].
Qed.

Lemma acks_after_commit_loop (a fin : list event) :
  forallb loop_event a = true ->
  forall b, acks_after_commit b (a ++ fin) = acks_after_commit b fin.
Proof.
  induction a as [|ev a IH]; simpl; intros H b; [reflexivity|].
  apply andb_prop in H as [Hev Ha]. destruct ev; simpl in Hev; try discriminate; auto.
Qed.

Lemma acks_after_commit_committed (p rest : list event) (s e k : string) :
  acked p = [] ->
  forall b, acks_after_commit b (p ++ Ev_write_epic s e (inr k) :: rest) = true.
Proof.
  induction p as [|ev p IH]; simpl; intros H b; [apply acks_after_commit_true|].
  destruct ev; auto; [|discriminate].
  destruct outcome; auto.
Qed.

Lemma forallb_app_true {A} (f : A -> bool) (a b : list A) :
  forallb f a = true -> forallb f b = true -> forallb f (a ++ b) = true.
Proof. intros Ha Hb. rewrite forallb_app, Ha, Hb. reflexivity. Qed.

Lemma subseq_refl {A} (l : list A) : subseq l l.
Proof. induction l; [apply subseq_nil | apply subseq_take; assumption]. Qed.

Lemma subseq_app {A} (a1 a2 b1 b2 : list A) :
  subseq a1 a2 -> subseq b1 b2 -> subseq (a1 ++ b1) (a2 ++ b2).
Proof.
  induction 1; simpl; intros Hb; auto.
  - apply subseq_skip; auto.
  - apply subseq_take; auto.
Qed.

(** ** The loop of [_process_project_emails] *)

Section OrchestratorFacts.
Context {G : Type}.
Variable c : Services G.
Variable generator_generate : GenArgs -> M G string.

Ltac split_cases :=
  repeat (first
    [ match goal with
      | |- context [truthy_opt ?x] => destruct (truthy_opt x) eqn:?
      end
    | match goal with
      | |- context [s3_read_extension_rules c ?a ?g] =>
          destruct (s3_read_extension_rules c a g) as [? [?|?]] eqn:?
      end
    | match goal with
      | |- context [generator_generate ?a ?g] =>
          destruct (generator_generate a g) as [? [?|?]] eqn:?
      end
    | match goal with
      | |- context [sender ?m] => destruct (sender m) eqn:?
      end
    | match goal with
      | |- context [truthy ?x] => destruct (truthy x) eqn:?
      end
    | match goal with
      | |- context [smtp_send_reply c ?a ?b ?d ?e ?f ?g] =>
          destruct (smtp_send_reply c a b d e f g) as [? [?|?]] eqn:?
      end ]; simpl).

Ltac in_events H :=
  simpl in H;
  repeat (destruct H as [H | H];
          [try discriminate; try (inversion H; subst; simpl; auto) |]);
  try contradiction.

(** One iteration never raises and moves the loop state as [loop_post]
    says. *)
Lemma process_email_post (mail : AgentEmail) (st : LoopState) (g : G) (tr : list event) :
  exists g' new st',
    process_email c generator_generate mail st (g, tr) = ((g', tr ++ new), inr st')
    /\ loop_post [uid mail] st new st'.
Proof.
  unfold process_email, _resolve_extension_rules, bind, note, attempt, invoke, ret.
  simpl. split_cases; simpl;
    rewrite <- ?app_assoc; simpl;
    (do 3 eexists; split; [reflexivity|]);
    unfold loop_post; simpl; rewrite ?app_nil_r;
    repeat split; auto;
    try apply subseq_refl; try (apply subseq_skip; apply subseq_nil);
    try (let H := fresh "Hin" in intros ? ? H; in_events H).
Qed.

Lemma loop_post_app (u1 u2 : list string) (st st1 st2 : LoopState) (n1 n2 : list event) :
  loop_post u1 st n1 st1 -> loop_post u2 st1 n2 st2 ->
  loop_post (u1 ++ u2) st (n1 ++ n2) st2.
Proof.
  intros (A1 & A2 & A3 & A4 & A5 & A6 & A7) (B1 & B2 & B3 & B4 & B5 & B6 & B7).
  unfold loop_post. repeat split.
  - apply forallb_app_true; assumption.
  - rewrite visited_app. congruence.
  - rewrite fold_uids_app. apply subseq_app; assumption.
  - apply chained_app. split; [assumption|]. rewrite <- A5. assumption.
  - rewrite last_epic_app, <- A5. assumption.
  - rewrite folded_app, app_assoc, <- A6. assumption.
  - intros u o Hin. rewrite folded_app. apply in_or_app.
    apply in_app_or in Hin as [Hin | Hin]; [left; eapply A7 | right; eapply B7]; eassumption.
Qed.

(** The whole loop never raises: every email is visited, whatever happened
    to the ones before it. *)
Lemma process_emails_post (mails : list AgentEmail) :
  forall (st : LoopState) (g : G) (tr : list event),
  exists g' new st',
    process_emails c generator_generate mails st (g, tr) = ((g', tr ++ new), inr st')
    /\ loop_post (map uid mails) st new st'.
Proof.
  induction mails as [|mail rest IH]; intros st g tr; simpl.
  - exists g, [], st. rewrite app_nil_r. split; [reflexivity|].
    unfold loop_post; simpl. rewrite app_nil_r.
    repeat split; auto using subseq_nil.
  - destruct (process_email_post mail st g tr) as (g1 & n1 & st1 & E1 & P1).
    destruct (IH st1 g1 (tr ++ n1)) as (g2 & n2 & st2 & E2 & P2).
    exists g2, (n1 ++ n2), st2. split.
    + unfold bind. rewrite E1, E2, app_assoc. reflexivity.
    + apply (loop_post_app [uid mail] (map uid rest) st st1 st2); assumption.
Qed.

Lemma mark_all_as_seen_post (uids : list string) :
  forall (g : G) (tr : list event),
  exists g' acks res,
    mark_all_as_seen c uids (g, tr) = ((g', tr ++ acks), res) /\ acks_post uids acks res.
Proof.
  induction uids as [|u rest IH]; intros g tr; simpl.
  - exists g, [], (inr tt). rewrite app_nil_r. split; [reflexivity|].
    unfold acks_post; simpl.
    split; [reflexivity|]. split; [reflexivity|].
    split; [exists []; reflexivity|]. split; [reflexivity|].
    split; [discriminate|]. intros s r o [].
  - unfold bind, invoke; simpl.
    destruct (email_mark_as_seen c u g) as [g1 [e | []]] eqn:E.
    + exists g1, [Ev_mark_as_seen u (inl e)], (inl e). split; [reflexivity|].
      unfold acks_post; simpl.
      split; [reflexivity|]. split; [reflexivity|].
      split; [exists rest; reflexivity|]. split; [discriminate|].
      split.
      * intros e' [= <-]. exists [], (Ev_mark_as_seen u (inl e)). simpl. auto.
      * intros s r o [H | []]; discriminate.
    + destruct (IH g1 (tr ++ [Ev_mark_as_seen u (inr tt)]))
        as (g2 & acks & res & E2 & (Q1 & Q2 & (more & Q3) & Q4 & Q5 & Q6)).
      exists g2, (Ev_mark_as_seen u (inr tt) :: acks), res. split.
      * rewrite E2, <- app_assoc. reflexivity.
      * unfold acks_post; simpl.
        split; [assumption|]. split; [assumption|].
        split; [exists more; simpl; congruence|].
        split; [intros H; rewrite (Q4 H); reflexivity|].
        split.
        -- intros e He. destruct (Q5 e He) as (t0 & ev & -> & R).
           exists (Ev_mark_as_seen u (inr tt) :: t0), ev. auto.
        -- intros s r o [H | H]; [discriminate | exact (Q6 s r o H)].
Qed.

Lemma ends_raising_app (e : exn) (a b : list event) :
  ends_raising e b -> ends_raising e (a ++ b).
Proof.
  intros (t0 & ev & -> & R). exists (a ++ t0), ev. rewrite app_assoc. auto.
Qed.

Lemma ends_raising_last (e : exn) (a : list event) (ev : event) :
  raised_by e ev -> ends_raising e (a ++ [ev]).
Proof. intros R. exists a, ev. auto. Qed.

(** The writes went through ([pre]) and the acknowledgments followed. *)
Lemma final_post_acks (st : LoopState) (pre acks : list event) (res : exn + unit) :
  processed_uids st <> [] ->
  forallb final_event pre = true ->
  acked pre = [] ->
  commits pre = (if truthy_opt (accumulated_epic st) then 1%nat else O) ->
  (truthy_opt (accumulated_epic st) = true ->
   exists p s e k, pre = p ++ [Ev_write_epic s e (inr k)] /\ acked p = []) ->
  acks_post (processed_uids st) acks res ->
  final_post st (pre ++ acks)
    (match res with inl e => inl e | inr _ => inr (length (processed_uids st)) end).
Proof.
  intros Hp Hpre Hacked Hcommits Hok (Q1 & Q2 & (more & Q3) & Q4 & Q5 & Q6).
  unfold final_post. rewrite commits_app, acked_app, Q2, Hacked, Hcommits. simpl.
  split; [apply forallb_app_true; assumption|].
  split; [destruct (truthy_opt (accumulated_epic st)); simpl; lia|].
  split; [exists more; assumption|].
  split; [intros H; contradiction|].
  split; [|split; [|split]].
  - intros n Hn. destruct res as [e|v]; [discriminate|]. injection Hn as <-.
    split; [apply Q4; reflexivity|]. split; [reflexivity|]. intros _. lia.
  - intros e He. destruct res as [e0|v]; [|discriminate]. injection He as <-.
    apply ends_raising_app. apply Q5. reflexivity.
  - intros _ _ ->. reflexivity.
  - intros Ht. destruct (Hok Ht) as (p & s & e & k & -> & Hp0).
    rewrite <- app_assoc. simpl. apply acks_after_commit_committed. assumption.
Qed.

(** A write raised: nothing was acknowledged. *)
Lemma final_post_raise (st : LoopState) (pre : list event) (ev : event) (e : exn) :
  processed_uids st <> [] ->
  forallb final_event (pre ++ [ev]) = true ->
  acked (pre ++ [ev]) = [] ->
  (commits (pre ++ [ev]) <= 1)%nat ->
  raised_by e ev ->
  ((exists s r, ev = Ev_write_extension_rules s r (inl e)) \/
   commits (pre ++ [ev]) = 1%nat) ->
  final_post st (pre ++ [ev]) (inl e).
Proof.
  intros Hp Hfin Hacked Hcommits Hraise Hwhich.
  unfold final_post. rewrite Hacked. simpl.
  split; [assumption|]. split; [assumption|].
  split; [exists (processed_uids st); reflexivity|].
  split; [intros H; contradiction|].
  split; [discriminate|]. split; [|split].
  - intros e' [= <-]. apply ends_raising_last. assumption.
  - intros _ Hno _. destruct Hwhich as [(s & r & ->) | H]; [|assumption].
    exfalso. apply (Hno s r e). apply in_or_app. right. left. reflexivity.
  - intros _. apply acks_after_commit_no_ack. assumption.
Qed.

Lemma commit_and_acknowledge_post (slug name : string) (st : LoopState) (g : G)
    (tr : list event) :
  exists g' fin res,
    commit_and_acknowledge c slug name st (g, tr) = ((g', tr ++ fin), res)
    /\ final_post st fin res.
Proof.
  unfold commit_and_acknowledge.
  destruct (processed_uids st) as [|u us] eqn:Hp.
  { exists g, [], (inr O). rewrite app_nil_r. split; [reflexivity|].
    unfold final_post; rewrite Hp; simpl.
    split; [reflexivity|]. split; [lia|]. split; [exists []; reflexivity|].
    split; [auto|]. split; [|split; [|split]].
    - intros n [= <-]. repeat split; auto. intros H; contradiction.
    - discriminate.
    - intros H; contradiction.
    - reflexivity. }
  assert (Hne : processed_uids st <> []) by (rewrite Hp; discriminate).
  rewrite <- Hp.
  unfold bind, invoke, ret; simpl.
  destruct (accumulated_extension_rules st) as [rules|];
    [destruct (truthy rules)|]; simpl.
  all: try match goal with
       | |- context [s3_write_extension_rules c ?s ?r ?g0] =>
           destruct (s3_write_extension_rules c s r g0) as [g1 [e1|k1]]; simpl
       end.
  all: try (destruct (accumulated_epic st) as [epic|] eqn:Hepic;
            [destruct (truthy epic) eqn:Htruthy|]; simpl).
  all: try match goal with
       | |- context [s3_write_epic c ?s ?r ?n ?g0] =>
           destruct (s3_write_epic c s r n g0) as [g2 [e2|k2]]; simpl
       end.
  all: try match goal with
       | |- context [mark_all_as_seen c ?uids (?g0, ?t0)] =>
           destruct (mark_all_as_seen_post uids g0 t0) as (g3 & acks & res & E & Q);
           rewrite E; rewrite <- ?app_assoc; simpl;
           exists g3; eexists;
           exists (match res with
                   | inl e => inl e
                   | inr _ => inr (length (processed_uids st))
                   end);
           (split; [destruct res; reflexivity|]);
           first [ apply (final_post_acks st [] acks res)
                 | match goal with
                   | |- final_post _ (?a :: ?b :: acks) _ =>
                       apply (final_post_acks st [a; b] acks res)
                   end
                 | match goal with
                   | |- final_post _ (?a :: acks) _ =>
                       apply (final_post_acks st [a] acks res)
                   end ];
           try assumption; try reflexivity;
           rewrite ?Hepic; simpl; rewrite ?Htruthy; try reflexivity;
           try discriminate;
           intros _;
           first [ exists []; do 3 eexists; split; reflexivity
                 | eexists [_]; do 3 eexists; split; reflexivity ]
       end.
  all: rewrite <- ?app_assoc; simpl.
  all: do 3 eexists; (split; [reflexivity|]).
  all: first [ match goal with
               | |- final_post _ [?a; ?b] _ => apply (final_post_raise st [a] b)
               end
             | match goal with
               | |- final_post _ [?a] _ => apply (final_post_raise st [] a)
               end ];
       simpl; try assumption; try reflexivity; try lia;
       first [ left; do 2 eexists; reflexivity | right; reflexivity ].
Qed.

(** A run that reached the loop: head, loop events, final events. *)
Lemma partition_post_intro (slug bucket : string) (baseline : option string)
    (uids : list string) (new fin : list event) (st : LoopState) (res : exn + nat) :
  loop_post uids
    {| accumulated_epic := baseline; accumulated_extension_rules := None;
       processed_uids := [] |} new st ->
  final_post st fin res ->
  partition_post slug uids
    (Ev_ensure_bucket slug (inr bucket)
     :: Ev_read_latest_epic slug (inr baseline) :: new ++ fin) res.
Proof.
  intros (A1 & A2 & A3 & A4 & A5 & A6 & A7)
         (B1 & B2 & (more & B3) & B4 & B5 & B6 & B7 & B8).
  simpl in A4, A5, A6.
  destruct (loop_events_quiet new A1) as (Lc & La & Lf).
  destruct (final_events_quiet fin B1) as (Ff & Fv & Fu & Fc & Fl).
  assert (Hlast : last_epic None (new ++ fin) = last_epic None new)
    by (rewrite last_epic_app; apply Fc).
  assert (Hacc : folded new <> [] -> accumulated_epic st = last_epic None new)
    by (intros H; rewrite A5; apply last_epic_some_fold; assumption).
  unfold partition_post; simpl.
  rewrite commits_app, acked_app, folded_app, visited_app, fold_uids_app, Hlast.
  rewrite Lc, La, Ff, Fv, Fu, !app_nil_r. simpl.
  split; [assumption|].
  split; [exists more; congruence|].
  split; [intros H; rewrite H in A6; destruct (B4 A6) as [-> _]; auto|].
  split; [|split; [|split; [|split; [|split]]]].
  - intros n Hn. destruct (B5 n Hn) as (K1 & K2 & K3).
    split; [congruence|]. split; [congruence|].
    destruct (folded new) as [|u us] eqn:Hf.
    + destruct (B4 A6) as [-> _]. rewrite (last_epic_no_fold new Hf). reflexivity.
    + rewrite K3 by (rewrite A6; discriminate).
      rewrite Hacc by discriminate. reflexivity.
  - intros e He _.
    apply (ends_raising_app e [Ev_ensure_bucket slug (inr bucket);
                               Ev_read_latest_epic slug (inr baseline)] (new ++ fin)).
    apply ends_raising_app. apply B6. assumption.
  - intros b [H | [H | H]]; [discriminate| |].
    + injection H as <-. split.
      * apply chained_app. split; [assumption | apply Fc].
      * intros _. split; assumption.
    + exfalso. apply in_app_or in H as [H | H].
      * rewrite forallb_forall in A1. specialize (A1 _ H). discriminate.
      * rewrite forallb_forall in B1. specialize (B1 _ H). discriminate.
  - intros u o [H | [H | H]]; [discriminate | discriminate |].
    apply in_app_or in H as [H | H]; [eapply A7; eassumption|].
    specialize (Fl _ H). discriminate.
  - intros Hno Htruthy.
    assert (Hf : folded new <> []).
    { intros Hf. rewrite (last_epic_no_fold new Hf) in Htruthy. discriminate. }
    apply B7.
    + rewrite A6. assumption.
    + intros s r e Hin. apply (Hno s r e). right. right. apply in_or_app. right. assumption.
    + rewrite Hacc by assumption. assumption.
  - intros Htruthy.
    assert (Hf : folded new <> []).
    { intros Hf. rewrite (last_epic_no_fold new Hf) in Htruthy. discriminate. }
    rewrite (acks_after_commit_loop new fin A1). apply B8.
    rewrite Hacc by assumption. assumption.
Qed.

Ltac early_exit :=
  unfold partition_post; simpl;
  split; [lia|];
  split; [exists []; reflexivity|];
  split; [auto|];
  split; [discriminate|];
  split; [intros ? ? H; contradiction|];
  split;
  [ intros ? H; in_events H; try (split; [exact I | intros H'; contradiction])
  | split; [intros ? ? H; in_events H | split; intros; discriminate] ].

(** Every run of [_process_project_emails] satisfies [partition_post]. *)
Lemma process_project_emails_post (slug : string) (mails : list AgentEmail) (g g' : G)
    (tr : list event) (res : exn + nat) :
  _process_project_emails c generator_generate slug mails (g, []) = ((g', tr), res) ->
  partition_post slug (map uid mails) tr res.
Proof.
  unfold _process_project_emails, bind, invoke, raise, ret; simpl.
  destruct (s3_ensure_bucket c slug g) as [g1 [e|bucket]]; simpl.
  { intros [= <- <- <-]. early_exit. }
  destruct (s3_read_latest_epic c slug g1) as [g2 [e|baseline]]; simpl.
  { intros [= <- <- <-]. early_exit. }
  destruct mails as [|first rest].
  { simpl. intros [= <- <- <-]. early_exit. }
  cbn [fst snd].
  destruct (process_emails_post (first :: rest)
              {| accumulated_epic := baseline; accumulated_extension_rules := None;
                 processed_uids := [] |}
              g2 [Ev_ensure_bucket slug (inr bucket);
                  Ev_read_latest_epic slug (inr baseline)])
    as (g3 & new & st & E & P).
  rewrite E.
  destruct (commit_and_acknowledge_post slug (project_name first) st g3
              ([Ev_ensure_bucket slug (inr bucket);
                Ev_read_latest_epic slug (inr baseline)] ++ new))
    as (g4 & fin & res' & E' & F).
  rewrite E'. intros [= <- <- <-].
  exact (partition_post_intro slug bucket baseline _ new fin st res' P F).
Qed.

End OrchestratorFacts.

(** ** One commit, acknowledgments for the folded emails *)

(** C1, as stated, fails on two runs of one email whose fold succeeds
    (M = 1).  In the first the generator returns the empty string: no
    [write_epic] call is made.  In the second [write_epic] raises: no
    [mark_as_seen] call is made. *)
Lemma commit_and_ack_counts_counterexample :
  (let tr := Scenario.trace_of Scenario.empty_epic_run in
   length (folded tr) = 1%nat /\ commits tr <> 1%nat) /\
  (let tr := Scenario.trace_of Scenario.failed_commit_run in
   length (folded tr) = 1%nat /\ length (acked tr) <> length (folded tr)).
Proof. vm_compute. repeat split; discriminate. Qed.

(** C1 (amended).  In every run of [_process_project_emails], with M the
    number of emails whose fold returned: [write_epic] is called at most
    once, and neither it nor [mark_as_seen] is called when M = 0;
    [mark_as_seen] is only ever called for folded emails, in their order;
    and when the function returns (no storage or acknowledgment call
    raised) and the epic of the last successful fold is non-empty, it has
    called [write_epic] exactly once and [mark_as_seen] exactly once for
    each of the M folded emails, and returns M. *)
Theorem commit_once_and_ack_folded {G : Type} (c : Services G)
    (generator_generate : GenArgs -> M G string) (slug : string)
    (mails : list AgentEmail) (g g' : G) (tr : list event) (res : exn + nat) :
  _process_project_emails c generator_generate slug mails (g, []) = ((g', tr), res) ->
  (commits tr <= 1)%nat /\
  (folded tr = [] -> commits tr = O /\ acked tr = []) /\
  (exists rest, folded tr = acked tr ++ rest) /\
  (forall n, res = inr n -> truthy_opt (last_epic None tr) = true ->
     commits tr = 1%nat /\ acked tr = folded tr /\ n = length (folded tr)).
Proof.
  intros Hrun.
  destruct (process_project_emails_post c generator_generate slug mails g g' tr res Hrun)
    as (F1 & F2 & F3 & F4 & _).
  split; [assumption|]. split; [assumption|]. split; [assumption|].
  intros n Hn Ht. destruct (F4 n Hn) as (Ha & Hlen & Hc).
  rewrite Ht in Hc. auto.
Qed.

(** The statement at a run of two emails, both folded, committed once. *)
Lemma commit_once_and_ack_folded_witness :
  let tr := Scenario.trace_of Scenario.failed_reply_run in
  (commits tr <= 1)%nat /\
  (folded tr = [] -> commits tr = O /\ acked tr = []) /\
  (exists rest, folded tr = acked tr ++ rest) /\
  (forall n, snd Scenario.failed_reply_run = inr n ->
     truthy_opt (last_epic None tr) = true ->
     commits tr = 1%nat /\ acked tr = folded tr /\ n = length (folded tr)).
Proof.
  apply (commit_once_and_ack_folded
           (run_services (Scenario.services None Scenario.key (inl Scenario.smtp_error)))
           (run_generator
              (Scenario.remote (Scenario.always (Scenario.answer 200 "# Epic")) (inr None))
              (Scenario.settings "http://llm" "k" EmptyString 3 3) Scenario.prompts)
           "alpha"
           [Scenario.mail "1" (Some "a@example.com");
            Scenario.mail "2" (Some "b@example.com")]
           (Scenario.start (Scenario.settings "http://llm" "k" EmptyString 3 3))
           (fst (fst Scenario.failed_reply_run))).
  vm_compute. reflexivity.
Defined.

(** ** Acknowledgment only after the commit *)

(** C2 (the code departs from it).  One email, ChatGPT answers 200 with an
    empty content: the fold succeeds with the empty epic, [if
    accumulated_epic:] skips [write_epic], and the email is marked as seen
    although nothing was written. *)
Theorem ack_without_commit :
  let tr := Scenario.trace_of Scenario.empty_epic_run in
  snd Scenario.empty_epic_run = inr 1%nat /\
  folded tr = ["1"] /\
  commits tr = O /\
  acked tr = ["1"] /\
  acks_after_commit false tr = false.
Proof. vm_compute. repeat split. Qed.

(** Runs of that kind are the only ones where an acknowledgment comes
    without a commit: in every run, either no [mark_as_seen] call precedes a
    [write_epic] call that returned, or the last successful fold produced the
    empty string. *)
Lemma acks_follow_commit_unless_empty {G : Type} (c : Services G)
    (generator_generate : GenArgs -> M G string) (slug : string)
    (mails : list AgentEmail) (g g' : G) (tr : list event) (res : exn + nat) :
  _process_project_emails c generator_generate slug mails (g, []) = ((g', tr), res) ->
  acks_after_commit false tr = true \/ last_epic None tr = Some EmptyString.
Proof.
  intros Hrun.
  destruct (process_project_emails_post c generator_generate slug mails g g' tr res Hrun)
    as (_ & _ & F3 & _ & _ & _ & _ & _ & F9).
  destruct (last_epic None tr) as [[|a s]|] eqn:Hlast.
  - right. reflexivity.
  - left. apply F9. reflexivity.
  - left. apply acks_after_commit_no_ack.
    destruct (last_epic_none tr None Hlast) as [_ Hf]. apply (F3 Hf).
Qed.

(** When [write_epic] raises, nothing is acknowledged. *)
Example failed_commit_acknowledges_nothing :
  let tr := Scenario.trace_of Scenario.failed_commit_run in
  snd Scenario.failed_commit_run = inl Scenario.client_error /\
  commits tr = 1%nat /\ acked tr = [].
Proof. vm_compute. repeat split. Qed.

(** ** Folding in arrival order *)



(** ** A reply that cannot be sent *)

(** C10.  In a run where the reply for email [u] raised: [u] was folded
    and stays in the processed list; if the function returns, [u] and every
    other folded email have been marked as seen; if the function raises, the
    exception is that of the last call of the trace, a storage or
    acknowledgment call and never the reply; and unless writing the extension
    rules raised, a non-empty final epic is committed once. *)
Theorem reply_failure_is_harmless {G : Type} (c : Services G)
    (generator_generate : GenArgs -> M G string) (slug : string)
    (mails : list AgentEmail) (g g' : G) (tr : list event) (res : exn + nat)
    (u : string) (e : exn) :
  _process_project_emails c generator_generate slug mails (g, []) = ((g', tr), res) ->
  In (Ev_send_reply u (inl e)) tr ->
  In u (folded tr) /\
  (forall n, res = inr n -> In u (acked tr) /\ acked tr = folded tr) /\
  (forall e', res = inl e' -> ends_raising e' tr) /\
  ((forall s r e', ~ In (Ev_write_extension_rules s r (inl e')) tr) ->
   truthy_opt (last_epic None tr) = true -> commits tr = 1%nat).
Proof.
  intros Hrun Hin.
  destruct (process_project_emails_post c generator_generate slug mails g g' tr res Hrun)
    as (_ & _ & _ & F4 & F5 & _ & F7 & F8 & _).
  assert (Hu : In u (folded tr)) by (eapply F7; eassumption).
  split; [assumption|]. split; [|split; [|assumption]].
  - intros n Hn. destruct (F4 n Hn) as (Ha & _). rewrite Ha. auto.
  - intros e' He'. apply F5; [assumption|]. intros Hnil. rewrite Hnil in Hu. contradiction.
Qed.

(** The statement at a run of two emails whose replies both fail. *)
Lemma reply_failure_is_harmless_witness :
  let tr := Scenario.trace_of Scenario.failed_reply_run in
  In "1" (folded tr) /\
  (forall n, snd Scenario.failed_reply_run = inr n ->
     In "1" (acked tr) /\ acked tr = folded tr) /\
  (forall e', snd Scenario.failed_reply_run = inl e' -> ends_raising e' tr) /\
  ((forall s r e', ~ In (Ev_write_extension_rules s r (inl e')) tr) ->
   truthy_opt (last_epic None tr) = true -> commits tr = 1%nat).
Proof.
  apply (reply_failure_is_harmless
           (run_services (Scenario.services None Scenario.key (inl Scenario.smtp_error)))
           (run_generator
              (Scenario.remote (Scenario.always (Scenario.answer 200 "# Epic")) (inr None))
              (Scenario.settings "http://llm" "k" EmptyString 3 3) Scenario.prompts)
           "alpha"
           [Scenario.mail "1" (Some "a@example.com");
            Scenario.mail "2" (Some "b@example.com")]
           (Scenario.start (Scenario.settings "http://llm" "k" EmptyString 3 3))
           (fst (fst Scenario.failed_reply_run)) _ _ "1" Scenario.smtp_error).
  - vm_compute. reflexivity.
  - vm_compute. auto 10.
Defined.

(** ** The retry layer *)







Section RetryFacts.
Context {W : Type} (remote : Remote W).

Lemma retry_loop_log {A} (wait : Z -> Q) (retry : exn -> bool) (stop : Z -> bool)
    (fn : M (Net W) A) (ev : net_event) :
  logs_one fn ev ->
  forall fuel a n,
  exists k, (k <= fuel)%nat /\
    snd (fst (tenacity.retry_loop (sleep_for remote) wait retry stop fuel a fn n))
    = snd n ++ retry_log wait k a ev.
Proof.
  intros [Hev Hlog]. induction fuel as [|r IH]; intros a n; simpl;
    pose proof (Hlog n) as Hn; destruct (fn n) as [n1 [e|v]]; simpl in Hn |- *;
    try (exists O; split; [lia | assumption]).
  - destruct (retry e); [destruct (stop a)|]; exists O; (split; [lia | assumption]).
  - destruct (retry e); [destruct (stop a)|];
      try (exists O; split; [lia | assumption]).
    destruct (IH (a + 1) (sleep_for remote (wait a) n1)) as (k & Hk & E).
    exists (S k). split; [lia|]. rewrite E. simpl. rewrite Hn, <- !app_assoc. reflexivity.
Qed.


(** The fuel [retrying] gives is enough: with it, or with any more, the
    loop ends by its own rules and gives the same result. *)
Lemma retry_loop_fuel_enough {A} (wait : Z -> Q) (retry : exn -> bool) (max : Z)
    (fn : M (Net W) A) :
  forall fuel extra a n,
    max <= a + Z.of_nat fuel ->
    tenacity.retry_loop (sleep_for remote) wait retry (tenacity.stop_after_attempt max)
      (fuel + extra) a fn n
    = tenacity.retry_loop (sleep_for remote) wait retry (tenacity.stop_after_attempt max)
        fuel a fn n.
Proof.
  unfold tenacity.stop_after_attempt.
  induction fuel as [|k IH]; intros extra a n Hmax.
  - destruct extra; simpl; [reflexivity|].
    destruct (fn n) as [n1 [e|v]]; [|reflexivity].
    destruct (retry e); [|reflexivity].
    destruct (Z.leb_spec max a); [reflexivity | lia].
  - simpl. destruct (fn n) as [n1 [e|v]]; [|reflexivity].
    destruct (retry e); [|reflexivity].
    destruct (max <=? a); [reflexivity|].
    apply IH. lia.
Qed.

Lemma retrying_fuel_enough {A} (wait : Z -> Q) (retry : exn -> bool) (max : Z)
    (fn : M (Net W) A) (extra : nat) (n : Net W) :
  tenacity.retry_loop (sleep_for remote) wait retry (tenacity.stop_after_attempt max)
    (Z.to_nat (max - 1) + extra) 1 fn n
  = tenacity.retrying (sleep_for remote) wait retry max fn n.
Proof. unfold tenacity.retrying. apply retry_loop_fuel_enough. lia. Qed.


Lemma retry_loop_success {A} (wait : Z -> Q) (retry : exn -> bool) (stop : Z -> bool)
    (fn : M (Net W) A) (fuel : nat) (a : Z) (n n1 : Net W) (v : A) :
  fn n = (n1, inr v) ->
  tenacity.retry_loop (sleep_for remote) wait retry stop fuel a fn n = (n1, inr v).
Proof. intros E. destruct fuel; simpl; rewrite E; reflexivity. Qed.


Lemma copilot_session_logs_one (cfg : Settings) (sm up : string) :
  logs_one (_run_copilot_session remote cfg sm up) (CopilotSession sm up).
Proof.
  split; [reflexivity|]. intros n.
  unfold _run_copilot_session, bind, emit, ask, raise, ret. simpl.
  destruct (copilot_send_and_wait remote cfg sm up (fst n)) as [w' [e|[[c|]|]]];
    simpl; try reflexivity.
  destruct (truthy c); reflexivity.
Qed.

End RetryFacts.

(** ** The circuit breaker *)

Section BreakerFacts.
Context {St A : Type}.
Variable clock : St -> Z.

(** While the breaker rejects, [call] returns at once: same breaker, same
    state, whatever the wrapped function is. *)
Lemma call_rejected (cb : pybreaker.CircuitBreaker) (func : M St A) (s : St) :
  pybreaker.rejects cb (clock s) = true ->
  pybreaker.call clock func (cb, s) = ((cb, s), inl pybreaker.still_open).
Proof.
  unfold pybreaker.call, pybreaker.rejects. simpl.
  destruct (pybreaker.current_state cb); try discriminate.
  destruct (pybreaker.opened_at cb); try discriminate.
  intros ->. reflexivity.
Qed.

(** When the breaker lets the call through, the wrapped function runs once
    and its outcome is counted once: a success zeroes the counter, a failure
    adds one. *)
Lemma call_let_through (cb : pybreaker.CircuitBreaker) (func : M St A) (s : St) :
  pybreaker.rejects cb (clock s) = false ->
  snd (fst (pybreaker.call clock func (cb, s))) = fst (func s) /\
  match snd (func s) with
  | inr v =>
      snd (pybreaker.call clock func (cb, s)) = inr v /\
      pybreaker.fail_counter (fst (fst (pybreaker.call clock func (cb, s)))) = 0
  | inl e =>
      is_ok (snd (pybreaker.call clock func (cb, s))) = false /\
      pybreaker.fail_counter (fst (fst (pybreaker.call clock func (cb, s))))
      = pybreaker.fail_counter cb + 1
  end.
Proof.
  unfold pybreaker.call, pybreaker.rejects, pybreaker.run_and_count. simpl.
  destruct (pybreaker.current_state cb) eqn:Hst; simpl.
  - intros _. destruct (func s) as [s' [e|v]]; simpl; [|auto].
    destruct (_ <=? _); simpl; auto.
  - destruct (pybreaker.opened_at cb) as [t0|].
    + intros ->. destruct (func s) as [s' [e|v]]; simpl; auto.
    + intros _. destruct (func s) as [s' [e|v]]; simpl; auto.
  - intros _. destruct (func s) as [s' [e|v]]; simpl; auto.
Qed.

(** The breaker keeps its configuration. *)
Lemma call_keeps_config (cb : pybreaker.CircuitBreaker) (func : M St A) (s : St) :
  pybreaker.fail_max (fst (fst (pybreaker.call clock func (cb, s)))) = pybreaker.fail_max cb /\
  pybreaker.reset_timeout (fst (fst (pybreaker.call clock func (cb, s))))
  = pybreaker.reset_timeout cb.
Proof.
  unfold pybreaker.call, pybreaker.run_and_count. simpl.
  destruct (pybreaker.current_state cb); simpl;
    try destruct (pybreaker.rejects cb (clock s)); simpl; auto;
    destruct (func s) as [s' [e|v]]; simpl; auto;
    destruct (_ <=? _); simpl; auto.
Qed.

(** After a call that failed, the breaker is open with an opening time, or
    it was closed, still is, and has counted one more failure without
    reaching [fail_max]. *)
Lemma failed_call_step (cb : pybreaker.CircuitBreaker) (func : M St A) (s : St) :
  is_ok (snd (pybreaker.call clock func (cb, s))) = false ->
  (pybreaker.current_state cb = pybreaker.OPEN -> pybreaker.opened_at cb <> None) ->
  let cb' := fst (fst (pybreaker.call clock func (cb, s))) in
  (pybreaker.current_state cb' = pybreaker.OPEN /\ pybreaker.opened_at cb' <> None) \/
  (pybreaker.current_state cb = pybreaker.CLOSED /\
   pybreaker.current_state cb' = pybreaker.CLOSED /\
   pybreaker.fail_counter cb' = pybreaker.fail_counter cb + 1 /\
   pybreaker.fail_counter cb' < pybreaker.fail_max cb).
Proof.
  unfold pybreaker.call, pybreaker.run_and_count. simpl.
  destruct (pybreaker.current_state cb) eqn:Hst; simpl.
  - destruct (func s) as [s' [e|v]]; simpl; [|discriminate].
    destruct (_ <=? _) eqn:Hle; simpl; intros _ _.
    + left. split; [reflexivity | discriminate].
    + right. apply Z.leb_gt in Hle. simpl in Hle. rewrite Hst. auto.
  - destruct (pybreaker.rejects cb (clock s)); simpl.
    + intros _ Hopen. left. rewrite Hst. auto.
    + destruct (func s) as [s' [e|v]]; simpl; [|discriminate].
      intros _ _. left. split; [reflexivity | discriminate].
  - destruct (func s) as [s' [e|v]]; simpl; [|discriminate].
    intros _ _. left. split; [reflexivity | discriminate].
Qed.

End BreakerFacts.

Section BreakerSequences.
Context {St A : Type}.
Variable clock : St -> Z.

Lemma call_sequence_keeps_config (steps : list (M St A * St)) :
  forall cb,
    pybreaker.fail_max (fst (call_sequence clock steps cb)) = pybreaker.fail_max cb /\
    pybreaker.reset_timeout (fst (call_sequence clock steps cb)) = pybreaker.reset_timeout cb.
Proof.
  induction steps as [|[func s] rest IH]; intros cb; simpl; [auto|].
  destruct (call_keeps_config clock cb func s) as [H1 H2].
  destruct (pybreaker.call clock func (cb, s)) as [[cb1 s1] r]. simpl in H1, H2.
  destruct (IH cb1) as [H3 H4].
  destruct (call_sequence clock rest cb1) as [cb2 rs]. simpl in *. split; congruence.
Qed.

(** A run of failed calls leaves the breaker open, unless it was closed and
    the failures counted so far stay below [fail_max]. *)
Lemma failed_call_sequence (steps : list (M St A * St)) :
  forall cb,
    steps <> [] ->
    (pybreaker.current_state cb = pybreaker.OPEN -> pybreaker.opened_at cb <> None) ->
    Forall (fun r => is_ok r = false) (snd (call_sequence clock steps cb)) ->
    let cb' := fst (call_sequence clock steps cb) in
    (pybreaker.current_state cb' = pybreaker.OPEN /\ pybreaker.opened_at cb' <> None) \/
    (pybreaker.current_state cb = pybreaker.CLOSED /\
     pybreaker.current_state cb' = pybreaker.CLOSED /\
     pybreaker.fail_counter cb' = pybreaker.fail_counter cb + Z.of_nat (length steps) /\
     pybreaker.fail_counter cb' < pybreaker.fail_max cb).
Proof.
  induction steps as [|[func s] rest IH]; intros cb Hne Hwf Hall; [contradiction|].
  simpl in Hall |- *.
  pose proof (failed_call_step clock cb func s) as Hstep.
  pose proof (call_keeps_config clock cb func s) as [Hmax _].
  destruct (pybreaker.call clock func (cb, s)) as [[cb1 s1] r]. simpl in Hstep, Hmax.
  destruct rest as [|step rest'].
  - simpl in *. inversion Hall as [|? ? Hr _]; subst.
    destruct (Hstep Hr Hwf) as [H | (H1 & H2 & H3 & H4)]; [left; assumption|].
    right. repeat split; auto; lia.
  - specialize (IH cb1).
    destruct (call_sequence clock (step :: rest') cb1) as [cb2 rs] eqn:E.
    simpl in Hall |- *. inversion Hall as [|? ? Hr Hrs]; subst.
    destruct (Hstep Hr Hwf) as [[H1 H2] | (H1 & H2 & H3 & H4)].
    + destruct (IH ltac:(discriminate) ltac:(intros _; exact H2) Hrs)
        as [H | (H5 & _)]; [left; assumption | congruence].
    + destruct (IH ltac:(discriminate) ltac:(intros H; congruence) Hrs)
        as [H | (H5 & H6 & H7 & H8)]; [left; assumption|].
      simpl in H6, H7, H8. right. repeat split; auto.
      * rewrite H7, H3. simpl length. lia.
      * congruence.
Qed.

End BreakerSequences.

(** C4.  From a closed breaker that has counted nothing, after [fail_max]
    calls that all failed the breaker is OPEN; from then on, any call made
    before [reset_timeout] has elapsed raises [CircuitBreakerError] and
    leaves the breaker and the world as they were, whatever the wrapped
    function: it is not invoked.  For the two backends: while the breaker
    rejects, [generate] raises that error and no POST or session is added to
    the network trace. *)
Theorem circuit_opens_after_fail_max :
  (forall (St A : Type) (clock : St -> Z) (steps : list (M St A * St))
          (cb : pybreaker.CircuitBreaker),
     1 <= pybreaker.fail_max cb ->
     pybreaker.current_state cb = pybreaker.CLOSED ->
     pybreaker.fail_counter cb = 0 ->
     length steps = Z.to_nat (pybreaker.fail_max cb) ->
     Forall (fun r => is_ok r = false) (snd (call_sequence clock steps cb)) ->
     let cb' := fst (call_sequence clock steps cb) in
     pybreaker.current_state cb' = pybreaker.OPEN /\
     exists t0, pybreaker.opened_at cb' = Some t0 /\
       forall (func : M St A) (s : St),
         clock s < t0 + 1000000 * pybreaker.reset_timeout cb ->
         pybreaker.call clock func (cb', s) = ((cb', s), inl pybreaker.still_open)) /\
  (forall (W : Type) (remote : Remote W) (cfg : Settings) (sm up : string)
          (cb : pybreaker.CircuitBreaker) (n : Net W),
     pybreaker.rejects cb (now remote n) = true ->
     (ChatGPTBackend.is_configured cfg = true ->
      ChatGPTBackend.generate remote cfg sm up (cb, n) = ((cb, n), inl pybreaker.still_open)) /\
     (CopilotBackend.is_configured cfg = true ->
      CopilotBackend.generate remote cfg sm up (cb, n) = ((cb, n), inl pybreaker.still_open))).
Proof.
  split.
  - intros St A clock steps cb Hmax Hst Hcnt Hlen Hall cb'.
    assert (Hne : steps <> []) by (destruct steps; [simpl in Hlen; lia | discriminate]).
    destruct (failed_call_sequence clock steps cb Hne ltac:(congruence) Hall)
      as [[H1 H2] | (_ & _ & H3 & H4)]; [|fold cb' in H3, H4; lia].
    fold cb' in H1, H2. split; [assumption|].
    destruct (pybreaker.opened_at cb') as [t0|] eqn:Ht; [|contradiction].
    exists t0. split; [reflexivity|]. intros func s Hs.
    apply call_rejected. unfold pybreaker.rejects. rewrite H1, Ht.
    destruct (call_sequence_keeps_config clock steps cb) as [_ Hrt].
    fold cb' in Hrt. rewrite Hrt. apply Z.ltb_lt. assumption.
  - intros W remote cfg sm up cb n Hrej.
    unfold ChatGPTBackend.generate, CopilotBackend.generate.
    split; intros ->; simpl; apply call_rejected; assumption.
Qed.

(** The statement at the scenario of section 8: three calls to an endpoint
    that is down open the breaker. *)
Lemma circuit_opens_after_fail_max_witness :
  let cb' := fst (call_sequence (now Scenario.down) Scenario.three_calls
                    (ChatGPTBackend._cb Scenario.strict)) in
  pybreaker.current_state cb' = pybreaker.OPEN /\
  exists t0, pybreaker.opened_at cb' = Some t0 /\
    forall (func : M (Net Scenario.World) string) (s : Net Scenario.World),
      now Scenario.down s
      < t0 + 1000000 * pybreaker.reset_timeout (ChatGPTBackend._cb Scenario.strict) ->
      pybreaker.call (now Scenario.down) func (cb', s) = ((cb', s), inl pybreaker.still_open).
Proof.
  apply (proj1 circuit_opens_after_fail_max (Net Scenario.World) string
           (now Scenario.down) Scenario.three_calls (ChatGPTBackend._cb Scenario.strict)).
  - simpl. lia.
  - reflexivity.
  - reflexivity.
  - reflexivity.
  - vm_compute. repeat constructor.
Defined.

(** The fourth call of that scenario: rejected, and the trace still holds
    three POSTs. *)
Example fourth_call_makes_no_post :
  let cb' := fst (call_sequence (now Scenario.down) Scenario.three_calls
                    (ChatGPTBackend._cb Scenario.strict)) in
  let log := [HttpPost "s" "p"; HttpPost "s" "p"; HttpPost "s" "p"] in
  ChatGPTBackend.generate Scenario.down Scenario.strict "s" "p" (cb', ((0, O), log))
  = ((cb', ((0, O), log)), inl pybreaker.still_open).
Proof. vm_compute. reflexivity. Qed.

(** ** Retry: attempts and waits *)



(** That call, in full: three POSTs, waits of 1 then 2 seconds, and the
    [IOError] of the last attempt re-raised. *)
Example three_attempts_two_waits :
  ChatGPTBackend._call_with_retry Scenario.down Scenario.patient "s" "p" ((0, O), [])
  = (((2000000, 3%nat),
      [HttpPost "s" "p"; Sleep 1; HttpPost "s" "p"; Sleep (2 # 1); HttpPost "s" "p"]),
     inl (Exn IOError "ChatGPT server error 503: busy")).
Proof. vm_compute. reflexivity. Qed.

(** ** One breaker outcome per call of [generate] *)

(** C7.  When the backend is configured and its breaker lets the call
    through, [generate] runs the retried call once, whatever number of
    attempts that takes, and the breaker counts one outcome: if the retried
    call returns, [generate] returns the same text and the failure counter is
    0; if it raises (retries exhausted, or an error that is not retried),
    [generate] raises and the counter has grown by exactly one. *)
Theorem one_outcome_per_generate {W : Type} (remote : Remote W) (cfg : Settings)
    (sm up : string) (cb : pybreaker.CircuitBreaker) (n : Net W) :
  pybreaker.rejects cb (now remote n) = false ->
  (ChatGPTBackend.is_configured cfg = true ->
   let retried := ChatGPTBackend._call_with_retry remote cfg sm up n in
   let result := ChatGPTBackend.generate remote cfg sm up (cb, n) in
   snd (fst result) = fst retried /\
   match snd retried with
   | inr v =>
       snd result = inr v /\ pybreaker.fail_counter (fst (fst result)) = 0
   | inl _ =>
       is_ok (snd result) = false /\
       pybreaker.fail_counter (fst (fst result)) = pybreaker.fail_counter cb + 1
   end) /\
  (CopilotBackend.is_configured cfg = true ->
   let retried := CopilotBackend._call_with_retry remote cfg sm up n in
   let result := CopilotBackend.generate remote cfg sm up (cb, n) in
   snd (fst result) = fst retried /\
   match snd retried with
   | inr v =>
       snd result = inr v /\ pybreaker.fail_counter (fst (fst result)) = 0
   | inl _ =>
       is_ok (snd result) = false /\
       pybreaker.fail_counter (fst (fst result)) = pybreaker.fail_counter cb + 1
   end).
Proof.
  intros Hadm. unfold ChatGPTBackend.generate, CopilotBackend.generate.
  split; intros ->; simpl; apply call_let_through; assumption.
Qed.

(** The statement at an endpoint that is down: three attempts, one failure
    counted. *)
Lemma one_outcome_per_generate_witness :
  let result := ChatGPTBackend.generate Scenario.down Scenario.patient "s" "p"
                  (ChatGPTBackend._cb Scenario.patient, ((0, O), [])) in
  attempts (snd (snd (fst result))) = 3%nat /\
  is_ok (snd result) = false /\
  pybreaker.fail_counter (fst (fst result)) = 1.
Proof.
  split; [vm_compute; reflexivity|].
  apply (proj1 (one_outcome_per_generate Scenario.down Scenario.patient "s" "p"
                  (ChatGPTBackend._cb Scenario.patient) ((0, O), []) eq_refl) eq_refl).
Defined.

(** A 401 is not retried and still counts as one failure. *)
Example permanent_error_counts_once :
  let result := ChatGPTBackend.generate
                  (Scenario.remote (Scenario.always (Scenario.answer 401 "Unauthorized"))
                     (inr None))
                  Scenario.patient "s" "p"
                  (ChatGPTBackend._cb Scenario.patient, ((0, O), [])) in
  snd (snd (fst result)) = [HttpPost "s" "p"] /\
  snd result = inl (Exn ValueError "ChatGPT client error 401: Unauthorized") /\
  pybreaker.fail_counter (fst (fst result)) = 1.
Proof. vm_compute. repeat split. Qed.

(** ** A backend that is not configured *)

(** C8, as stated, fails: ChatGPT without URL and key raises, and the
    failure counter of its breaker has not moved. *)
Lemma unconfigured_call_is_counted_counterexample :
  let cb := ChatGPTBackend._cb Scenario.no_chatgpt in
  let result := ChatGPTBackend.generate Scenario.down Scenario.no_chatgpt "s" "p"
                  (cb, ((0, O), [])) in
  ChatGPTBackend.is_configured Scenario.no_chatgpt = false /\
  is_ok (snd result) = false /\
  pybreaker.fail_counter (fst (fst result)) <> pybreaker.fail_counter cb + 1.
Proof. vm_compute. repeat split; discriminate. Qed.

(** C8 (amended).  When a backend is not configured, [generate] raises its
    not-configured error at once; the network trace is unchanged (no attempt,
    no wait: the retry layer is never reached) and so is the breaker, which
    does not record the call. *)
Theorem unconfigured_generate_touches_nothing {W : Type} (remote : Remote W)
    (cfg : Settings) (sm up : string) (cb : pybreaker.CircuitBreaker) (n : Net W) :
  (ChatGPTBackend.is_configured cfg = false ->
   ChatGPTBackend.generate remote cfg sm up (cb, n)
   = ((cb, n), inl (ChatGPTBackend.not_configured))) /\
  (CopilotBackend.is_configured cfg = false ->
   CopilotBackend.generate remote cfg sm up (cb, n)
   = ((cb, n), inl (CopilotBackend.not_configured))).
Proof.
  unfold ChatGPTBackend.generate, CopilotBackend.generate.
  split; intros ->; reflexivity.
Qed.

(** The statement for ChatGPT without URL and key. *)
Lemma unconfigured_generate_touches_nothing_witness :
  ChatGPTBackend.generate Scenario.down Scenario.no_chatgpt "s" "p"
    (ChatGPTBackend._cb Scenario.no_chatgpt, ((0, O), []))
  = ((ChatGPTBackend._cb Scenario.no_chatgpt, ((0, O), [])),
     inl (ChatGPTBackend.not_configured)).
Proof.
  apply (proj1 (unconfigured_generate_touches_nothing Scenario.down Scenario.no_chatgpt
                  "s" "p" (ChatGPTBackend._cb Scenario.no_chatgpt) ((0, O), []))).
  reflexivity.
Defined.

(** ** Empty answers *)

Section EmptyAnswers.
Context {W : Type} (remote : Remote W).

(** A retried call only returns what one of its attempts returned. *)
Lemma retry_loop_returns {A} (wait : Z -> Q) (retry : exn -> bool) (stop : Z -> bool)
    (fn : M (Net W) A) :
  forall fuel a n n' v,
    tenacity.retry_loop (sleep_for remote) wait retry stop fuel a fn n = (n', inr v) ->
    exists n0 n1, fn n0 = (n1, inr v).
Proof.
  induction fuel as [|r IH]; intros a n n' v; simpl;
    destruct (fn n) as [n1 [e|v0]] eqn:E.
  - destruct (retry e); [destruct (stop a)|]; discriminate.
  - intros [= <- <-]. eauto.
  - destruct (retry e); [destruct (stop a)|]; try discriminate. apply IH.
  - intros [= <- <-]. eauto.
Qed.

(** A breaker only returns what the wrapped function returned. *)
Lemma call_returns {A} (func : M (Net W) A) (cb : pybreaker.CircuitBreaker) (n : Net W)
    (v : A) :
  snd (pybreaker.call (now remote) func (cb, n)) = inr v -> snd (func n) = inr v.
Proof.
  unfold pybreaker.call, pybreaker.run_and_count. simpl.
  destruct (pybreaker.current_state cb); simpl;
    try destruct (pybreaker.rejects cb (now remote n)); simpl; try discriminate;
    destruct (func n) as [n1 [e|v0]]; simpl; auto; try discriminate;
    destruct (_ <=? _); simpl; discriminate.
Qed.

Lemma copilot_session_never_empty (cfg : Settings) (sm up : string) (n n1 : Net W)
    (v : string) :
  _run_copilot_session remote cfg sm up n = (n1, inr v) -> truthy v = true.
Proof.
  unfold _run_copilot_session, bind, emit, ask, raise, ret. simpl.
  destruct (copilot_send_and_wait remote cfg sm up (fst n)) as [w' [e|[[c|]|]]];
    simpl; try discriminate.
  destruct (truthy c) eqn:Hc; simpl; [|discriminate].
  intros [= _ <-]. assumption.
Qed.

Lemma http_call_returns_content (cfg : Settings) (sm up : string) (n : Net W) (w' : W)
    (r : Response) (c : string) :
  httpx_post remote cfg sm up (fst n) = (w', inr r) ->
  status_code r < 400 ->
  content r = inr c ->
  ChatGPTBackend._http_call remote cfg sm up n = ((w', snd n ++ [HttpPost sm up]), inr c).
Proof.
  intros Hpost Hstatus Hcontent.
  unfold ChatGPTBackend._http_call, bind, emit, ask, raise, ret. simpl.
  rewrite Hpost. simpl.
  destruct (500 <=? status_code r) eqn:H5; [apply Z.leb_le in H5; lia|].
  destruct (400 <=? status_code r) eqn:H4; [apply Z.leb_le in H4; lia|].
  rewrite Hcontent. reflexivity.
Qed.

End EmptyAnswers.

(** C9.  ChatGPT: when the backend is configured, its breaker lets the call
    through and the endpoint answers with a status below 400 and an empty
    content, [generate] returns the empty string.  Copilot: whatever
    [generate] returns is not the empty string, and a session that ends
    without an event, without a content or with an empty content raises.  In
    [_process_project_emails]: when the function returns and the last
    successful fold produced the empty string, [write_epic] was not called
    and every folded email was passed to [mark_as_seen]. *)
Theorem empty_answer_is_returned_and_acknowledged :
  (forall (W : Type) (remote : Remote W) (cfg : Settings) (sm up : string)
          (cb : pybreaker.CircuitBreaker) (n : Net W) (w' : W) (r : Response),
     ChatGPTBackend.is_configured cfg = true ->
     pybreaker.rejects cb (now remote n) = false ->
     httpx_post remote cfg sm up (fst n) = (w', inr r) ->
     status_code r < 400 ->
     content r = inr EmptyString ->
     snd (ChatGPTBackend.generate remote cfg sm up (cb, n)) = inr EmptyString) /\
  (forall (W : Type) (remote : Remote W) (cfg : Settings) (sm up : string)
          (cb : pybreaker.CircuitBreaker) (n : Net W) (s : string),
     snd (CopilotBackend.generate remote cfg sm up (cb, n)) = inr s -> s <> EmptyString) /\
  (forall (W : Type) (remote : Remote W) (cfg : Settings) (sm up : string)
          (n : Net W) (w' : W) (response_event : option (option string)),
     copilot_send_and_wait remote cfg sm up (fst n) = (w', inr response_event) ->
     response_event = None \/ response_event = Some None \/
     response_event = Some (Some EmptyString) ->
     _run_copilot_session remote cfg sm up n
     = ((w', snd n ++ [CopilotSession sm up]), inl empty_response)) /\
  (forall (G : Type) (c : Services G) (generator_generate : GenArgs -> M G string)
          (slug : string) (mails : list AgentEmail) (g g' : G) (tr : list event)
          (k : nat),
     _process_project_emails c generator_generate slug mails (g, []) = ((g', tr), inr k) ->
     last_epic None tr = Some EmptyString ->
     folded tr <> [] /\ commits tr = O /\ acked tr = folded tr).
Proof.
  split; [|split; [|split]].
  - intros W remote cfg sm up cb n w' r Hconf Hadm Hpost Hstatus Hcontent.
    unfold ChatGPTBackend.generate. rewrite Hconf. simpl.
    destruct (call_let_through (now remote) cb
                (ChatGPTBackend._call_with_retry remote cfg sm up) n Hadm) as [_ H].
    unfold ChatGPTBackend._call_with_retry, tenacity.retrying in H |- *.
    rewrite (retry_loop_success remote _ _ _ _ _ _ n _ EmptyString
               (http_call_returns_content remote cfg sm up n w' r EmptyString Hpost Hstatus Hcontent))
      in H.
    simpl in H. apply H.
  - intros W remote cfg sm up cb n s.
    unfold CopilotBackend.generate.
    destruct (CopilotBackend.is_configured cfg); simpl; [|discriminate].
    intros H. apply call_returns in H.
    unfold CopilotBackend._call_with_retry, tenacity.retrying in H.
    destruct (tenacity.retry_loop _ _ _ _ _ _ _ n) as [n' [e|v]] eqn:E; simpl in H;
      [discriminate|]. injection H as ->.
    apply retry_loop_returns in E as (n0 & n1 & E).
    apply copilot_session_never_empty in E. intros ->. discriminate.
  - intros W remote cfg sm up n w' ev Hsend Hev.
    unfold _run_copilot_session, bind, emit, ask, raise, ret. simpl.
    rewrite Hsend. destruct Hev as [-> | [-> | ->]]; reflexivity.
  - intros G c gen slug mails g g' tr k Hrun Hlast.
    destruct (process_project_emails_post c gen slug mails g g' tr (inr k) Hrun)
      as (_ & _ & _ & F4 & _).
    destruct (F4 k eq_refl) as (Ha & _ & Hc). rewrite Hlast in Hc. simpl in Hc.
    split; [|split; assumption].
    intros Hnil. rewrite (last_epic_no_fold tr Hnil) in Hlast. discriminate.
Qed.

(** The statement at the run where ChatGPT answers 200 with an empty
    content: nothing is written, the email is marked as seen. *)
Lemma empty_answer_is_returned_and_acknowledged_witness :
  let tr := Scenario.trace_of Scenario.empty_epic_run in
  folded tr <> [] /\ commits tr = O /\ acked tr = folded tr.
Proof.
  apply (proj2 (proj2 (proj2 empty_answer_is_returned_and_acknowledged))
           _
           (run_services (Scenario.services None Scenario.key (inr tt)))
           (run_generator
              (Scenario.remote (Scenario.always (Scenario.answer 200 EmptyString)) (inr None))
              (Scenario.settings "http://llm" "k" EmptyString 3 3) Scenario.prompts)
           "alpha" [Scenario.mail "1" (Some "a@example.com")]
           (Scenario.start (Scenario.settings "http://llm" "k" EmptyString 3 3))
           (fst (fst Scenario.empty_epic_run)) _ 1%nat).
  - vm_compute. reflexivity.
  - vm_compute. reflexivity.
Defined.

(** ** The facade *)

(** C3, as stated, fails: ChatGPT is configured and raises (the endpoint is
    down), Copilot has no token.  The secondary is not attempted although the
    primary raised, and the error is the not-configured one although the
    primary is configured. *)
Lemma fallback_counterexample :
  let primary := LLMClient._chatgpt Scenario.down Scenario.strict in
  let secondary := LLMClient._copilot Scenario.down Scenario.strict in
  let run := LLMClient.generate_traced primary secondary "s" "p"
               (Scenario.start Scenario.strict) in
  is_configured primary = true /\
  is_ok (snd (generate primary "s" "p" (Scenario.start Scenario.strict))) = false /\
  attempted Copilot (snd (fst run)) = false /\
  snd run = inl LLMClient.unconfigured.
Proof. vm_compute. repeat split. Qed.

(** C3 (amended).  For every call of [LLMClient.generate], over any two
    backends: ChatGPT is attempted exactly when it is configured, and its
    answer is returned when it gives one; Copilot is attempted exactly when
    it is configured and ChatGPT is unconfigured or raised (an open circuit
    included); an all-backends-unavailable error is raised only when Copilot
    was attempted and raised, the circuit-open variant only for a
    [CircuitBreakerError]; the not-configured error is raised only when
    Copilot is not configured, and always when neither backend is. *)
Theorem fallback_to_secondary {X : Type} (primary secondary : Backend X)
    (sm up : string) (x : X) :
  let run := LLMClient.generate_traced primary secondary sm up x in
  let called := snd (fst run) in
  let x1 := fst (fst (LLMClient.try_primary primary sm up x)) in
  (attempted ChatGPT called = true <-> is_configured primary = true) /\
  (forall v, is_configured primary = true ->
     snd (generate primary sm up x) = inr v -> snd run = inr v) /\
  (attempted Copilot called = true <->
   is_configured secondary = true /\
   (is_configured primary = false \/ is_ok (snd (generate primary sm up x)) = false)) /\
  (forall e, snd run = inl e -> e <> LLMClient.unconfigured ->
     attempted Copilot called = true /\
     exists exc, snd (generate secondary sm up x1) = inl exc /\
       e = if isinstance exc [CircuitBreakerError]
           then LLMClient.circuit_open else LLMClient.both_failed exc) /\
  (snd run = inl LLMClient.unconfigured -> is_configured secondary = false) /\
  (is_configured primary = false -> is_configured secondary = false ->
   snd run = inl LLMClient.unconfigured).
Proof.
  unfold LLMClient.generate_traced, LLMClient.try_primary. cbv zeta.
  destruct (is_configured primary) eqn:Hp;
    [destruct (generate primary sm up x) as [xp [ep|vp]] eqn:Ep|];
    cbn [fst snd];
    try (destruct (is_configured secondary) eqn:Hs;
         [destruct (generate secondary sm up _) as [xs [es|vs]] eqn:Es;
          [destruct (isinstance es [CircuitBreakerError]) eqn:Hcb|]|]);
    cbn [fst snd app attempted existsb backend_id_eqb orb is_ok].
  all: (split; [|split; [|split; [|split; [|split]]]]).
  all: try (split; intros; congruence).
  all: try (intros; congruence).
  all: try (intros; discriminate).
  all: try (split; [intros _; split; [reflexivity | auto] | reflexivity]).
  all: try (intros e [= <-] Hne; split; [reflexivity|];
            exists es; rewrite Hcb; split; reflexivity).
  all: try (split; [discriminate | intros [_ [H | H]]; discriminate]).
  all: try (split; [discriminate | intros [H _]; discriminate]).
Qed.

(** The statement at a run where the endpoint is down and Copilot answers:
    both backends are attempted and the answer is Copilot's. *)
Lemma fallback_to_secondary_witness :
  let primary := LLMClient._chatgpt Scenario.copilot_only Scenario.both in
  let secondary := LLMClient._copilot Scenario.copilot_only Scenario.both in
  let run := LLMClient.generate_traced primary secondary "s" "p"
               (Scenario.start Scenario.both) in
  (snd (fst run) = [ChatGPT; Copilot] /\ snd run = inr "# From Copilot") /\
  (attempted Copilot (snd (fst run)) = true <->
   is_configured secondary = true /\
   (is_configured primary = false \/
    is_ok (snd (generate primary "s" "p" (Scenario.start Scenario.both))) = false)).
Proof.
  split; [vm_compute; split; reflexivity|].
  exact (proj1 (proj2 (proj2
           (fallback_to_secondary
              (LLMClient._chatgpt Scenario.copilot_only Scenario.both)
              (LLMClient._copilot Scenario.copilot_only Scenario.both)
              "s" "p" (Scenario.start Scenario.both))))).
Defined.

(** ** Computations that only extend the trace *)

Lemma framed_ret {G A} (a : A) : framed (G := G) (ret a).
Proof. intros g tr0. unfold ret. simpl. rewrite app_nil_r. reflexivity. Qed.

Lemma framed_raise {G A} (e : exn) : framed (G := G) (A := A) (raise e).
Proof. intros g tr0. unfold raise. simpl. rewrite app_nil_r. reflexivity. Qed.

Lemma framed_note {G} (ev : event) : framed (G := G) (note ev).
Proof. intros g tr0. reflexivity. Qed.

Lemma framed_invoke {G A} (f : M G A) (ev : exn + A -> event) : framed (invoke f ev).
Proof. intros g tr0. unfold invoke. simpl. destruct (f g) as [g' r]. reflexivity. Qed.

Lemma framed_quiet {G A} (f : M G A) : framed (quiet f).
Proof.
  intros g tr0. unfold quiet. simpl. destruct (f g) as [g' r].
  rewrite app_nil_r. reflexivity.
Qed.

Lemma framed_bind {G A B} (m : M (G * list event) A) (k : A -> M (G * list event) B) :
  framed m -> (forall a, framed (k a)) -> framed (bind m k).
Proof.
  intros Hm Hk g tr0. unfold bind. rewrite (Hm g tr0).
  destruct (m (g, [])) as [[g1 t1] [e|a]]; [reflexivity|].
  rewrite (Hk a g1 (tr0 ++ t1)), (Hk a g1 t1).
  destruct (k a (g1, [])) as [[g2 t2] r]. rewrite app_assoc. reflexivity.
Qed.

Lemma framed_attempt {G A} (m : M (G * list event) A) : framed m -> framed (attempt m).
Proof.
  intros Hm g tr0. unfold attempt. rewrite (Hm g tr0).
  destruct (m (g, [])) as [[g1 t1] r]. reflexivity.
Qed.

Ltac framed_steps :=
  repeat first
    [ apply framed_ret | apply framed_raise | apply framed_note | apply framed_invoke
    | apply framed_quiet | apply framed_attempt | apply framed_bind
    | match goal with
      | |- forall _, _ => intro
      | |- framed (match ?x with _ => _ end) => destruct x
      | |- framed (if ?b then _ else _) => destruct b
      end ].

Section FramedOrchestrator.
Context {G : Type}.
Variable c : Services G.
Variable generator_generate : GenArgs -> M G string.

Lemma framed_process_email (mail : AgentEmail) (st : LoopState) :
  framed (process_email c generator_generate mail st).
Proof. unfold process_email, _resolve_extension_rules. framed_steps. Qed.

Lemma framed_process_emails (mails : list AgentEmail) :
  forall st, framed (process_emails c generator_generate mails st).
Proof.
  induction mails as [|mail rest IH]; intros st; simpl.
  - apply framed_ret.
  - apply framed_bind; [apply framed_process_email | intros st'; apply IH].
Qed.

Lemma framed_mark_all_as_seen (uids : list string) : framed (mark_all_as_seen c uids).
Proof.
  induction uids as [|u rest IH]; simpl.
  - apply framed_ret.
  - apply framed_bind; [apply framed_invoke | intros _; apply IH].
Qed.

Lemma framed_commit_and_acknowledge (slug name : string) (st : LoopState) :
  framed (commit_and_acknowledge c slug name st).
Proof.
  unfold commit_and_acknowledge.
  destruct (processed_uids st); [apply framed_ret|].
  apply framed_bind; [framed_steps|]. intros _.
  apply framed_bind; [framed_steps|]. intros _.
  apply framed_bind; [apply framed_mark_all_as_seen|]. intros _. apply framed_ret.
Qed.

Lemma framed_process_project_emails (slug : string) (mails : list AgentEmail) :
  framed (_process_project_emails c generator_generate slug mails).
Proof.
  unfold _process_project_emails.
  apply framed_bind; [apply framed_invoke|]. intros bucket.
  apply framed_bind; [apply framed_invoke|]. intros baseline.
  apply framed_bind; [framed_steps|]. intros name.
  apply framed_bind; [apply framed_process_emails|]. intros st.
  apply framed_commit_and_acknowledge.
Qed.

End FramedOrchestrator.

(** ** Traces of a run: concatenation and the two phases *)

Lemma ensured_app (a b : list event) : ensured (a ++ b) = ensured a ++ ensured b.
Proof. by_event_induction a. Qed.

Lemma rule_reads_app (a b : list event) : rule_reads (a ++ b) = rule_reads a ++ rule_reads b.
Proof. by_event_induction a. Qed.

Lemma rule_writes_app (a b : list event) :
  rule_writes (a ++ b) = rule_writes a ++ rule_writes b.
Proof. by_event_induction a. Qed.

Lemma epic_writes_app (a b : list event) :
  epic_writes (a ++ b) = epic_writes a ++ epic_writes b.
Proof. by_event_induction a. Qed.

Lemma commits_to_app (slug : string) (a b : list event) :
  commits_to slug (a ++ b) = (commits_to slug a + commits_to slug b)%nat.
Proof. unfold commits_to. rewrite epic_writes_app, filter_app, length_app. reflexivity. Qed.

Lemma loop_events_write_nothing (tr : list event) :
  forallb loop_event tr = true ->
  rule_writes tr = [] /\ epic_writes tr = [] /\ ensured tr = [].
Proof.
  induction tr as [|ev tr IH]; simpl; intros H; [auto|].
  apply andb_prop in H as [Hev Htr]. destruct (IH Htr) as (Hr & He & Hb).
  destruct ev; simpl in Hev; try discriminate; auto.
Qed.

Lemma final_events_read_nothing (tr : list event) :
  forallb final_event tr = true -> rule_reads tr = [] /\ ensured tr = [].
Proof.
  induction tr as [|ev tr IH]; simpl; intros H; [auto|].
  apply andb_prop in H as [Hev Htr]. destruct (IH Htr) as (Hr & Hb).
  destruct ev; simpl in Hev; try discriminate; auto.
Qed.

Lemma folded_within_fold_uids (tr : list event) : subseq (folded tr) (fold_uids tr).
Proof.
  induction tr as [|ev tr IH]; simpl; [apply subseq_nil|].
  destruct ev; auto. destruct outcome; [apply subseq_skip | apply subseq_take]; assumption.
Qed.

Lemma subseq_length {A} (a b : list A) : subseq a b -> (length a <= length b)%nat.
Proof. induction 1; simpl; lia. Qed.

Lemma latest_rules_truthy (mails : list AgentEmail) :
  forall pending, truthy_opt pending = true ->
    truthy_opt (latest_rules pending mails) = true.
Proof.
  induction mails as [|mail rest IH]; intros pending H; simpl; [assumption|].
  apply IH. destruct (truthy_opt (extension_rules mail)) eqn:E; assumption.
Qed.

(** ** The extension rules in the loop *)

Section RulesFacts.
Context {G : Type}.
Variable c : Services G.
Variable generator_generate : GenArgs -> M G string.

Ltac loop_cases :=
  repeat (first
    [ match goal with
      | |- context [truthy_opt ?x] => destruct (truthy_opt x) eqn:?
      end
    | match goal with
      | |- context [s3_read_extension_rules c ?a ?g] =>
          destruct (s3_read_extension_rules c a g) as [? [?|?]] eqn:?
      end
    | match goal with
      | |- context [generator_generate ?a ?g] =>
          destruct (generator_generate a g) as [? [?|?]] eqn:?
      end
    | match goal with
      | |- context [sender ?m] => destruct (sender m) eqn:?
      end
    | match goal with
      | |- context [truthy ?x] => destruct (truthy x) eqn:?
      end
    | match goal with
      | |- context [smtp_send_reply c ?a ?b ?d ?e ?f ?g] =>
          destruct (smtp_send_reply c a b d e f g) as [? [?|?]] eqn:?
      end ]; simpl).

(** One iteration: the rules kept and the S3 lookups made. *)
Lemma process_email_rules (mail : AgentEmail) (st : LoopState) (g : G) (tr : list event) :
  exists g' new st',
    process_email c generator_generate mail st (g, tr) = ((g', tr ++ new), inr st')
    /\ rules_post [mail] st new st'.
Proof.
  unfold process_email, _resolve_extension_rules, bind, note, attempt, invoke, ret.
  unfold rules_post, latest_rules.
  simpl. loop_cases; simpl;
    rewrite <- ?app_assoc; simpl;
    (do 3 eexists; split; [reflexivity|]);
    simpl; rewrite ?app_nil_r; split; congruence.
Qed.

Lemma rules_post_cons (mail : AgentEmail) (rest : list AgentEmail) (st st1 st2 : LoopState)
    (n1 n2 : list event) :
  rules_post [mail] st n1 st1 -> rules_post rest st1 n2 st2 ->
  rules_post (mail :: rest) st (n1 ++ n2) st2.
Proof.
  unfold rules_post. simpl. intros [A1 A2] [B1 B2].
  rewrite rule_reads_app, A2, B2, B1, A1. split; [reflexivity|].
  destruct (truthy_opt (accumulated_extension_rules st)) eqn:Hp;
    destruct (truthy_opt (extension_rules mail)) eqn:Hm; simpl;
    rewrite ?Hp, ?Hm, ?app_nil_r; reflexivity.
Qed.

Lemma process_emails_rules (mails : list AgentEmail) :
  forall (st : LoopState) (g : G) (tr : list event),
  exists g' new st',
    process_emails c generator_generate mails st (g, tr) = ((g', tr ++ new), inr st')
    /\ rules_post mails st new st'.
Proof.
  induction mails as [|mail rest IH]; intros st g tr; simpl.
  - exists g, [], st. rewrite app_nil_r. split; [reflexivity|].
    unfold rules_post. simpl.
    destruct (truthy_opt (accumulated_extension_rules st)); auto.
  - destruct (process_email_rules mail st g tr) as (g1 & n1 & st1 & E1 & P1).
    destruct (IH st1 g1 (tr ++ n1)) as (g2 & n2 & st2 & E2 & P2).
    exists g2, (n1 ++ n2), st2. split.
    + unfold bind. rewrite E1, E2, app_assoc. reflexivity.
    + apply (rules_post_cons mail rest st st1 st2); assumption.
Qed.

(** The acknowledgments write nothing. *)
Lemma mark_all_as_seen_writes (uids : list string) :
  forall (g : G) (tr : list event),
  exists g' acks res,
    mark_all_as_seen c uids (g, tr) = ((g', tr ++ acks), res)
    /\ rule_writes acks = [] /\ epic_writes acks = [].
Proof.
  induction uids as [|u rest IH]; intros g tr; simpl.
  - exists g, [], (inr tt). rewrite app_nil_r. auto.
  - unfold bind, invoke; simpl.
    destruct (email_mark_as_seen c u g) as [g1 [e | []]] eqn:E.
    + exists g1, [Ev_mark_as_seen u (inl e)], (inl e). auto.
    + destruct (IH g1 (tr ++ [Ev_mark_as_seen u (inr tt)])) as (g2 & acks & res & E2 & Q).
      exists g2, (Ev_mark_as_seen u (inr tt) :: acks), res. split; [|exact Q].
      rewrite E2, <- app_assoc. reflexivity.
Qed.

(** The steps after the loop: what is written, and for which project. *)
Lemma commit_and_acknowledge_writes (slug name : string) (st : LoopState) (g : G)
    (tr : list event) :
  exists g' fin res,
    commit_and_acknowledge c slug name st (g, tr) = ((g', tr ++ fin), res)
    /\ writes_post slug st fin.
Proof.
  unfold commit_and_acknowledge, writes_post, rules_to_write.
  destruct (processed_uids st) as [|u us] eqn:Hp.
  { exists g, [], (inr O). rewrite app_nil_r. simpl. auto. }
  assert (Hne : processed_uids st <> []) by (rewrite Hp; discriminate).
  rewrite <- Hp. unfold bind, invoke, ret; simpl.
  destruct (accumulated_extension_rules st) as [rules|];
    [destruct (truthy rules)|]; simpl.
  all: try match goal with
       | |- context [s3_write_extension_rules c ?s ?r ?g0] =>
           destruct (s3_write_extension_rules c s r g0) as [g1 [e1|k1]]; simpl
       end.
  all: try (destruct (accumulated_epic st) as [epic|] eqn:Hepic;
            [destruct (truthy epic) eqn:Htruthy|]; simpl).
  all: try match goal with
       | |- context [s3_write_epic c ?s ?r ?n ?g0] =>
           destruct (s3_write_epic c s r n g0) as [g2 [e2|k2]]; simpl
       end.
  all: try match goal with
       | |- context [mark_all_as_seen c ?uids (?g0, ?t0)] =>
           destruct (mark_all_as_seen_writes uids g0 t0) as (g3 & acks & res & E & Q1 & Q2);
           rewrite E; rewrite <- ?app_assoc; simpl;
           exists g3; eexists;
           exists (match res with
                   | inl e => inl e
                   | inr _ => inr (length (processed_uids st))
                   end);
           (split; [destruct res; reflexivity|]);
           simpl; rewrite ?Q1, ?Q2; split; [reflexivity|];
           first [ left; reflexivity
                 | right; eexists; split; [reflexivity | split; [reflexivity | auto]] ]
       end.
  all: rewrite <- ?app_assoc; simpl.
  all: do 3 eexists; (split; [reflexivity|]).
  all: simpl; split; [reflexivity|];
       first [ left; reflexivity
             | right; eexists; split; [reflexivity | split; [reflexivity | auto]] ].
Qed.

(** The loop, with all that is known about it. *)
Lemma process_emails_full (mails : list AgentEmail) (st : LoopState) (g : G)
    (tr : list event) :
  exists g' new st',
    process_emails c generator_generate mails st (g, tr) = ((g', tr ++ new), inr st')
    /\ loop_post (map uid mails) st new st' /\ rules_post mails st new st'.
Proof.
  destruct (process_emails_post c generator_generate mails st g tr)
    as (g1 & n1 & st1 & E1 & P1).
  destruct (process_emails_rules mails st g tr) as (g2 & n2 & st2 & E2 & P2).
  rewrite E1 in E2. injection E2 as -> Hn ->. apply app_inv_head in Hn. subst n2.
  exists g2, n1, st2. auto.
Qed.

(** The steps after the loop, with all that is known about them. *)
Lemma commit_and_acknowledge_full (slug name : string) (st : LoopState) (g : G)
    (tr : list event) :
  exists g' fin res,
    commit_and_acknowledge c slug name st (g, tr) = ((g', tr ++ fin), res)
    /\ final_post st fin res /\ writes_post slug st fin.
Proof.
  destruct (commit_and_acknowledge_post c slug name st g tr)
    as (g1 & n1 & r1 & E1 & P1).
  destruct (commit_and_acknowledge_writes slug name st g tr) as (g2 & n2 & r2 & E2 & P2).
  rewrite E1 in E2. injection E2 as -> Hn ->. apply app_inv_head in Hn. subst n2.
  exists g2, n1, r2. auto.
Qed.

(** A run that reached the loop: what it read and wrote. *)
Lemma partition_io_intro (slug bucket : string) (baseline : option string)
    (mails : list AgentEmail) (new fin : list event) (st : LoopState) (res : exn + nat) :
  loop_post (map uid mails)
    {| accumulated_epic := baseline; accumulated_extension_rules := None;
       processed_uids := [] |} new st ->
  rules_post mails
    {| accumulated_epic := baseline; accumulated_extension_rules := None;
       processed_uids := [] |} new st ->
  final_post st fin res ->
  writes_post slug st fin ->
  partition_io slug mails
    (Ev_ensure_bucket slug (inr bucket)
     :: Ev_read_latest_epic slug (inr baseline) :: new ++ fin) res.
Proof.
  intros (A1 & A2 & A3 & A4 & A5 & A6 & A7) (R1 & R2)
         (B1 & B2 & (more & B3) & B4 & B5 & B6 & B7 & B8) (W1 & W2).
  simpl in A4, A5, A6, R1, R2.
  destruct (loop_events_quiet new A1) as (Lc & La & Lf).
  destruct (loop_events_write_nothing new A1) as (Lr & Le & Lb).
  destruct (final_events_quiet fin B1) as (Ff & Fv & Fu & Fc & Fl).
  destruct (final_events_read_nothing fin B1) as (Fr & Fb).
  assert (Hlast : last_epic None (new ++ fin) = last_epic None new)
    by (rewrite last_epic_app; apply Fc).
  unfold partition_io; simpl.
  rewrite ensured_app, epic_writes_app, rule_writes_app, rule_reads_app, folded_app,
    acked_app, Hlast.
  rewrite Lb, Fb, Le, Lr, Fr, Ff, La, R2, !app_nil_r. simpl.
  split; [reflexivity|]. split; [|split; [|split; [|split]]].
  - destruct W2 as [W2 | (epic & W2 & W3 & W4 & W5)]; [left; assumption|].
    right. exists epic. rewrite A6 in W5.
    split; [assumption|]. split; [|split; assumption].
    rewrite <- W3, A5. apply last_epic_some_fold. assumption.
  - rewrite W1. unfold rules_to_write. rewrite A6, R1. reflexivity.
  - right. reflexivity.
  - intros _ _. reflexivity.
  - intros n Hn. destruct (B5 n Hn) as (K1 & K2 & K3).
    rewrite K1, K2, A6. split; [|reflexivity].
    rewrite <- (length_map uid mails).
    apply Nat.le_trans with (length (fold_uids new)).
    + apply subseq_length, folded_within_fold_uids.
    + apply subseq_length. assumption.
Qed.

(** Every run of [_process_project_emails] satisfies [partition_io] and
    [partition_post], from whatever trace it starts. *)
Lemma process_project_emails_io (slug : string) (mails : list AgentEmail) (g : G)
    (tr0 : list event) :
  exists g' tr res,
    _process_project_emails c generator_generate slug mails (g, tr0)
      = ((g', tr0 ++ tr), res)
    /\ partition_io slug mails tr res
    /\ partition_post slug (map uid mails) tr res.
Proof.
  rewrite (framed_process_project_emails c generator_generate slug mails g tr0).
  destruct (_process_project_emails c generator_generate slug mails (g, []))
    as [[g' tr] res] eqn:E.
  exists g', tr, res. split; [reflexivity|].
  split; [|exact (process_project_emails_post c generator_generate slug mails g g' tr res E)].
  revert E. unfold _process_project_emails, bind, invoke, raise, ret; simpl.
  destruct (s3_ensure_bucket c slug g) as [g1 [e|bucket]]; simpl.
  { intros [= <- <- <-]. unfold partition_io. simpl.
    repeat split; auto; try discriminate. intros b [H | []]; discriminate. }
  destruct (s3_read_latest_epic c slug g1) as [g2 [e|baseline]]; simpl.
  { intros [= <- <- <-]. unfold partition_io. simpl.
    repeat split; auto; try discriminate. intros b [H | [H | []]]; discriminate. }
  destruct mails as [|first rest].
  { simpl. intros [= <- <- <-]. unfold partition_io. simpl.
    repeat split; auto; discriminate. }
  cbn [fst snd].
  destruct (process_emails_full (first :: rest)
              {| accumulated_epic := baseline; accumulated_extension_rules := None;
                 processed_uids := [] |}
              g2 [Ev_ensure_bucket slug (inr bucket);
                  Ev_read_latest_epic slug (inr baseline)])
    as (g3 & new & st & E & P & R).
  rewrite E.
  destruct (commit_and_acknowledge_full slug (project_name first) st g3
              ([Ev_ensure_bucket slug (inr bucket);
                Ev_read_latest_epic slug (inr baseline)] ++ new))
    as (g4 & fin & res' & E' & F & W).
  rewrite E'. intros [= <- <- <-].
  exact (partition_io_intro slug bucket baseline _ new fin st res' P R F W).
Qed.

End RulesFacts.

(** ** Grouping the emails by project *)

Lemma of_project_app (slug : string) (a b : list AgentEmail) :
  of_project slug (a ++ b) = of_project slug a ++ of_project slug b.
Proof. apply filter_app. Qed.

Lemma of_project_absent (slug : string) (emails : list AgentEmail) :
  ~ In slug (map project_slug emails) -> of_project slug emails = [].
Proof.
  induction emails as [|mail rest IH]; simpl; intros H; [reflexivity|].
  destruct (String.eqb_spec (project_slug mail) slug) as [E | E].
  - exfalso. apply H. left. assumption.
  - apply IH. intros Hin. apply H. right. assumption.
Qed.

Lemma grouped_other (mail : AgentEmail) (emails : list AgentEmail) (keys : list string) :
  ~ In (project_slug mail) keys ->
  grouped (emails ++ [mail]) keys = grouped emails keys.
Proof.
  intros H. unfold grouped. apply map_ext_in. intros slug Hin.
  rewrite of_project_app. simpl.
  destruct (String.eqb_spec (project_slug mail) slug) as [E | E].
  - exfalso. apply H. rewrite E. assumption.
  - rewrite app_nil_r. reflexivity.
Qed.

Lemma append_to_project_grouped (mail : AgentEmail) (emails : list AgentEmail)
    (keys : list string) :
  NoDup keys ->
  (~ In (project_slug mail) keys -> of_project (project_slug mail) emails = []) ->
  append_to_project mail (grouped emails keys)
  = grouped (emails ++ [mail])
      (if in_dec string_dec (project_slug mail) keys then keys
       else keys ++ [project_slug mail]).
Proof.
  induction keys as [|k ks IH]; intros Hnd Habsent.
  - simpl. unfold grouped. simpl. rewrite of_project_app, Habsent by auto.
    simpl. rewrite String.eqb_refl. reflexivity.
  - inversion Hnd as [|? ? Hk Hks]; subst. simpl.
    destruct (String.eqb_spec k (project_slug mail)) as [E | E].
    + subst k. destruct (string_dec (project_slug mail) (project_slug mail)) as [? | N];
        [|contradiction].
      unfold grouped at 2. simpl. fold (grouped (emails ++ [mail]) ks).
      rewrite of_project_app. simpl. rewrite String.eqb_refl.
      rewrite grouped_other by assumption. reflexivity.
    + destruct (string_dec k (project_slug mail)) as [N | ?]; [contradiction|].
      rewrite IH.
      * destruct (in_dec string_dec (project_slug mail) ks) as [Hin | Hout];
          unfold grouped; simpl; rewrite of_project_app; simpl;
          destruct (String.eqb_spec (project_slug mail) k) as [E' | _];
          try (symmetry in E'; contradiction); rewrite app_nil_r; reflexivity.
      * assumption.
      * intros Hout. apply Habsent. intros [H | H]; [contradiction | auto].
Qed.

Lemma first_seen_snoc (slugs : list string) (slug : string) :
  first_seen (slugs ++ [slug])
  = if in_dec string_dec slug (first_seen slugs) then first_seen slugs
    else first_seen slugs ++ [slug].
Proof.
  unfold first_seen. rewrite rev_app_distr. simpl.
  destruct (in_dec string_dec slug (rev slugs)) as [Hin | Hout];
    destruct (in_dec string_dec slug (rev (nodup string_dec (rev slugs)))) as [Hin' | Hout'];
    try reflexivity; exfalso.
  - apply Hout'. apply -> in_rev. apply nodup_In. assumption.
  - apply Hout. apply in_rev in Hin'. apply nodup_In in Hin'. assumption.
Qed.

Lemma first_seen_NoDup (slugs : list string) : NoDup (first_seen slugs).
Proof. unfold first_seen. apply NoDup_rev, NoDup_nodup. Qed.

Lemma first_seen_In (slugs : list string) (slug : string) :
  In slug (first_seen slugs) <-> In slug slugs.
Proof.
  unfold first_seen. rewrite <- in_rev, nodup_In, <- in_rev. reflexivity.
Qed.

(** The dict [run] builds: one entry per project, in the order the projects
    first appear, holding the emails of that project in arrival order. *)
Lemma group_by_project_grouped (emails : list AgentEmail) :
  group_by_project emails = grouped emails (first_seen (map project_slug emails)).
Proof.
  unfold group_by_project.
  induction emails as [|mail emails IH] using rev_ind; [reflexivity|].
  rewrite fold_left_app. simpl. rewrite IH, map_app. simpl.
  rewrite first_seen_snoc. apply append_to_project_grouped.
  - apply first_seen_NoDup.
  - intros H. apply of_project_absent. rewrite <- first_seen_In. assumption.
Qed.

Lemma grouped_length (emails : list AgentEmail) (keys : list string) :
  NoDup keys ->
  length (concat (map snd (grouped emails keys)))
  = length (filter (fun mail => existsb (String.eqb (project_slug mail)) keys) emails).
Proof.
  induction keys as [|k ks IH]; intros Hnd.
  - simpl. induction emails as [|mail rest IHe]; [reflexivity | exact IHe].
  - inversion Hnd as [|? ? Hk Hks]; subst.
    unfold grouped. simpl. fold (grouped emails ks).
    rewrite length_app, (IH Hks). clear IH.
    induction emails as [|mail rest IHe]; [reflexivity|]. simpl.
    destruct (String.eqb_spec (project_slug mail) k) as [E | E]; simpl.
    + destruct (existsb (String.eqb (project_slug mail)) ks) eqn:Hex.
      * exfalso. apply existsb_exists in Hex as (k' & Hin & Heq).
        apply String.eqb_eq in Heq. apply Hk. congruence.
      * simpl. rewrite <- IHe. reflexivity.
    + destruct (existsb (String.eqb (project_slug mail)) ks); simpl; rewrite <- IHe; lia.
Qed.

Lemma group_by_project_length (emails : list AgentEmail) :
  length (concat (map snd (group_by_project emails))) = length emails.
Proof.
  rewrite group_by_project_grouped, grouped_length by apply first_seen_NoDup.
  f_equal. apply forallb_filter_id. apply forallb_forall. intros mail Hin.
  apply existsb_exists. exists (project_slug mail). split.
  - apply first_seen_In. apply in_map. assumption.
  - apply String.eqb_refl.
Qed.

Lemma group_by_project_keys (emails : list AgentEmail) :
  map fst (group_by_project emails) = first_seen (map project_slug emails).
Proof.
  rewrite group_by_project_grouped. unfold grouped. rewrite map_map. simpl.
  apply map_id.
Qed.

(** ** The loop over the projects *)

Lemma commits_to_le (slug other : string) (tr : list event) (res : exn + nat)
    (mails : list AgentEmail) :
  partition_io slug mails tr res ->
  (commits_to other tr <= if string_dec slug other then 1 else 0)%nat.
Proof.
  intros (_ & [E | (epic & E & _)] & _); unfold commits_to; rewrite E; simpl.
  - destruct (string_dec slug other); lia.
  - destruct (String.eqb_spec slug other) as [H | H];
      destruct (string_dec slug other); simpl; try lia; contradiction.
Qed.

Section RunFacts.
Context {G : Type}.
Variable c : Services G.
Variable generator_generate : GenArgs -> M G string.
Variable mailbox : Mailbox G.
Variable flush_to_s3 : M G unit.

Lemma process_projects_post (groups : list (string * list AgentEmail)) :
  forall (k : Counters) (g : G) (tr0 : list event),
  exists g' tr k',
    process_projects c generator_generate groups k (g, tr0) = ((g', tr0 ++ tr), inr k')
    /\ projects_post groups k tr k'.
Proof.
  induction groups as [|[slug mails] rest IH]; intros k g tr0.
  - exists g, [], k. simpl. rewrite app_nil_r. split; [reflexivity|].
    unfold projects_post. simpl. repeat split; try lia. intros s. reflexivity.
  - simpl. unfold bind, attempt.
    destruct (process_project_emails_io c generator_generate slug mails g tr0)
      as (g1 & tr1 & res & E & IO & P).
    rewrite E.
    match goal with
    | |- context [process_projects _ _ rest ?k1 _] =>
        destruct (IH k1 g1 (tr0 ++ tr1)) as (g2 & tr2 & k2 & E2 & Q)
    end.
    exists g2, (tr1 ++ tr2), k2. split; [rewrite E2, app_assoc; reflexivity|].
    destruct Q as (Q1 & Q2 & Q3 & Q4 & Q5 & Q6).
    pose proof (commits_to_le slug) as Hc.
    destruct IO as (I1 & I2 & I3 & I4 & I5 & I6).
    unfold projects_post. simpl.
    rewrite ensured_app, I1, Q1, acked_app, !length_app.
    split; [reflexivity|]. split.
    { intros s. rewrite commits_to_app.
      specialize (Q2 s).
      assert (H1 : (commits_to s tr1 <= if string_dec slug s then 1 else 0)%nat).
      { apply (Hc s tr1 res mails). unfold partition_io. auto 10. }
      destruct (string_dec slug s); lia. }
    destruct res as [e | n]; simpl in Q3, Q4, Q5, Q6.
    + repeat split; lia.
    + destruct (I6 n eq_refl) as [Hle Hn]. repeat split; lia.
Qed.

(** [run] from an empty trace: the outcome of the connection and of the
    fetch decides everything else. *)
Lemma run_fatal_connect (g g1 : G) (e : exn) :
  email_connect mailbox g = (g1, inl e) ->
  exists g' o,
    run c generator_generate mailbox flush_to_s3 (g, [])
    = ((g', [Ev_ensure_bucket _LOG_PROJECT_SLUG o]),
       inr {| processed := 0; errors := 1 |}).
Proof.
  intros H. unfold run, with_email_client, bind, quiet, attempt, invoke. simpl.
  rewrite H. simpl.
  destruct (s3_ensure_bucket c _LOG_PROJECT_SLUG g1) as [g2 [e2 | b]]; simpl.
  - exists g2, (inl e2). reflexivity.
  - destruct (flush_to_s3 g2) as [g3 r]. exists g3, (inr b). reflexivity.
Qed.

Lemma run_fatal_fetch (g g1 g2 : G) (e : exn) :
  email_connect mailbox g = (g1, inr tt) ->
  email_fetch_unread_jarvis_emails mailbox g1 = (g2, inl e) ->
  exists g' o,
    run c generator_generate mailbox flush_to_s3 (g, [])
    = ((g', [Ev_ensure_bucket _LOG_PROJECT_SLUG o]),
       inr {| processed := 0; errors := 1 |}).
Proof.
  intros H1 H2.
  unfold run, with_email_client, fetch_and_process, bind, quiet, attempt, invoke. simpl.
  rewrite H1. simpl. rewrite H2. simpl.
  destruct (s3_ensure_bucket c _LOG_PROJECT_SLUG (email_disconnect mailbox g2))
    as [g3 [e3 | b]]; simpl.
  - exists g3, (inl e3). reflexivity.
  - destruct (flush_to_s3 g3) as [g4 r]. exists g4, (inr b). reflexivity.
Qed.

Lemma run_fetched (g g1 g2 : G) (emails : list AgentEmail) :
  email_connect mailbox g = (g1, inr tt) ->
  email_fetch_unread_jarvis_emails mailbox g1 = (g2, inr emails) ->
  exists g' tr o k,
    run c generator_generate mailbox flush_to_s3 (g, [])
    = ((g', tr ++ [Ev_ensure_bucket _LOG_PROJECT_SLUG o]), inr k)
    /\ projects_post (group_by_project emails) {| processed := 0; errors := 0 |} tr k.
Proof.
  intros H1 H2.
  unfold run, with_email_client, fetch_and_process, bind, quiet, attempt, invoke. simpl.
  rewrite H1. simpl. rewrite H2. simpl.
  destruct (process_projects_post (group_by_project emails)
              {| processed := 0; errors := 0 |} g2 [])
    as (g3 & tr & k & E & P).
  simpl in E.
  assert (Hbody :
    (match emails with
     | [] => ret {| processed := 0; errors := 0 |}
     | _ :: _ =>
         process_projects c generator_generate (group_by_project emails)
           {| processed := 0; errors := 0 |}
     end) (g2, []) = ((g3, tr), inr k)).
  { destruct emails; [|exact E]. simpl in E. exact E. }
  rewrite Hbody. simpl.
  destruct (s3_ensure_bucket c _LOG_PROJECT_SLUG (email_disconnect mailbox g3))
    as [g4 [e4 | b]]; simpl.
  - exists g4, tr, (inl e4), k. auto.
  - destruct (flush_to_s3 g4) as [g5 r]. exists g5, tr, (inr b), k. auto.
Qed.

End RunFacts.

(** ** The extension rules of a project *)

(** X1.  In one run of [_process_project_emails], the rules stored in S3
    are looked up once for every email that comes before the first email
    with rules attached, in order, and never for a later email: the lookup
    is the last resort of [_resolve_extension_rules], and its result is not
    kept from one email to the next.  A run that did not reach the loop
    looks nothing up. *)
Theorem stored_rules_read_until_first_attachment {G : Type} (c : Services G)
    (generator_generate : GenArgs -> M G string) (slug : string)
    (mails : list AgentEmail) (g : G) :
  let tr := snd (fst (_process_project_emails c generator_generate slug mails (g, []))) in
  (rule_reads tr = [] \/
   rule_reads tr = map project_slug (leading_without_rules mails)) /\
  ((exists baseline, In (Ev_read_latest_epic slug (inr baseline)) tr) ->
   rule_reads tr = map project_slug (leading_without_rules mails)).
Proof.
  destruct (process_project_emails_io c generator_generate slug mails g [])
    as (g' & tr & res & E & (_ & _ & _ & R1 & R2 & _) & _).
  rewrite E. simpl. split; [exact R1|]. intros [baseline H]. exact (R2 baseline H).
Qed.

(** X2.  In one run of [_process_project_emails], [write_extension_rules]
    is called at most once: exactly when some fold returned and some email
    attached non-empty rules, for the project of the run and with the rules
    of the last email that attached some, whether the fold of that email
    returned or raised. *)
Theorem latest_attached_rules_are_stored {G : Type} (c : Services G)
    (generator_generate : GenArgs -> M G string) (slug : string)
    (mails : list AgentEmail) (g : G) :
  let tr := snd (fst (_process_project_emails c generator_generate slug mails (g, []))) in
  rule_writes tr =
    match folded tr, latest_rules None mails with
    | _ :: _, Some rules => if truthy rules then [(slug, rules)] else []
    | _, _ => []
    end.
Proof.
  destruct (process_project_emails_io c generator_generate slug mails g [])
    as (g' & tr & res & E & (_ & _ & W & _) & _).
  rewrite E. exact W.
Qed.

(** The rules of the second email are stored although its fold raised: only
    the first email was folded. *)
Example rules_of_a_failed_email_are_stored :
  let tr := Scenario.trace_of Cases.rules_run in
  folded tr = ["1"] /\ rule_writes tr = [("alpha", "R2")] /\ rule_reads tr = ["alpha"].
Proof. vm_compute. repeat split. Qed.

(** X3.  In one run of [_process_project_emails], the epic handed to
    [write_epic], if any, is the result of the last fold that returned: it
    is not empty, it is written for the project of the run, and the
    baseline read from S3 is never written back on its own. *)
Theorem committed_epic_is_last_fold {G : Type} (c : Services G)
    (generator_generate : GenArgs -> M G string) (slug : string)
    (mails : list AgentEmail) (g : G) :
  let tr := snd (fst (_process_project_emails c generator_generate slug mails (g, []))) in
  epic_writes tr = [] \/
  exists epic, epic_writes tr = [(slug, epic)] /\
    last_epic None tr = Some epic /\ truthy epic = true /\ folded tr <> [].
Proof.
  destruct (process_project_emails_io c generator_generate slug mails g [])
    as (g' & tr & res & E & (_ & W & _) & _).
  rewrite E. exact W.
Qed.

(** ** Grouping *)

(** X4.  The dict [run] builds from the fetched emails has one entry per
    project slug, in the order the slugs first appear; the entry of a slug
    holds exactly the emails of that slug, in arrival order, and is never
    empty. *)
Theorem emails_grouped_by_project (emails : list AgentEmail) :
  group_by_project emails
  = map (fun slug => (slug, of_project slug emails))
        (first_seen (map project_slug emails)) /\
  NoDup (map fst (group_by_project emails)) /\
  (forall slug mails, In (slug, mails) (group_by_project emails) ->
     mails <> [] /\ forall mail, In mail mails -> project_slug mail = slug).
Proof.
  split; [apply group_by_project_grouped|]. split.
  - rewrite group_by_project_keys. apply first_seen_NoDup.
  - intros slug mails Hin. rewrite group_by_project_grouped in Hin.
    unfold grouped in Hin. apply in_map_iff in Hin as (s & [= <- <-] & Hs).
    apply first_seen_In, in_map_iff in Hs as (mail & Hslug & Hmail). split.
    + intros Hnil.
      assert (Hin : In mail (of_project s emails)).
      { apply filter_In. split; [assumption|]. apply String.eqb_eq. assumption. }
      rewrite Hnil in Hin. contradiction.
    + intros m Hm. apply filter_In in Hm as [_ Hm]. apply String.eqb_eq. assumption.
Qed.

(** ** One run of the agent *)

Section RunTheorems.
Context {G : Type}.
Variable c : Services G.
Variable generator_generate : GenArgs -> M G string.
Variable mailbox : Mailbox G.
Variable flush_to_s3 : M G unit.

(** X5.  In one run of the agent, [write_epic] is called at most once for
    any project, however many emails arrived for it and whatever happened
    to the connection, the fetch or the other projects. *)
Theorem run_commits_once_per_project (g : G) (slug : string) :
  (commits_to slug
     (snd (fst (run c generator_generate mailbox flush_to_s3 (g, [])))) <= 1)%nat.
Proof.
  destruct (email_connect mailbox g) as [g1 [e | []]] eqn:Hc.
  { destruct (run_fatal_connect c generator_generate mailbox flush_to_s3 g g1 e Hc)
      as (g' & o & ->). simpl. unfold commits_to. simpl. lia. }
  destruct (email_fetch_unread_jarvis_emails mailbox g1) as [g2 [e | emails]] eqn:Hf.
  { destruct (run_fatal_fetch c generator_generate mailbox flush_to_s3 g g1 g2 e Hc Hf)
      as (g' & o & ->). simpl. unfold commits_to. simpl. lia. }
  destruct (run_fetched c generator_generate mailbox flush_to_s3 g g1 g2 emails Hc Hf)
    as (g' & tr & o & k & -> & (_ & P & _)).
  simpl. rewrite commits_to_app. specialize (P slug).
  assert (Hone : (count_occ string_dec (map fst (group_by_project emails)) slug <= 1)%nat).
  { apply NoDup_count_occ. rewrite group_by_project_keys. apply first_seen_NoDup. }
  unfold commits_to at 2. simpl. lia.
Qed.

(** X6.  When the mailbox was opened and the fetch returned, the run enters
    every project that has an email, once, in the order the projects first
    appear, whatever happened in the projects before it, and ends by
    ensuring the log bucket. *)
Theorem run_enters_every_project (g g1 g2 : G) (emails : list AgentEmail) :
  email_connect mailbox g = (g1, inr tt) ->
  email_fetch_unread_jarvis_emails mailbox g1 = (g2, inr emails) ->
  ensured (snd (fst (run c generator_generate mailbox flush_to_s3 (g, []))))
  = first_seen (map project_slug emails) ++ [_LOG_PROJECT_SLUG].
Proof.
  intros Hc Hf.
  destruct (run_fetched c generator_generate mailbox flush_to_s3 g g1 g2 emails Hc Hf)
    as (g' & tr & o & k & -> & (P & _)).
  simpl. rewrite ensured_app, P, group_by_project_keys. reflexivity.
Qed.

(** X7.  When the mailbox was opened and the fetch returned, the two
    counters logged at the end of the run add up to the number of emails
    fetched: every email is counted once, as processed or as an error.
    Neither counter is negative, and every email counted as processed was
    passed to [mark_as_seen]. *)
Theorem run_counts_every_email (g g1 g2 : G) (emails : list AgentEmail) :
  email_connect mailbox g = (g1, inr tt) ->
  email_fetch_unread_jarvis_emails mailbox g1 = (g2, inr emails) ->
  let result := run c generator_generate mailbox flush_to_s3 (g, []) in
  exists k, snd result = inr k /\
    processed k + errors k = Z.of_nat (length emails) /\
    0 <= processed k <= Z.of_nat (length (acked (snd (fst result)))) /\
    0 <= errors k.
Proof.
  intros Hc Hf.
  destruct (run_fetched c generator_generate mailbox flush_to_s3 g g1 g2 emails Hc Hf)
    as (g' & tr & o & k & E & (_ & _ & P1 & P2 & P3 & P4)).
  cbv zeta. rewrite E. simpl. exists k. split; [reflexivity|].
  rewrite group_by_project_length in P1. simpl in P1, P2, P3, P4.
  rewrite acked_app, length_app. simpl. lia.
Qed.


End RunTheorems.

(** The statement at a run of four emails of three projects, the bucket of
    the second project being out of reach: the three projects are entered
    in order of first appearance, then the log bucket. *)
Lemma run_enters_every_project_witness :
  ensured (Scenario.trace_of Cases.interleaved_run)
  = first_seen (map project_slug Cases.inbox) ++ [_LOG_PROJECT_SLUG].
Proof.
  apply (run_enters_every_project
           (run_services Cases.beta_is_down)
           (run_generator Cases.answering Cases.cfg Scenario.prompts)
           (Cases.mailbox (inr tt) (inr Cases.inbox))
           (fun g => (g, inr tt))
           (Scenario.start Cases.cfg) (Scenario.start Cases.cfg) (Scenario.start Cases.cfg)
           Cases.inbox); reflexivity.
Defined.

(** The same run: three emails processed (the two of [alpha] and the one of
    [gamma]) and one error (the email of [beta]). *)
Lemma run_counts_every_email_witness :
  snd Cases.interleaved_run = inr {| processed := 3; errors := 1 |} /\
  exists k, snd Cases.interleaved_run = inr k /\
    processed k + errors k = Z.of_nat (length Cases.inbox) /\
    0 <= processed k
      <= Z.of_nat (length (acked (snd (fst Cases.interleaved_run)))) /\
    0 <= errors k.
Proof.
  split; [vm_compute; reflexivity|].
  apply (run_counts_every_email
           (run_services Cases.beta_is_down)
           (run_generator Cases.answering Cases.cfg Scenario.prompts)
           (Cases.mailbox (inr tt) (inr Cases.inbox))
           (fun g => (g, inr tt))
           (Scenario.start Cases.cfg) (Scenario.start Cases.cfg) (Scenario.start Cases.cfg)
           Cases.inbox); reflexivity.
Defined.


(** ** The facade and the breakers over several calls *)

Lemma posts_app (a b : list net_event) : posts (a ++ b) = (posts a + posts b)%nat.
Proof. unfold posts. rewrite filter_app, length_app. reflexivity. Qed.

Lemma posts_retry_log (wait : Z -> Q) (ev : net_event) :
  is_post ev = false -> forall k a, posts (retry_log wait k a ev) = O.
Proof.
  intros Hev. induction k as [|k IH]; intros a; unfold posts in *; simpl; rewrite Hev.
  - reflexivity.
  - simpl. apply IH.
Qed.

(** Whatever the facade raises is one of its three errors. *)
Lemma facade_errors {X : Type} (primary secondary : Backend X) (sm up : string) (x : X)
    (e : exn) :
  snd (LLMClient.generate_with primary secondary sm up x) = inl e ->
  e = LLMClient.circuit_open \/ (exists exc, e = LLMClient.both_failed exc) \/
  e = LLMClient.unconfigured.
Proof.
  unfold LLMClient.generate_with, LLMClient.generate_traced, LLMClient.try_primary.
  destruct (is_configured primary);
    [destruct (generate primary sm up x) as [xp [ep|vp]]|];
    try (destruct (is_configured secondary);
         [destruct (generate secondary sm up _) as [xs [es|vs]];
          [destruct (isinstance es [CircuitBreakerError])|]|]);
    simpl; intros H; try discriminate; injection H as <-; eauto.
Qed.

Section FacadeFacts.
Context {W : Type} (remote : Remote W).
Variable cfg : Settings.

(** A call of Copilot's [generate] sends no POST. *)
Lemma copilot_generate_posts (sm up : string) (cb : pybreaker.CircuitBreaker) (n : Net W) :
  exists new,
    snd (snd (fst (CopilotBackend.generate remote cfg sm up (cb, n)))) = snd n ++ new
    /\ posts new = O.
Proof.
  unfold CopilotBackend.generate.
  destruct (negb (CopilotBackend.is_configured cfg)).
  { exists []. simpl. rewrite app_nil_r. auto. }
  destruct (pybreaker.rejects cb (now remote n)) eqn:Hr.
  { rewrite (call_rejected (now remote) cb _ n Hr). exists []. simpl.
    rewrite app_nil_r. auto. }
  destruct (call_let_through (now remote) cb
              (CopilotBackend._call_with_retry remote cfg sm up) n Hr) as [Hs _].
  rewrite Hs. unfold CopilotBackend._call_with_retry, tenacity.retrying.
  destruct (retry_loop_log remote
              (tenacity.wait_exponential (CB_RETRY_WAIT_MIN cfg) (CB_RETRY_WAIT_MAX cfg))
              (tenacity.retry_if_not_exception_type [CircuitBreakerError])
              (tenacity.stop_after_attempt (CB_RETRY_ATTEMPTS cfg))
              (_run_copilot_session remote cfg sm up) (CopilotSession sm up)
              (copilot_session_logs_one remote cfg sm up)
              (Z.to_nat (CB_RETRY_ATTEMPTS cfg - 1)) 1 n) as (k & _ & Hk).
  rewrite Hk. eexists. split; [reflexivity|]. apply posts_retry_log. reflexivity.
Qed.

End FacadeFacts.

(** X9.  Whatever the two backends raise, [EpicGenerator.generate] raises
    only [RuntimeError]: a [CircuitBreakerError], an [IOError] or a
    [ValueError] of a backend is caught by [LLMClient.generate] and never
    reaches the caller. *)
Theorem generator_raises_only_runtime_errors {W : Type} (remote : Remote W)
    (cfg : Settings) (prompts : Prompts) (a : GenArgs) (x : LLMClient.t * Net W)
    (e : exn) :
  snd (run_generator remote cfg prompts a x) = inl e ->
  exn_type e = RuntimeError.
Proof.
  unfold run_generator, EpicGenerator.generate, LLMClient.generate. intros H.
  apply facade_errors in H as [-> | [[exc ->] | ->]]; reflexivity.
Qed.

(** The statement at a call with the endpoint down and no Copilot token. *)
Lemma generator_raises_only_runtime_errors_witness :
  snd (run_generator Scenario.down Scenario.strict Scenario.prompts
         {| arg_project_name := "Alpha"; arg_requirements_body := "requirements";
            arg_existing_epic := None; arg_extension_rules := None;
            arg_title := None; arg_idea := None; arg_envs := None;
            arg_directives := None |}
         (Scenario.start Scenario.strict)) = inl LLMClient.unconfigured /\
  exn_type LLMClient.unconfigured = RuntimeError.
Proof.
  split; [vm_compute; reflexivity|].
  apply (generator_raises_only_runtime_errors Scenario.down Scenario.strict
           Scenario.prompts
           {| arg_project_name := "Alpha"; arg_requirements_body := "requirements";
              arg_existing_epic := None; arg_extension_rules := None;
              arg_title := None; arg_idea := None; arg_envs := None;
              arg_directives := None |}
           (Scenario.start Scenario.strict)).
  vm_compute. reflexivity.
Defined.

(** X10.  While the breaker of ChatGPT is open and its timeout has not
    elapsed, [LLMClient.generate] sends no POST and leaves that breaker as
    it is: the call goes straight to Copilot, whose answer or failure
    decides the result; with no Copilot token it fails with the
    not-configured error and changes nothing. *)
Theorem open_chatgpt_circuit_skips_the_endpoint {W : Type} (remote : Remote W)
    (cfg : Settings) (sm up : string) (x : LLMClient.t * Net W) :
  ChatGPTBackend.is_configured cfg = true ->
  pybreaker.rejects (LLMClient.chatgpt_cb (fst x)) (now remote (snd x)) = true ->
  let result := LLMClient.generate remote cfg sm up x in
  let fallback := generate (LLMClient._copilot remote cfg) sm up x in
  LLMClient.chatgpt_cb (fst (fst result)) = LLMClient.chatgpt_cb (fst x) /\
  (exists new, snd (snd (fst result)) = snd (snd x) ++ new /\ posts new = O) /\
  (CopilotBackend.is_configured cfg = true ->
   fst result = fst fallback /\
   snd result = match snd fallback with
                | inr v => inr v
                | inl exc =>
                    inl (if isinstance exc [CircuitBreakerError]
                         then LLMClient.circuit_open else LLMClient.both_failed exc)
                end) /\
  (CopilotBackend.is_configured cfg = false ->
   result = (x, inl LLMClient.unconfigured)).
Proof.
  intros Hconf Hrej. destruct x as [[cg cp] n]. simpl in Hrej.
  set (x := ({| LLMClient.chatgpt_cb := cg; LLMClient.copilot_cb := cp |}, n)).
  assert (Hprim : generate (LLMClient._chatgpt remote cfg) sm up x
                  = (x, inl pybreaker.still_open)).
  { unfold x. cbn [generate LLMClient._chatgpt].
    unfold LLMClient.on_chatgpt, ChatGPTBackend.generate.
    cbn [fst snd LLMClient.chatgpt_cb LLMClient.copilot_cb].
    rewrite Hconf. cbn [negb].
    rewrite (call_rejected (now remote) cg _ n Hrej). reflexivity. }
  assert (Hres :
    LLMClient.generate remote cfg sm up x
    = if CopilotBackend.is_configured cfg
      then (fst (generate (LLMClient._copilot remote cfg) sm up x),
            match snd (generate (LLMClient._copilot remote cfg) sm up x) with
            | inr v => inr v
            | inl exc =>
                inl (if isinstance exc [CircuitBreakerError]
                     then LLMClient.circuit_open else LLMClient.both_failed exc)
            end)
      else (x, inl LLMClient.unconfigured)).
  { unfold LLMClient.generate, LLMClient.generate_with, LLMClient.generate_traced,
      LLMClient.try_primary.
    change (is_configured (LLMClient._chatgpt remote cfg))
      with (ChatGPTBackend.is_configured cfg).
    change (is_configured (LLMClient._copilot remote cfg))
      with (CopilotBackend.is_configured cfg).
    rewrite Hconf, Hprim.
    destruct (CopilotBackend.is_configured cfg); [|reflexivity].
    destruct (generate (LLMClient._copilot remote cfg) sm up x) as [x2 [exc|v]];
      cbn [fst snd]; [destruct (isinstance exc [CircuitBreakerError])|]; reflexivity. }
  cbv zeta. rewrite Hres.
  destruct (CopilotBackend.is_configured cfg) eqn:Hcp.
  - cbn [fst snd].
    destruct (copilot_generate_posts remote cfg sm up cp n) as (new & Hnew & Hposts).
    split; [|split; [|split; [auto | discriminate]]].
    + unfold x. cbn [generate LLMClient._copilot]. unfold LLMClient.on_copilot.
      cbn [fst snd LLMClient.chatgpt_cb LLMClient.copilot_cb].
      destruct (CopilotBackend.generate remote cfg sm up (cp, n)) as [[cp' n'] r].
      reflexivity.
    + exists new. split; [|assumption].
      unfold x. cbn [generate LLMClient._copilot]. unfold LLMClient.on_copilot.
      cbn [fst snd LLMClient.chatgpt_cb LLMClient.copilot_cb].
      destruct (CopilotBackend.generate remote cfg sm up (cp, n)) as [[cp' n'] r].
      exact Hnew.
  - cbn [fst snd]. split; [reflexivity|].
    split; [exists []; rewrite app_nil_r; auto|].
    split; [discriminate | reflexivity].
Qed.

(** The statement at the fourth call of a batch, the endpoint having failed
    the first three: no POST is sent and Copilot answers. *)
Lemma open_chatgpt_circuit_skips_the_endpoint_witness :
  let x := Breakers.after_three_failures in
  let result := LLMClient.generate Scenario.copilot_only Scenario.both "s" "p" x in
  posts (snd (snd x)) = 3%nat /\
  posts (snd (snd (fst result))) = 3%nat /\
  snd result = inr "# From Copilot" /\
  LLMClient.chatgpt_cb (fst (fst result)) = LLMClient.chatgpt_cb (fst x).
Proof.
  split; [vm_compute; reflexivity|]. split; [vm_compute; reflexivity|].
  split; [vm_compute; reflexivity|].
  apply (open_chatgpt_circuit_skips_the_endpoint Scenario.copilot_only Scenario.both
           "s" "p" Breakers.after_three_failures); vm_compute; reflexivity.
Defined.



(** ** Text *)

Lemma occurs_append (ch : ascii) (a b : string) :
  occurs ch (a ++ b)%string <-> occurs ch a \/ occurs ch b.
Proof.
  unfold occurs. induction a as [|x a IH]; simpl; [tauto|]. rewrite IH. tauto.
Qed.

Lemma occurs_filter (keep : ascii -> bool) (ch : ascii) (s : string) :
  occurs ch (str_filter keep s) -> occurs ch s /\ keep ch = true.
Proof.
  unfold occurs. induction s as [|x s IH]; simpl; [tauto|].
  destruct (keep x) eqn:Hx; simpl; intros H.
  - destruct H as [<- | H]; [auto | destruct (IH H); auto].
  - destruct (IH H); auto.
Qed.

Lemma occurs_concat (ch : ascii) (sep : string) (words : list string) :
  occurs ch (String.concat sep words) ->
  occurs ch sep \/ exists word, In word words /\ occurs ch word.
Proof.
  induction words as [|w ws IH]; simpl; [intros []|].
  destruct ws as [|w' ws'].
  - intros H. right. exists w. auto.
  - intros H. apply occurs_append in H as [H | H]; [right; exists w; auto|].
    apply occurs_append in H as [H | H]; [left; assumption|].
    destruct (IH H) as [Hs | (word & Hin & Hw)]; [left; assumption|].
    right. exists word. split; [right; assumption | assumption].
Qed.

Lemma truthy_append (a b : string) : truthy a = true -> truthy (a ++ b)%string = true.
Proof. destruct a; [discriminate | reflexivity]. Qed.

Lemma truthy_concat (sep : string) (words : list string) :
  words <> [] -> Forall (fun w => truthy w = true) words ->
  truthy (String.concat sep words) = true.
Proof.
  destruct words as [|w ws]; [contradiction|]. intros _ H.
  inversion H as [|? ? Hw Hws]; subst. simpl.
  destruct ws; [assumption | apply truthy_append; assumption].
Qed.

Lemma Forall_firstn {A} (P : A -> Prop) (n : nat) (l : list A) :
  Forall P l -> Forall P (firstn n l).
Proof.
  revert l. induction n as [|n IH]; intros l H; simpl; [constructor|].
  destruct H as [|x l Hx Hl]; constructor; auto.
Qed.

Lemma Forall_slice_to {A} (P : A -> Prop) (stop : Z) (l : list A) :
  Forall P l -> Forall P (slice_to stop l).
Proof. intros H. unfold slice_to. destruct (0 <=? stop); apply Forall_firstn, H. Qed.

Lemma slice_to_length {A} (stop : Z) (l : list A) :
  0 <= stop -> (length (slice_to stop l) <= Z.to_nat stop)%nat.
Proof.
  intros H. unfold slice_to. destruct (Z.leb_spec 0 stop); [|lia].
  apply firstn_le_length.
Qed.

Section TextFacts.
Variable u : Unicode.

(** The words of [str.split()] are not empty and hold no whitespace. *)
Lemma split_from_words (Q : ascii -> Prop) (s : string) :
  (forall ch, occurs ch s -> is_space u ch = false -> Q ch) ->
  forall word, (forall ch, occurs ch word -> Q ch) ->
  Forall (fun w => truthy w = true /\ forall ch, occurs ch w -> Q ch) (split_from u s word).
Proof.
  induction s as [|x s IH]; intros Hs word Hword; simpl.
  - destruct (truthy word) eqn:Hw; [|constructor].
    constructor; [auto | constructor].
  - assert (Hrest : forall ch, occurs ch s -> is_space u ch = false -> Q ch).
    { intros ch Hch. apply Hs. right. assumption. }
    assert (Hnone : forall ch, occurs ch EmptyString -> Q ch) by (intros ch []).
    destruct (is_space u x) eqn:Hx.
    + destruct (truthy word) eqn:Hw.
      * constructor; [auto | apply IH; assumption].
      * apply IH; assumption.
    + apply IH; [assumption|]. intros ch Hch.
      apply occurs_append in Hch as [Hch | [<- | []]]; [auto|].
      apply Hs; [left; reflexivity | assumption].
Qed.

Lemma hyphenate_chars (s : string) :
  forall in_run ch, occurs ch (hyphenate u s in_run) ->
    ch = hyphen \/
    (occurs ch s /\ is_space u ch = false /\ Ascii.eqb ch underscore = false).
Proof.
  induction s as [|x s IH]; intros in_run ch; simpl; [intros []|].
  destruct (is_space u x || Ascii.eqb x underscore) eqn:Hx.
  - destruct in_run; [intros H | intros [<- | H]; [left; reflexivity|]];
      (destruct (IH true ch H) as [-> | (H1 & H2 & H3)];
       [left; reflexivity | right; split; [right; assumption | auto]]).
  - apply orb_false_elim in Hx as [Hs Hu]. intros [<- | H].
    + right. split; [left; reflexivity | auto].
    + destruct (IH false ch H) as [-> | (H1 & H2 & H3)];
        [left; reflexivity | right; split; [right; assumption | auto]].
Qed.

End TextFacts.

(** X12.  [_short_description] never returns the empty string; its result
    is either the fallback [epic] or the first words of the text joined by
    hyphens, at most [max_words] of them when that is not negative, each one
    non-empty and made of
    word characters only: no whitespace, and nothing that is neither a word
    character nor whitespace, survives. *)
Theorem short_description_is_hyphenated_words (u : Unicode) (text : string)
    (max_words : Z) :
  let description := _short_description u text max_words in
  truthy description = true /\
  (description = "epic" \/
   exists words,
     description = String.concat "-" words /\ words <> [] /\
     (0 <= max_words -> (length words <= Z.to_nat max_words)%nat) /\
     Forall (fun word =>
               truthy word = true /\
               Forall (fun ch => is_word u ch = true /\ is_space u ch = false)
                 (list_ascii_of_string word)) words).
Proof.
  cbv zeta. unfold _short_description.
  set (kept := str_filter (fun ch => is_word u ch || is_space u ch) (str_lower u text)).
  assert (Hwords :
    Forall (fun w => truthy w = true /\
                     forall ch, occurs ch w -> is_word u ch = true /\ is_space u ch = false)
      (slice_to max_words (str_split u kept))).
  { apply Forall_slice_to. unfold str_split. apply split_from_words.
    - intros ch Hch Hspace. apply occurs_filter in Hch as [_ Hkeep].
      rewrite Hspace, orb_false_r in Hkeep. auto.
    - intros ch []. }
  assert (Hlen : 0 <= max_words ->
                 (length (slice_to max_words (str_split u kept)) <= Z.to_nat max_words)%nat)
    by apply slice_to_length.
  destruct (slice_to max_words (str_split u kept)) as [|w ws] eqn:E.
  - split; [reflexivity | left; reflexivity].
  - split.
    + apply truthy_concat; [discriminate|].
      eapply Forall_impl; [|exact Hwords]. intros a [Ha _]. exact Ha.
    + right. exists (w :: ws). split; [reflexivity|]. split; [discriminate|].
      split; [exact Hlen|].
      eapply Forall_impl; [|exact Hwords]. intros a [Ha Hch]. split; [exact Ha|].
      apply Forall_forall. exact Hch.
Qed.

(** X13.  A slug built by [_slugify] holds hyphens and word characters
    only: no whitespace and no underscore survives, and nothing that is not
    a word character, whitespace or a hyphen. *)
Theorem slug_is_hyphens_and_word_characters (u : Unicode) (name : string) :
  Forall (fun ch =>
            ch = hyphen \/
            (is_word u ch = true /\ is_space u ch = false /\ ch <> underscore))
    (list_ascii_of_string (_slugify u name)).
Proof.
  apply Forall_forall. intros ch Hch. unfold _slugify in Hch.
  apply hyphenate_chars in Hch as [-> | (Hocc & Hspace & Hunder)]; [left; reflexivity|].
  apply occurs_filter in Hocc as [_ Hkeep].
  rewrite Hspace, orb_false_r in Hkeep.
  apply orb_true_iff in Hkeep as [Hword | Hhyphen].
  - right. split; [assumption|]. split; [assumption|].
    intros ->. rewrite Ascii.eqb_refl in Hunder. discriminate.
  - left. apply Ascii.eqb_eq. assumption.
Qed.

(** ** The storage client *)

Ltac by_call_induction a :=
  induction a as [|[] a IH]; intros; simpl; rewrite ?IH; auto.

Lemma puts_app (a b : list s3_call) : puts (a ++ b) = puts a ++ puts b.
Proof. by_call_induction a. Qed.

Lemma gets_app (a b : list s3_call) : gets (a ++ b) = gets a ++ gets b.
Proof. by_call_induction a. Qed.

Lemma created_app (a b : list s3_call) : created (a ++ b) = created a ++ created b.
Proof. by_call_induction a. Qed.

Lemma notified_app (a b : list s3_call) : notified (a ++ b) = notified a ++ notified b.
Proof. by_call_induction a. Qed.

(** Strings compare as a total order. *)
Lemma ascii_compare_eq (a b : ascii) : Ascii.compare a b = Eq -> a = b.
Proof.
  unfold Ascii.compare. intros H. apply N.compare_eq in H.
  rewrite <- (ascii_N_embedding a), <- (ascii_N_embedding b), H. reflexivity.
Qed.

Lemma string_compare_trans (s1 : string) :
  forall s2 s3,
    String.compare s1 s2 <> Gt -> String.compare s2 s3 <> Gt -> String.compare s1 s3 <> Gt.
Proof.
  induction s1 as [|c1 s1 IH]; intros [|c2 s2] [|c3 s3]; simpl; try congruence.
  unfold Ascii.compare.
  destruct (N.compare_spec (N_of_ascii c1) (N_of_ascii c2)) as [E12 | L12 | G12];
    destruct (N.compare_spec (N_of_ascii c2) (N_of_ascii c3)) as [E23 | L23 | G23];
    try congruence; intros H12 H23.
  - rewrite <- E12 in E23. rewrite (proj2 (N.compare_eq_iff _ _) E23). eauto.
  - rewrite E12. rewrite (proj2 (N.compare_lt_iff _ _) L23). congruence.
  - rewrite <- E23. rewrite (proj2 (N.compare_lt_iff _ _) L12). congruence.
  - rewrite (proj2 (N.compare_lt_iff _ _) (N.lt_trans _ _ _ L12 L23)). congruence.
Qed.

Lemma leb_trans (s1 s2 s3 : string) :
  String.leb s1 s2 = true -> String.leb s2 s3 = true -> String.leb s1 s3 = true.
Proof.
  unfold String.leb. pose proof (string_compare_trans s1 s2 s3) as H.
  destruct (String.compare s1 s2) eqn:E12; destruct (String.compare s2 s3) eqn:E23;
    intros H12 H23; try discriminate;
    destruct (String.compare s1 s3) eqn:E13; try reflexivity;
    exfalso; apply H; congruence.
Qed.

Lemma leb_refl (s : string) : String.leb s s = true.
Proof. destruct (String.leb_total s s); assumption. Qed.

Lemma ltb_false_leb (s1 s2 : string) : String.ltb s1 s2 = false -> String.leb s2 s1 = true.
Proof.
  unfold String.ltb, String.leb. rewrite (String.compare_antisym s2 s1).
  destruct (String.compare s1 s2); simpl; congruence.
Qed.

Lemma ltb_true_leb (s1 s2 : string) : String.ltb s1 s2 = true -> String.leb s1 s2 = true.
Proof. unfold String.ltb, String.leb. destruct (String.compare s1 s2); congruence. Qed.

(** [max_key] is one of the keys and no key is greater. *)
Lemma max_key_greatest (others : list string) :
  forall first,
    In (max_key first others) (first :: others) /\
    Forall (fun key => String.leb key (max_key first others) = true) (first :: others).
Proof.
  unfold max_key. induction others as [|k ks IH]; intros first; simpl.
  - split; [left; reflexivity|]. constructor; [apply leb_refl | constructor].
  - destruct (String.ltb first k) eqn:Hlt.
    + destruct (IH k) as [Hin Hall]. split.
      * right. exact Hin.
      * inversion Hall as [|? ? Hk Hks]; subst. constructor; [|constructor; assumption].
        eapply leb_trans; [apply ltb_true_leb; exact Hlt | exact Hk].
    + destruct (IH first) as [Hin Hall]. split.
      * destruct Hin as [Hin | Hin]; [left; exact Hin | right; right; exact Hin].
      * inversion Hall as [|? ? Hf Hks]; subst. constructor; [exact Hf|].
        constructor; [|exact Hks].
        eapply leb_trans; [apply ltb_false_leb; exact Hlt | exact Hf].
Qed.

(** An epic key holds an underscore; the key of the rules file does not. *)
Lemma epic_key_is_not_the_rules_key (description today : string) :
  ("epics/" ++ description ++ "_" ++ today ++ ".md")%string <> extension_rules_key.
Proof.
  intros H.
  assert (Hin : occurs underscore ("epics/" ++ description ++ "_" ++ today ++ ".md")%string).
  { apply occurs_append. right. apply occurs_append. right.
    apply occurs_append. left. left. reflexivity. }
  rewrite H in Hin. unfold occurs, extension_rules_key, underscore in Hin. simpl in Hin.
  repeat (destruct Hin as [Hin | Hin]; [discriminate|]). exact Hin.
Qed.

Section StorageFacts.
Context {W : Type} (boto : Boto3 W).
Variable cfg : StorageSettings.

(** [ensure_bucket] starts with one [head_bucket] and puts no object. *)
Lemma ensure_bucket_log (slug name : string) (s : Store W) :
  bucket_template_format cfg slug = inr name ->
  exists new,
    snd (fst (S3Client.ensure_bucket boto cfg slug s)) = snd s ++ HeadBucket name :: new
    /\ puts new = [] /\ gets new = []
    /\ (forall v, snd (S3Client.ensure_bucket boto cfg slug s) = inr v -> v = name).
Proof.
  intros Hname.
  unfold S3Client.ensure_bucket, S3Client.bucket_name, S3Client._register_notification,
    bind, propagate, boto_call, ret.
  rewrite Hname. cbn [fst snd].
  destruct (boto_head_bucket boto name (fst s)) as [w1 [[code msg | e] | []]]; cbn [fst snd].
  - destruct (code_in code ["404"; "NoSuchBucket"]); cbn [fst snd].
    + destruct (boto_create_bucket boto name w1) as [w2 [err | []]]; cbn [fst snd].
      * eexists. rewrite <- app_assoc. split; [reflexivity|]. simpl.
        repeat split; auto. discriminate.
      * destruct (negb (truthy (S3_NOTIFICATION_WEBHOOK_URL cfg))); cbn [fst snd].
        -- eexists. rewrite <- app_assoc. split; [reflexivity|]. simpl.
           repeat split; auto. congruence.
        -- destruct (boto_put_bucket_notification_configuration boto name _ w2)
             as [w3 [[c3 m3 | e3] | []]]; cbn [fst snd];
             (eexists; rewrite <- !app_assoc; split; [reflexivity|]; simpl;
              repeat split; auto; congruence).
    + exists []. repeat split; auto. discriminate.
  - exists []. repeat split; auto. discriminate.
  - exists []. repeat split; auto. congruence.
Qed.

End StorageFacts.

(** X14.  [ensure_bucket] asks [head_bucket] once and puts no object.  It
    creates the bucket exactly when [head_bucket] failed with code 404 or
    NoSuchBucket, and registers the notification only on a bucket it has
    just created, and only when a webhook URL is configured.  A bucket that
    exists is returned as it is; any other error of [head_bucket], and any
    error of [create_bucket], goes on to the caller; a [ClientError] while
    registering the notification does not: the name is still returned. *)
Theorem ensure_bucket_creates_only_missing_buckets {W : Type} (boto : Boto3 W)
    (cfg : StorageSettings) (slug name : string) (s : Store W) :
  bucket_template_format cfg slug = inr name ->
  let result := S3Client.ensure_bucket boto cfg slug s in
  let head := boto_head_bucket boto name (fst s) in
  let missing :=
    match snd head with
    | inl (ClientError code _) => code_in code ["404"; "NoSuchBucket"]
    | _ => false
    end in
  let creation := boto_create_bucket boto name (fst head) in
  let registration :=
    boto_put_bucket_notification_configuration boto name
      (S3Client.notification_config cfg name) (fst creation) in
  exists new,
    snd (fst result) = snd s ++ HeadBucket name :: new /\
    puts new = [] /\
    created new = (if missing then [name] else []) /\
    notified new =
      (if missing && succeeded (snd creation) && truthy (S3_NOTIFICATION_WEBHOOK_URL cfg)
       then [name] else []) /\
    (snd head = inr tt -> snd result = inr name) /\
    (missing = false -> snd head <> inr tt -> is_ok (snd result) = false) /\
    (missing = true -> succeeded (snd creation) = false -> is_ok (snd result) = false) /\
    (missing = true -> snd creation = inr tt ->
     (truthy (S3_NOTIFICATION_WEBHOOK_URL cfg) = false \/
      forall e, snd registration <> inl (BotoError e)) ->
     snd result = inr name).
Proof.
  intros Hname. cbv zeta.
  unfold S3Client.ensure_bucket, S3Client.bucket_name, S3Client._register_notification,
    bind, propagate, boto_call, ret.
  rewrite Hname. cbn [fst snd].
  destruct (boto_head_bucket boto name (fst s)) as [w1 [[code msg | e] | []]]; cbn [fst snd].
  - destruct (code_in code ["404"; "NoSuchBucket"]) eqn:Hcode; cbn [fst snd].
    + destruct (boto_create_bucket boto name w1) as [w2 [err | []]]; cbn [fst snd].
      * eexists. rewrite <- app_assoc. split; [reflexivity|]. simpl.
        repeat split; auto; discriminate.
      * destruct (truthy (S3_NOTIFICATION_WEBHOOK_URL cfg)) eqn:Hhook; cbn [negb fst snd].
        -- destruct (boto_put_bucket_notification_configuration boto name _ w2)
             as [w3 [[c3 m3 | e3] | []]] eqn:Hreg; cbn [fst snd];
             (eexists; rewrite <- !app_assoc; split; [reflexivity|]; simpl;
              repeat split; auto; try discriminate).
           intros _ _ [H | H]; [discriminate | exfalso; apply (H e3); reflexivity].
        -- eexists. rewrite <- app_assoc. split; [reflexivity|]. simpl.
           repeat split; auto; discriminate.
    + exists []. simpl. repeat split; auto; discriminate.
  - exists []. simpl. repeat split; auto; discriminate.
  - exists []. simpl. repeat split; auto; try discriminate. intros _ H. contradiction.
Qed.

(** The statement at an empty server with a webhook configured: the bucket
    is created and the notification registered. *)
Lemma ensure_bucket_creates_only_missing_buckets_witness :
  let result := S3Client.ensure_bucket Minio.boto Minio.with_webhook "alpha" Minio.start in
  snd result = inr "jarvis-alpha" /\
  exists new,
    snd (fst result) = HeadBucket "jarvis-alpha" :: new /\
    puts new = [] /\ created new = ["jarvis-alpha"] /\ notified new = ["jarvis-alpha"].
Proof.
  split; [vm_compute; reflexivity|].
  destruct (ensure_bucket_creates_only_missing_buckets Minio.boto Minio.with_webhook
              "alpha" "jarvis-alpha" Minio.start eq_refl)
    as (new & H1 & H2 & H3 & H4 & _).
  exists new. auto.
Defined.

Section StorageTheorems.
Context {W : Type} (boto : Boto3 W).
Variable cfg : StorageSettings.

(** X15.  [read_extension_rules] asks S3 for exactly the object that
    [write_extension_rules] puts: one [get_object] and nothing else, on the
    bucket of the project and the key of the rules file.  A successful
    write has put the content under that key.  A missing object (404 or
    NoSuchKey) and an empty one read as [None] instead of raising. *)
Theorem stored_rules_are_read_where_written (slug name content : string)
    (s s' : Store W) :
  bucket_template_format cfg slug = inr name ->
  let written := S3Client.write_extension_rules boto cfg slug content s in
  let read := S3Client.read_extension_rules boto cfg slug s' in
  (exists new,
     snd (fst written) = snd s ++ new /\
     (puts new = [] \/ puts new = [(name, extension_rules_key)]) /\
     (forall key, snd written = inr key ->
        key = extension_rules_key /\
        In (PutObject name extension_rules_key content true) new)) /\
  snd (fst read) = snd s' ++ [GetObject name extension_rules_key] /\
  match snd (boto_get_object boto name extension_rules_key (fst s')) with
  | inl (ClientError code _) =>
      code_in code ["404"; "NoSuchKey"] = true -> snd read = inr None
  | inl (BotoError e) => snd read = inl e
  | inr data => truthy data = false -> snd read = inr None
  end.
Proof.
  intros Hname. cbv zeta. split; [|split].
  - destruct (ensure_bucket_log boto cfg slug name s Hname) as (new & Hlog & Hputs & _ & Hv).
    unfold S3Client.write_extension_rules, bind.
    destruct (S3Client.ensure_bucket boto cfg slug s) as [[w1 log1] [e | bucket]];
      simpl in Hlog.
    + exists (HeadBucket name :: new). simpl.
      split; [exact Hlog|]. split; [left; exact Hputs|]. intros key H. discriminate.
    + rewrite (Hv bucket eq_refl).
      unfold S3Client.put_object, propagate, boto_call, ret. cbn [fst snd].
      destruct (boto_put_object boto name extension_rules_key content w1)
        as [w2 [err | []]]; cbn [fst snd is_ok].
      * exists (HeadBucket name :: new
                ++ [PutObject name extension_rules_key content false]).
        rewrite Hlog, <- app_assoc. split; [reflexivity|].
        simpl. rewrite puts_app, Hputs. simpl. split; [auto | discriminate].
      * exists (HeadBucket name :: new
                ++ [PutObject name extension_rules_key content true]).
        rewrite Hlog, <- app_assoc. split; [reflexivity|].
        simpl. rewrite puts_app, Hputs. simpl. split; [auto|].
        intros key [= <-]. split; [reflexivity|].
        right. apply in_or_app. right. left. reflexivity.
  - unfold S3Client.read_extension_rules, S3Client.bucket_name, S3Client.get_object,
      S3Client.decode_if_any, bind, boto_call, ret.
    rewrite Hname. cbn [fst snd].
    destruct (boto_get_object boto name extension_rules_key (fst s'))
      as [w1 [[code msg | e] | data]]; cbn [fst snd];
      [destruct (code_in code ["404"; "NoSuchKey"]) | | destruct (truthy data)];
      reflexivity.
  - unfold S3Client.read_extension_rules, S3Client.bucket_name, S3Client.get_object,
      S3Client.decode_if_any, bind, boto_call, ret.
    rewrite Hname. cbn [fst snd].
    destruct (boto_get_object boto name extension_rules_key (fst s'))
      as [w1 [[code msg | e] | data]]; cbn [fst snd].
    + intros ->. reflexivity.
    + reflexivity.
    + intros ->. reflexivity.
Qed.

(** X16.  [read_latest_epic] lists the keys under [epics/] once.  When the
    listing fails with a [ClientError], or holds no key, it returns [None]
    and reads nothing.  Otherwise it reads exactly one object: the one whose
    key is the greatest of the listing, whatever that key is. *)
Theorem latest_epic_is_under_the_greatest_key (slug name : string) (s : Store W) :
  bucket_template_format cfg slug = inr name ->
  let result := S3Client.read_latest_epic boto cfg slug s in
  exists new,
    snd (fst result) = snd s ++ ListObjects name "epics/" "/" :: new /\
    match snd (boto_list_objects_v2 boto name "epics/" "/" (fst s)) with
    | inl (ClientError _ _) | inr [] => new = [] /\ snd result = inr None
    | inl (BotoError e) => new = [] /\ snd result = inl e
    | inr (first :: others) =>
        exists key,
          new = [GetObject name key] /\ In key (first :: others) /\
          Forall (fun listed => String.leb listed key = true) (first :: others)
    end.
Proof.
  intros Hname. cbv zeta.
  unfold S3Client.read_latest_epic, S3Client.bucket_name, bind, boto_call.
  rewrite Hname. cbn [fst snd].
  destruct (boto_list_objects_v2 boto name "epics/" "/" (fst s))
    as [w1 [[code msg | e] | [|first others]]]; cbn [fst snd];
    try (exists []; split; [reflexivity | split; reflexivity]).
  unfold S3Client.get_object, S3Client.decode_if_any, boto_call, ret. cbn [fst snd].
  exists [GetObject name (max_key first others)]. split.
  - destruct (boto_get_object boto name (max_key first others) w1)
      as [w2 [[code msg | e] | data]]; cbn [fst snd];
      [destruct (code_in code ["404"; "NoSuchKey"]) | | destruct (truthy data)];
      cbn [fst snd]; rewrite <- app_assoc; reflexivity.
  - exists (max_key first others). split; [reflexivity|]. apply max_key_greatest.
Qed.

(** X17.  [write_epic] puts at most one object, into the bucket of the
    project, under a key of the form [epics/<description>_<date>.md], which
    is never the key of the rules file.  When it returns, it returns that
    key and the put of the epic has returned; when the bucket cannot be
    ensured nothing is put. *)
Theorem write_epic_puts_one_dated_key (slug name epic short_description : string)
    (s : Store W) :
  bucket_template_format cfg slug = inr name ->
  let result := S3Client.write_epic boto cfg slug epic short_description s in
  exists new,
    snd (fst result) = snd s ++ new /\
    (puts new = [] \/
     exists today,
       let key := ("epics/" ++ _short_description (unicode cfg) short_description 4
                   ++ "_" ++ today ++ ".md")%string in
       puts new = [(name, key)] /\ key <> extension_rules_key /\
       (forall returned, snd result = inr returned ->
          returned = key /\ In (PutObject name key epic true) new)) /\
    (is_ok (snd (S3Client.ensure_bucket boto cfg slug s)) = false ->
     puts new = [] /\ is_ok (snd result) = false).
Proof.
  intros Hname. cbv zeta.
  destruct (ensure_bucket_log boto cfg slug name s Hname) as (new & Hlog & Hputs & _ & Hv).
  unfold S3Client.write_epic, bind.
  destruct (S3Client.ensure_bucket boto cfg slug s) as [[w1 log1] [e | bucket]];
    simpl in Hlog.
  - exists (HeadBucket name :: new). simpl.
    split; [exact Hlog|]. split; [left; exact Hputs|]. intros _. auto.
  - rewrite (Hv bucket eq_refl).
    unfold S3Client.epic_key, S3Client.put_object, propagate, boto_call, ret.
    cbn [fst snd].
    set (key := ("epics/" ++ _short_description (unicode cfg) short_description 4
                 ++ "_" ++ date_today boto w1 ++ ".md")%string).
    destruct (boto_put_object boto name key epic w1) as [w2 [err | []]];
      cbn [fst snd is_ok].
    + exists (HeadBucket name :: new ++ [PutObject name key epic false]).
      rewrite Hlog, <- app_assoc. split; [reflexivity|].
      simpl. rewrite puts_app, Hputs. simpl. split; [|discriminate].
      right. exists (date_today boto w1). cbv zeta. fold key.
      split; [reflexivity|]. split; [apply epic_key_is_not_the_rules_key|]. discriminate.
    + exists (HeadBucket name :: new ++ [PutObject name key epic true]).
      rewrite Hlog, <- app_assoc. split; [reflexivity|].
      simpl. rewrite puts_app, Hputs. simpl. split; [|discriminate].
      right. exists (date_today boto w1). cbv zeta. fold key.
      split; [reflexivity|]. split; [apply epic_key_is_not_the_rules_key|].
      intros returned [= <-]. split; [reflexivity|].
      right. apply in_or_app. right. left. reflexivity.
Qed.

End StorageTheorems.

(** The statement at an empty server: the rules written for [alpha] are the
    rules read back for [alpha]. *)
Lemma stored_rules_are_read_where_written_witness :
  let written :=
    S3Client.write_extension_rules Minio.boto Minio.with_webhook "alpha" "rules"
      Minio.start in
  let read :=
    S3Client.read_extension_rules Minio.boto Minio.with_webhook "alpha" (fst written) in
  snd read = inr (Some "rules") /\
  snd (fst read)
  = snd (fst written) ++ [GetObject "jarvis-alpha" extension_rules_key].
Proof.
  split; [vm_compute; reflexivity|].
  exact (proj1 (proj2
           (stored_rules_are_read_where_written Minio.boto Minio.with_webhook
              "alpha" "jarvis-alpha" "rules" Minio.start
              (fst (S3Client.write_extension_rules Minio.boto Minio.with_webhook
                      "alpha" "rules" Minio.start))
              eq_refl))).
Defined.

(** The statement at a bucket that holds an epic and the rules file: the
    key of the rules file is the greatest, so the rules are what
    [read_latest_epic] returns. *)
Lemma latest_epic_is_under_the_greatest_key_witness :
  let result :=
    S3Client.read_latest_epic Minio.boto Minio.with_webhook "alpha" Minio.alpha_bucket in
  snd result = inr (Some "rules") /\
  gets (snd (fst result)) = [("jarvis-alpha", extension_rules_key)] /\
  exists new,
    snd (fst result)
    = snd Minio.alpha_bucket ++ ListObjects "jarvis-alpha" "epics/" "/" :: new.
Proof.
  split; [vm_compute; reflexivity|]. split; [vm_compute; reflexivity|].
  destruct (latest_epic_is_under_the_greatest_key Minio.boto Minio.with_webhook
              "alpha" "jarvis-alpha" Minio.alpha_bucket eq_refl) as (new & H & _).
  exists new. exact H.
Defined.

(** The statement at an empty server: the epic of [Alpha Project] goes to
    [epics/alpha-project_2026-01-01.md]. *)
Lemma write_epic_puts_one_dated_key_witness :
  let result :=
    S3Client.write_epic Minio.boto Minio.with_webhook "alpha" "# Epic" "Alpha Project"
      Minio.start in
  snd result = inr "epics/alpha-project_2026-01-01.md" /\
  puts (snd (fst result)) = [("jarvis-alpha", "epics/alpha-project_2026-01-01.md")] /\
  exists new, snd (fst result) = snd Minio.start ++ new.
Proof.
  split; [vm_compute; reflexivity|]. split; [vm_compute; reflexivity|].
  destruct (write_epic_puts_one_dated_key Minio.boto Minio.with_webhook
              "alpha" "jarvis-alpha" "# Epic" "Alpha Project" Minio.start eq_refl)
    as (new & H & _).
  exists new. exact H.
Defined.

(** The cases of [tests/test_s3_client.py]. *)
Example short_description_cases :
  _short_description Minio.ascii_tables "image displayer project" 4
    = "image-displayer-project" /\
  _short_description Minio.ascii_tables "one two three four five six" 3 = "one-two-three" /\
  _short_description Minio.ascii_tables "Hello, World!" 4 = "hello-world" /\
  _short_description Minio.ascii_tables EmptyString 4 = "epic".
Proof. vm_compute. repeat split. Qed.

(** The cases of [tests/test_email_client.py]. *)
Example slugify_cases :
  _slugify Minio.ascii_tables "Image Displayer" = "image-displayer" /\
  _slugify Minio.ascii_tables "  My  Project  " = "my-project" /\
  _slugify Minio.ascii_tables "Foo & Bar!" = "foo-bar" /\
  _slugify Minio.ascii_tables "my-project" = "my-project".
Proof. vm_compute. repeat split. Qed.

(** ** The log handler *)

Lemma stored_bodies_app (a b : list s3_call) :
  stored_bodies (a ++ b) = stored_bodies a ++ stored_bodies b.
Proof.
  induction a as [|[| | |? ? ? []| |] a IH]; intros; simpl; rewrite ?IH; auto.
Qed.

Lemma put_objects_app (a b : list s3_call) :
  put_objects (a ++ b) = put_objects a ++ put_objects b.
Proof. by_call_induction a. Qed.

Lemma puts_put_objects (log : list s3_call) :
  puts log = map (fun o => (fst (fst o), snd (fst o))) (put_objects log).
Proof. by_call_induction log. Qed.

Lemma no_puts_no_objects (log : list s3_call) : puts log = [] -> put_objects log = [].
Proof.
  rewrite puts_put_objects. destruct (put_objects log); [reflexivity | discriminate].
Qed.

(** X18.  Flushing loses no line and stores none twice: after any sequence
    of [emit] and [flush_to_s3] calls, the bodies of the puts that returned
    are the joins of consecutive, non-empty chunks of the emitted lines, and
    these chunks followed by the buffer are the lines the handler held and
    those emitted since, in order.  A put that raised leaves its lines in
    the buffer for the next flush; every put goes to the bucket of the
    handler. *)
Theorem flushed_and_buffered_lines_are_the_emitted_ones {W} (boto : Boto3 W)
    (calls : list handler_call) :
  forall (h : S3LogHandler.t) (s : Store W),
    let after := handle boto calls (h, s) in
    exists log chunks,
      snd (snd after) = snd s ++ log /\
      stored_bodies log = map (String.concat nl) chunks /\
      Forall (fun chunk => chunk <> []) chunks /\
      concat chunks ++ S3LogHandler._buffer (fst after)
      = S3LogHandler._buffer h ++ emitted calls /\
      Forall (fun o => fst o = S3LogHandler._bucket h) (puts log) /\
      S3LogHandler._bucket (fst after) = S3LogHandler._bucket h.
Proof.
  induction calls as [|[[e | line] | key_suffix] rest IH]; intros h s; cbv zeta.
  - exists [], []. simpl. rewrite !app_nil_r. repeat split; constructor.
  - simpl. destruct (IH h s) as (log & chunks & H). exists log, chunks. exact H.
  - simpl. destruct (IH (S3LogHandler.emit (inr line) h) s)
      as (log & chunks & Hlog & Hbodies & Hne & Hlines & Hbucket & Hsame).
    exists log, chunks. simpl in Hlines, Hbucket, Hsame.
    rewrite <- app_assoc in Hlines. repeat split; assumption.
  - simpl. unfold S3LogHandler.flush_to_s3. cbn [fst snd].
    destruct (S3LogHandler._buffer h) as [|line lines] eqn:Hbuf.
    + cbn [fst]. destruct (IH h s) as (log & chunks & H).
      rewrite Hbuf in H. exists log, chunks. exact H.
    + unfold S3Client.put_object, propagate, boto_call. cbn [fst snd].
      set (key := (S3LogHandler._prefix h ++ "/" ++ date_today boto (fst s) ++ "/"
                   ++ key_suffix ++ ".log")%string).
      set (content := String.concat nl (line :: lines)).
      destruct (boto_put_object boto (S3LogHandler._bucket h) key content (fst s))
        as [w1 [err | []]]; cbn [fst snd is_ok].
      * destruct (IH h (w1, snd s ++ [PutObject (S3LogHandler._bucket h) key content false]))
          as (log & chunks & Hlog & Hbodies & Hne & Hlines & Hbucket & Hsame).
        exists (PutObject (S3LogHandler._bucket h) key content false :: log), chunks.
        cbn [snd] in Hlog. rewrite Hlog, <- app_assoc. rewrite Hbuf in Hlines.
        simpl. repeat split; try assumption. constructor; [reflexivity | assumption].
      * set (h' := {| S3LogHandler._bucket := S3LogHandler._bucket h;
                      S3LogHandler._prefix := S3LogHandler._prefix h;
                      S3LogHandler._buffer := [] |}).
        destruct (IH h' (w1, snd s ++ [PutObject (S3LogHandler._bucket h) key content true]))
          as (log & chunks & Hlog & Hbodies & Hne & Hlines & Hbucket & Hsame).
        exists (PutObject (S3LogHandler._bucket h) key content true :: log),
               ((line :: lines) :: chunks).
        cbn [snd] in Hlog. rewrite Hlog, <- app_assoc. simpl in Hlines, Hbucket, Hsame.
        simpl. rewrite Hbodies. fold content.
        split; [reflexivity|]. split; [reflexivity|].
        split; [constructor; [discriminate | assumption]|].
        split; [rewrite <- app_assoc, Hlines; reflexivity|].
        split; [constructor; [reflexivity | assumption] | assumption].
Qed.

Section LogTheorems.
Context {W : Type} (boto : Boto3 W).
Variable cfg : StorageSettings.

(** X19.  [write_log] puts at most one object, the content, into the bucket
    of the project, under [<S3_LOG_PREFIX>/<day>/<timestamp>.log].  When it
    returns, it returns that key and the put has returned; when the bucket
    cannot be ensured nothing is put. *)
Theorem write_log_puts_one_timestamped_key (slug name content : string) (s : Store W) :
  bucket_template_format cfg slug = inr name ->
  let result := S3Client.write_log boto cfg slug content s in
  exists new,
    snd (fst result) = snd s ++ new /\
    (put_objects new = [] \/
     exists day timestamp,
       let key := (S3_LOG_PREFIX cfg ++ "/" ++ day ++ "/" ++ timestamp ++ ".log")%string in
       put_objects new = [(name, key, content)] /\
       (forall returned, snd result = inr returned ->
          returned = key /\ In (PutObject name key content true) new)) /\
    (is_ok (snd (S3Client.ensure_bucket boto cfg slug s)) = false ->
     put_objects new = [] /\ is_ok (snd result) = false).
Proof.
  intros Hname. cbv zeta.
  destruct (ensure_bucket_log boto cfg slug name s Hname) as (new & Hlog & Hputs & _ & Hv).
  apply no_puts_no_objects in Hputs.
  unfold S3Client.write_log, bind.
  destruct (S3Client.ensure_bucket boto cfg slug s) as [[w1 log1] [e | bucket]];
    simpl in Hlog.
  - exists (HeadBucket name :: new). simpl.
    split; [exact Hlog|]. split; [left; exact Hputs|]. intros _. auto.
  - rewrite (Hv bucket eq_refl).
    unfold S3Client.put_object, propagate, boto_call, ret. cbn [fst snd].
    set (key := (S3_LOG_PREFIX cfg ++ "/" ++ date_today boto w1 ++ "/"
                 ++ utc_timestamp boto w1 ++ ".log")%string).
    destruct (boto_put_object boto name key content w1) as [w2 [err | []]];
      cbn [fst snd is_ok].
    + exists (HeadBucket name :: new ++ [PutObject name key content false]).
      rewrite Hlog, <- app_assoc. split; [reflexivity|].
      simpl. rewrite put_objects_app, Hputs. simpl. split; [|discriminate].
      right. exists (date_today boto w1), (utc_timestamp boto w1). cbv zeta. fold key.
      split; [reflexivity|]. discriminate.
    + exists (HeadBucket name :: new ++ [PutObject name key content true]).
      rewrite Hlog, <- app_assoc. split; [reflexivity|].
      simpl. rewrite put_objects_app, Hputs. simpl. split; [|discriminate].
      right. exists (date_today boto w1), (utc_timestamp boto w1). cbv zeta. fold key.
      split; [reflexivity|].
      intros returned [= <-]. split; [reflexivity|].
      right. apply in_or_app. right. left. reflexivity.
Qed.

End LogTheorems.

(** The statement at an empty server: the log of the agent goes to
    [logs/2026-01-01/2026-01-01T00-00-00Z.log]. *)
Lemma write_log_puts_one_timestamped_key_witness :
  let result :=
    S3Client.write_log Minio.boto Minio.with_webhook _LOG_PROJECT_SLUG "started" Minio.start in
  snd result = inr "logs/2026-01-01/2026-01-01T00-00-00Z.log" /\
  put_objects (snd (fst result))
  = [("jarvis-agent-triage-logs", "logs/2026-01-01/2026-01-01T00-00-00Z.log", "started")] /\
  exists new, snd (fst result) = snd Minio.start ++ new.
Proof.
  split; [vm_compute; reflexivity|]. split; [vm_compute; reflexivity|].
  destruct (write_log_puts_one_timestamped_key Minio.boto Minio.with_webhook
              _LOG_PROJECT_SLUG "jarvis-agent-triage-logs" "started" Minio.start eq_refl)
    as (new & H & _).
  exists new. exact H.
Defined.

(** A flush whose put raises keeps the lines; the next flush stores them
    with the line emitted in between. *)
Example lines_of_a_failed_flush_are_stored_later :
  let h := S3LogHandler.init "jarvis-agent-triage-logs" "logs" in
  let after :=
    handle Minio.boto
      [Emit (inr "one"); Flush "first"; Emit (inr "two"); Flush "second"]
      (h, Minio.start) in
  let ensured := fst (S3Client.ensure_bucket Minio.boto Minio.with_webhook
                        _LOG_PROJECT_SLUG (snd after)) in
  let later := handle Minio.boto [Emit (inr "three"); Flush "third"] (fst after, ensured) in
  stored_bodies (snd (snd after)) = [] /\
  S3LogHandler._buffer (fst after) = ["one"; "two"] /\
  stored_bodies (snd (snd later)) = [String.concat nl ["one"; "two"; "three"]] /\
  S3LogHandler._buffer (fst later) = [].
Proof. vm_compute. repeat split. Qed.

(** ** From the calls of the clients to a run of a project *)

Section Stepwise.
Context {G : Type}.
Variable R : G -> list event -> G -> Prop.
Hypothesis R_composable : composable R.

Lemma stepwise_ret {A} (a : A) : stepwise R (ret a).
Proof.
  intros g tr0. exists []. unfold ret. simpl. rewrite app_nil_r.
  split; [reflexivity | apply (step_nil R R_composable)].
Qed.

Lemma stepwise_raise {A} (e : exn) : stepwise R (A := A) (raise e).
Proof.
  intros g tr0. exists []. unfold raise. simpl. rewrite app_nil_r.
  split; [reflexivity | apply (step_nil R R_composable)].
Qed.

Lemma stepwise_note (ev : event) : (forall g, R g [ev] g) -> stepwise R (note ev).
Proof. intros H g tr0. exists [ev]. unfold note. simpl. split; [reflexivity | apply H]. Qed.

Lemma stepwise_invoke {A} (f : M G A) (ev : exn + A -> event) :
  call_step R f ev -> stepwise R (invoke f ev).
Proof.
  intros H g tr0. exists [ev (snd (f g))]. unfold invoke. simpl.
  specialize (H g). destruct (f g) as [g' r]. simpl in *.
  split; [reflexivity | exact H].
Qed.

Lemma stepwise_bind {A B} (m : M (G * list event) A) (k : A -> M (G * list event) B) :
  stepwise R m -> (forall a, stepwise R (k a)) -> stepwise R (bind m k).
Proof.
  intros Hm Hk g tr0. destruct (Hm g tr0) as (new1 & H1 & R1). unfold bind.
  destruct (m (g, tr0)) as [[g1 t1] [e | a]]; simpl in H1, R1.
  - exists new1. simpl. split; assumption.
  - subst t1. destruct (Hk a g1 (tr0 ++ new1)) as (new2 & H2 & R2).
    exists (new1 ++ new2). rewrite H2, app_assoc. split; [reflexivity|].
    exact (step_app R R_composable _ _ _ _ _ R1 R2).
Qed.

Lemma stepwise_attempt {A} (m : M (G * list event) A) : stepwise R m -> stepwise R (attempt m).
Proof.
  intros Hm g tr0. destruct (Hm g tr0) as (new & H1 & R1). unfold attempt.
  destruct (m (g, tr0)) as [[g1 t1] r]. exists new. split; assumption.
Qed.

Variable c : Services G.
Variable generator_generate : GenArgs -> M G string.
Hypothesis services : service_steps R c generator_generate.

Ltac stepwise_steps :=
  repeat first
    [ apply stepwise_ret | apply stepwise_raise
    | apply stepwise_note; apply (step_processing_email R c generator_generate services)
    | apply stepwise_invoke; apply services
    | apply stepwise_attempt | apply stepwise_bind
    | match goal with
      | |- forall _, _ => intro
      | |- stepwise R (match ?x with _ => _ end) => destruct x
      | |- stepwise R (if ?b then _ else _) => destruct b
      end ].

Lemma stepwise_process_email (mail : AgentEmail) (st : LoopState) :
  stepwise R (process_email c generator_generate mail st).
Proof. unfold process_email, _resolve_extension_rules. stepwise_steps. Qed.

Lemma stepwise_process_emails (mails : list AgentEmail) :
  forall st, stepwise R (process_emails c generator_generate mails st).
Proof.
  induction mails as [|mail rest IH]; intros st; simpl.
  - apply stepwise_ret.
  - apply stepwise_bind; [apply stepwise_process_email | intros st'; apply IH].
Qed.

Lemma stepwise_mark_all_as_seen (uids : list string) : stepwise R (mark_all_as_seen c uids).
Proof.
  induction uids as [|u rest IH]; simpl.
  - apply stepwise_ret.
  - apply stepwise_bind; [apply stepwise_invoke; apply services | intros _; apply IH].
Qed.

Lemma stepwise_commit_and_acknowledge (slug name : string) (st : LoopState) :
  stepwise R (commit_and_acknowledge c slug name st).
Proof.
  unfold commit_and_acknowledge.
  destruct (processed_uids st); [apply stepwise_ret|].
  apply stepwise_bind; [stepwise_steps|]. intros _.
  apply stepwise_bind; [stepwise_steps|]. intros _.
  apply stepwise_bind; [apply stepwise_mark_all_as_seen|]. intros _. apply stepwise_ret.
Qed.

(** A run of [_process_project_emails] is a sequence of steps of [R] when
    every call of the clients and of the generator is one. *)
Lemma stepwise_process_project_emails (slug : string) (mails : list AgentEmail) :
  stepwise R (_process_project_emails c generator_generate slug mails).
Proof.
  unfold _process_project_emails.
  apply stepwise_bind; [apply stepwise_invoke; apply services|]. intros bucket.
  apply stepwise_bind; [apply stepwise_invoke; apply services|]. intros baseline.
  apply stepwise_bind; [stepwise_steps|]. intros name.
  apply stepwise_bind; [apply stepwise_process_emails|]. intros st.
  apply stepwise_commit_and_acknowledge.
Qed.

(** So is the loop of [run] over the projects. *)
Lemma stepwise_process_projects (groups : list (string * list AgentEmail)) :
  forall k, stepwise R (process_projects c generator_generate groups k).
Proof.
  induction groups as [|[slug mails] rest IH]; intros k; simpl.
  - apply stepwise_ret.
  - apply stepwise_bind; [|intros outcome; apply IH].
    apply stepwise_attempt. apply stepwise_process_project_emails.
Qed.

End Stepwise.

(** ** A project run over the storage client *)

Lemma composable_storage_step {W} (cfg : StorageSettings) :
  composable (storage_step (W := W) cfg).
Proof.
  split.
  - intros g. exists []. simpl. rewrite app_nil_r. split; [reflexivity | constructor].
  - intros g a g1 b g2 (segs1 & H1 & F1) (segs2 & H2 & F2).
    exists (segs1 ++ segs2). rewrite H2, H1, concat_app, app_assoc.
    split; [reflexivity | apply Forall2_app; assumption].
Qed.

Lemma one_segment {W} (cfg : StorageSettings) (ev : event) (s s' : Store W)
    (new : list s3_call) :
  snd s' = snd s ++ new -> accounts_for cfg ev new -> storage_step cfg s [ev] s'.
Proof.
  intros Hlog H. exists [new]. simpl. rewrite app_nil_r.
  split; [exact Hlog | constructor; [exact H | constructor]].
Qed.

Lemma epic_object_is_not_the_rules_file (name description today epic : string) :
  is_rules_file (name, ("epics/" ++ description ++ "_" ++ today ++ ".md")%string, epic)
  = false.
Proof.
  unfold is_rules_file. cbn [fst snd]. apply String.eqb_neq.
  apply epic_key_is_not_the_rules_key.
Qed.

(** The rules files put are accounted for by the [write_extension_rules]
    calls of the trace. *)
Lemma accounted_rules (cfg : StorageSettings) (tr : list event)
    (segments : list (list s3_call)) :
  Forall2 (accounts_for cfg) tr segments ->
  (rule_writes tr = [] -> filter is_rules_file (put_objects (concat segments)) = []) /\
  (forall slug rules,
     rule_writes tr = [(slug, rules)] ->
     filter is_rules_file (put_objects (concat segments)) = [] \/
     exists name,
       bucket_template_format cfg slug = inr name /\
       filter is_rules_file (put_objects (concat segments))
       = [(name, extension_rules_key, rules)]).
Proof.
  induction 1 as [|ev seg tr segments Hev Hall [IH0 IH1]]; simpl.
  - split; [reflexivity | discriminate].
  - rewrite put_objects_app, filter_app.
    destruct ev; cbn [accounts_for] in Hev; simpl;
      try (rewrite Hev; simpl; split; [exact IH0 | exact IH1]).
    + split; [discriminate|]. intros slug' rules [= -> -> Hrest].
      rewrite (IH0 Hrest), app_nil_r.
      destruct Hev as [-> | (name & Hname & ->)]; [left; reflexivity|].
      right. exists name. split; [exact Hname | reflexivity].
    + destruct Hev as [-> | (name & description & today & Hname & ->)];
        [simpl; split; [exact IH0 | exact IH1]|].
      cbn [filter]. rewrite epic_object_is_not_the_rules_file. simpl.
      split; [exact IH0 | exact IH1].
Qed.

(** The other objects put are accounted for by the [write_epic] calls. *)
Lemma accounted_epics (cfg : StorageSettings) (tr : list event)
    (segments : list (list s3_call)) :
  Forall2 (accounts_for cfg) tr segments ->
  (epic_writes tr = [] ->
   filter (fun o => negb (is_rules_file o)) (put_objects (concat segments)) = []) /\
  (forall slug epic,
     epic_writes tr = [(slug, epic)] ->
     filter (fun o => negb (is_rules_file o)) (put_objects (concat segments)) = [] \/
     exists name description today,
       bucket_template_format cfg slug = inr name /\
       filter (fun o => negb (is_rules_file o)) (put_objects (concat segments))
       = [(name, ("epics/" ++ description ++ "_" ++ today ++ ".md")%string, epic)]).
Proof.
  induction 1 as [|ev seg tr segments Hev Hall [IH0 IH1]]; simpl.
  - split; [reflexivity | discriminate].
  - rewrite put_objects_app, filter_app.
    destruct ev; cbn [accounts_for] in Hev; simpl;
      try (rewrite Hev; simpl; split; [exact IH0 | exact IH1]).
    + destruct Hev as [-> | (name & Hname & ->)];
        simpl; split; solve [exact IH0 | exact IH1].
    + split; [discriminate|]. intros slug' epic [= -> -> Hrest].
      rewrite (IH0 Hrest), app_nil_r.
      destruct Hev as [-> | (name & description & today & Hname & ->)];
        [left; reflexivity|].
      right. exists name, description, today. split; [exact Hname|].
      cbn [filter]. rewrite epic_object_is_not_the_rules_file. reflexivity.
Qed.

Section StorageRun.
Context {W : Type} (boto : Boto3 W).
Variable cfg : StorageSettings.

Ltac log_done :=
  first [ exists []; rewrite app_nil_r; split; reflexivity
        | eexists; rewrite <- ?app_assoc; split; reflexivity ].

Lemma ensure_bucket_objects (slug : string) (s : Store W) :
  exists new,
    snd (fst (S3Client.ensure_bucket boto cfg slug s)) = snd s ++ new /\
    put_objects new = [] /\
    (forall v, snd (S3Client.ensure_bucket boto cfg slug s) = inr v ->
       bucket_template_format cfg slug = inr v).
Proof.
  destruct (bucket_template_format cfg slug) as [e | name] eqn:Hname.
  - exists []. unfold S3Client.ensure_bucket, S3Client.bucket_name, bind.
    rewrite Hname. simpl. rewrite app_nil_r. repeat split; auto.
  - destruct (ensure_bucket_log boto cfg slug name s Hname)
      as (new & Hlog & Hputs & _ & Hv).
    exists (HeadBucket name :: new). split; [exact Hlog|].
    split; [simpl; apply no_puts_no_objects; exact Hputs|].
    intros v Hr. rewrite (Hv v Hr). reflexivity.
Qed.

Lemma get_object_objects (bucket key : string) (s : Store W) :
  exists new,
    snd (fst (S3Client.get_object boto bucket key s)) = snd s ++ new /\
    put_objects new = [].
Proof.
  unfold S3Client.get_object, boto_call. cbn [fst snd].
  destruct (boto_get_object boto bucket key (fst s)) as [w1 [[code msg | e] | data]];
    cbn [fst snd]; try log_done.
  destruct (code_in code ["404"; "NoSuchKey"]); cbn [fst snd]; log_done.
Qed.

Lemma decode_if_any_objects (data : option string) (s : Store W) :
  fst (S3Client.decode_if_any cfg data s) = s.
Proof.
  unfold S3Client.decode_if_any, ret. destruct data as [bytes|]; [|reflexivity].
  destruct (truthy bytes); reflexivity.
Qed.

Lemma read_objects (bucket key : string) (s : Store W) :
  exists new,
    snd (fst ((data <- S3Client.get_object boto bucket key ;;
               S3Client.decode_if_any cfg data) s)) = snd s ++ new /\
    put_objects new = [].
Proof.
  destruct (get_object_objects bucket key s) as (new & Hlog & Hputs).
  exists new. unfold bind.
  destruct (S3Client.get_object boto bucket key s) as [s1 [e | data]];
    [split; assumption|].
  rewrite decode_if_any_objects. split; assumption.
Qed.

Lemma read_latest_epic_objects (slug : string) (s : Store W) :
  exists new,
    snd (fst (S3Client.read_latest_epic boto cfg slug s)) = snd s ++ new /\
    put_objects new = [].
Proof.
  unfold S3Client.read_latest_epic, S3Client.bucket_name. unfold bind at 1.
  destruct (bucket_template_format cfg slug) as [e | bucket]; [log_done|].
  unfold boto_call. cbn [fst snd].
  destruct (boto_list_objects_v2 boto bucket "epics/" "/" (fst s))
    as [w1 [[code msg | e] | [|first others]]]; cbn [fst snd]; try log_done.
  destruct (read_objects bucket (max_key first others)
              (w1, snd s ++ [ListObjects bucket "epics/" "/"]))
    as (new & Hlog & Hputs).
  exists (ListObjects bucket "epics/" "/" :: new).
  rewrite Hlog. cbn [snd]. rewrite <- app_assoc. split; [reflexivity | exact Hputs].
Qed.

Lemma read_extension_rules_objects (slug : string) (s : Store W) :
  exists new,
    snd (fst (S3Client.read_extension_rules boto cfg slug s)) = snd s ++ new /\
    put_objects new = [].
Proof.
  unfold S3Client.read_extension_rules, S3Client.bucket_name. unfold bind at 1.
  destruct (bucket_template_format cfg slug) as [e | bucket]; [log_done|].
  apply read_objects.
Qed.

Lemma write_extension_rules_objects (slug content : string) (s : Store W) :
  exists new,
    snd (fst (S3Client.write_extension_rules boto cfg slug content s)) = snd s ++ new /\
    (put_objects new = [] \/
     exists name,
       bucket_template_format cfg slug = inr name /\
       put_objects new = [(name, extension_rules_key, content)]).
Proof.
  destruct (ensure_bucket_objects slug s) as (new & Hlog & Hputs & Hv).
  unfold S3Client.write_extension_rules, bind.
  destruct (S3Client.ensure_bucket boto cfg slug s) as [[w1 log1] [e | bucket]];
    simpl in Hlog.
  - exists new. split; [exact Hlog | left; exact Hputs].
  - specialize (Hv bucket eq_refl).
    unfold S3Client.put_object, propagate, boto_call, ret. cbn [fst snd].
    destruct (boto_put_object boto bucket extension_rules_key content w1)
      as [w2 [err | []]]; cbn [fst snd];
      (eexists; rewrite Hlog, <- app_assoc; split; [reflexivity|];
       right; exists bucket; split; [exact Hv|];
       rewrite put_objects_app, Hputs; reflexivity).
Qed.

Lemma write_epic_objects (slug epic short_description : string) (s : Store W) :
  exists new,
    snd (fst (S3Client.write_epic boto cfg slug epic short_description s)) = snd s ++ new /\
    (put_objects new = [] \/
     exists name description today,
       bucket_template_format cfg slug = inr name /\
       put_objects new
       = [(name, ("epics/" ++ description ++ "_" ++ today ++ ".md")%string, epic)]).
Proof.
  destruct (ensure_bucket_objects slug s) as (new & Hlog & Hputs & Hv).
  unfold S3Client.write_epic, bind.
  destruct (S3Client.ensure_bucket boto cfg slug s) as [[w1 log1] [e | bucket]];
    simpl in Hlog.
  - exists new. split; [exact Hlog | left; exact Hputs].
  - specialize (Hv bucket eq_refl).
    unfold S3Client.epic_key, S3Client.put_object, propagate, boto_call, ret.
    cbn [fst snd].
    set (key := ("epics/" ++ _short_description (unicode cfg) short_description 4
                 ++ "_" ++ date_today boto w1 ++ ".md")%string).
    destruct (boto_put_object boto bucket key epic w1) as [w2 [err | []]]; cbn [fst snd];
      (eexists; rewrite Hlog, <- app_assoc; split; [reflexivity|];
       right; exists bucket, (_short_description (unicode cfg) short_description 4),
                     (date_today boto w1);
       split; [exact Hv|]; rewrite put_objects_app, Hputs; reflexivity).
Qed.

Variable send_reply : string -> string -> string -> string -> string -> M W unit.
Variable mark_as_seen : string -> M W unit.
Variable generate : GenArgs -> M W string.

Lemma off_the_record_step {A} (f : M W A) (ev : exn + A -> event) :
  (forall r, accounts_for cfg (ev r) []) ->
  call_step (storage_step cfg) (off_the_record f) ev.
Proof.
  intros Hev s. unfold off_the_record. destruct (f (fst s)) as [w' r]. cbn [fst snd].
  apply (one_segment cfg _ s (w', snd s) []); [simpl; rewrite app_nil_r; reflexivity|].
  apply Hev.
Qed.

(** Every call of the clients is accounted for in the storage trace. *)
Lemma storage_service_steps :
  service_steps (storage_step cfg) (storage_services boto cfg send_reply mark_as_seen)
    (fun args => off_the_record (generate args)).
Proof.
  split; simpl.
  - intros slug s. destruct (ensure_bucket_objects slug s) as (new & Hlog & Hputs & _).
    apply (one_segment cfg _ _ _ new); assumption.
  - intros slug s. destruct (read_latest_epic_objects slug s) as (new & Hlog & Hputs).
    apply (one_segment cfg _ _ _ new); assumption.
  - intros slug s. destruct (read_extension_rules_objects slug s) as (new & Hlog & Hputs).
    apply (one_segment cfg _ _ _ new); assumption.
  - intros slug rules s.
    destruct (write_extension_rules_objects slug rules s) as (new & Hlog & Hputs).
    apply (one_segment cfg _ _ _ new); assumption.
  - intros slug epic name s.
    destruct (write_epic_objects slug epic name s) as (new & Hlog & Hputs).
    apply (one_segment cfg _ _ _ new); assumption.
  - intros. apply off_the_record_step. reflexivity.
  - intros. apply off_the_record_step. reflexivity.
  - intros. apply off_the_record_step. reflexivity.
  - intros mail_uid s. apply (one_segment cfg _ s s []); [|reflexivity].
    rewrite app_nil_r. reflexivity.
Qed.

(** X20.  One run of [_process_project_emails] over the storage client puts
    at most two objects.  At most one is the rules file, and then it holds
    the rules of the last email that attached some; at most one is not, and
    then it is the result of the last fold that returned, under a dated key
    of the form [epics/<description>_<date>.md].  Both go to the bucket of
    the project of the run, and the baseline read from S3 is never put
    back. *)
Theorem project_run_puts_its_rules_and_its_epic (slug : string) (mails : list AgentEmail)
    (s : Store W) (tr0 : list event) :
  let out :=
    _process_project_emails (storage_services boto cfg send_reply mark_as_seen)
      (fun args => off_the_record (generate args)) slug mails (s, tr0) in
  exists tr calls,
    snd (fst out) = tr0 ++ tr /\
    snd (fst (fst out)) = snd s ++ calls /\
    (length (put_objects calls) <= 2)%nat /\
    (filter is_rules_file (put_objects calls) = [] \/
     exists name rules,
       bucket_template_format cfg slug = inr name /\
       latest_rules None mails = Some rules /\
       filter is_rules_file (put_objects calls) = [(name, extension_rules_key, rules)]) /\
    (filter (fun o => negb (is_rules_file o)) (put_objects calls) = [] \/
     exists name description today epic,
       bucket_template_format cfg slug = inr name /\
       last_epic None tr = Some epic /\ truthy epic = true /\
       filter (fun o => negb (is_rules_file o)) (put_objects calls)
       = [(name, ("epics/" ++ description ++ "_" ++ today ++ ".md")%string, epic)]).
Proof.
  cbv zeta.
  set (c := storage_services boto cfg send_reply mark_as_seen).
  set (gen := fun args => off_the_record (generate args)).
  destruct (stepwise_process_project_emails (storage_step cfg) (composable_storage_step cfg)
              c gen storage_service_steps slug mails s tr0)
    as (new & Htr & segments & Hlog & Hall).
  destruct (process_project_emails_io c gen slug mails s tr0)
    as (g' & tr & res & E & Hio & _).
  rewrite E in Htr, Hlog |- *. cbn [fst snd] in Htr, Hlog |- *.
  apply app_inv_head in Htr. subst new.
  destruct Hio as (_ & Hepic & Hrules & _).
  destruct (accounted_rules cfg tr segments Hall) as [R0 R1].
  destruct (accounted_epics cfg tr segments Hall) as [E0 E1].
  assert (Hr : filter is_rules_file (put_objects (concat segments)) = [] \/
               exists name rules,
                 bucket_template_format cfg slug = inr name /\
                 latest_rules None mails = Some rules /\
                 filter is_rules_file (put_objects (concat segments))
                 = [(name, extension_rules_key, rules)]).
  { destruct (folded tr) as [|u us]; [left; apply R0; exact Hrules|].
    destruct (latest_rules None mails) as [rules|]; [|left; apply R0; exact Hrules].
    destruct (truthy rules); [|left; apply R0; exact Hrules].
    destruct (R1 slug rules Hrules) as [H | (name & Hname & H)]; [left; exact H|].
    right. exists name, rules. repeat split; assumption. }
  assert (He : filter (fun o => negb (is_rules_file o)) (put_objects (concat segments)) = [] \/
               exists name description today epic,
                 bucket_template_format cfg slug = inr name /\
                 last_epic None tr = Some epic /\ truthy epic = true /\
                 filter (fun o => negb (is_rules_file o)) (put_objects (concat segments))
                 = [(name, ("epics/" ++ description ++ "_" ++ today ++ ".md")%string, epic)]).
  { destruct Hepic as [H | (epic & H & Hlast & Htruthy & _)]; [left; apply E0; exact H|].
    destruct (E1 slug epic H) as [H' | (name & description & today & Hname & H')];
      [left; exact H'|].
    right. exists name, description, today, epic. repeat split; assumption. }
  exists tr, (concat segments).
  split; [reflexivity|]. split; [exact Hlog|]. split; [|split; assumption].
  rewrite <- (filter_length is_rules_file (put_objects (concat segments))).
  assert (L1 : (length (filter is_rules_file (put_objects (concat segments))) <= 1)%nat).
  { destruct Hr as [-> | (? & ? & _ & _ & ->)]; simpl; lia. }
  assert (L2 : (length (filter (fun o => negb (is_rules_file o))
                          (put_objects (concat segments))) <= 1)%nat).
  { destruct He as [-> | (? & ? & ? & ? & _ & _ & _ & ->)]; simpl; lia. }
  lia.
Qed.

End StorageRun.

(** Two emails of one project, the second with rules attached, on a server
    that holds an epic of an earlier day and older rules: the run reads
    the rules file as its baseline, and puts the new rules and one epic. *)
Example alpha_run_puts_two_objects :
  let mails := [Cases.mail_of "alpha" "1" None; Cases.mail_of "alpha" "2" (Some "new rules")] in
  let out :=
    _process_project_emails
      (storage_services Minio.boto Minio.with_webhook
         (fun _ _ _ _ _ => ret tt) (fun _ => ret tt))
      (fun args =>
         off_the_record
           (ret (match arg_existing_epic args with
                 | Some existing => existing ++ "+"
                 | None => "# Epic"
                 end)%string))
      "alpha" mails (Minio.alpha_bucket, []) in
  snd out = inr 2%nat /\
  put_objects (snd (fst (fst out)))
  = [("jarvis-alpha", extension_rules_key, "new rules");
     ("jarvis-alpha", "epics/alpha_2026-01-01.md", "rules++")].
Proof. vm_compute. split; reflexivity. Qed.

(** ** The IMAP client *)

Lemma stores_of_app (a b : list event) : stores_of (a ++ b) = stores_of a ++ stores_of b.
Proof. induction a as [|[] a IH]; simpl; rewrite ?IH; reflexivity. Qed.

Lemma composable_session_step {W H} : composable (session_step (W := W) (H := H)).
Proof.
  split.
  - intros x h Hc. simpl. rewrite app_nil_r. split; [exact Hc | reflexivity].
  - intros x a x1 b x2 H1 H2 h Hc.
    destruct (H1 h Hc) as [C1 L1]. destruct (H2 h C1) as [C2 L2].
    split; [exact C2|]. rewrite L2, L1, stores_of_app, app_assoc. reflexivity.
Qed.

Lemma beside_mail_step {W H A} (f : M W A) (ev : exn + A -> event) :
  (forall r, stores_of [ev r] = []) ->
  call_step (session_step (W := W) (H := H)) (beside_mail f) ev.
Proof.
  intros Hev x h Hc. unfold beside_mail. destruct (f (world x)) as [w' r]. cbn [fst snd].
  rewrite Hev, app_nil_r. split; [exact Hc | reflexivity].
Qed.

Section MailFacts.
Context {W H : Type} (imap : Imaplib W H).
Variable cfg : MailSettings.
Variable parse : string -> string -> exn + option AgentEmail.

(** A [connect] that returns has opened, logged in and selected, and the
    client holds the connection. *)
Lemma connect_returned (x : Session W H) :
  snd (EmailClient.connect imap cfg x) = inr tt ->
  exists h,
    _connection (fst (EmailClient.connect imap cfg x)) = Some h /\
    commands (fst (EmailClient.connect imap cfg x))
    = commands x ++
      [Imap_new (IMAP_USE_SSL cfg) (IMAP_HOST cfg) (IMAP_PORT cfg) true;
       Imap_login (IMAP_USERNAME cfg) (IMAP_PASSWORD cfg) true;
       Imap_select (IMAP_MAILBOX cfg) true].
Proof.
  unfold EmailClient.connect, bind, imap_do, set_connection. cbn [world commands _connection].
  destruct ((if IMAP_USE_SSL cfg
             then IMAP4_SSL imap (IMAP_HOST cfg) (IMAP_PORT cfg)
             else IMAP4 imap (IMAP_HOST cfg) (IMAP_PORT cfg)) (world x))
    as [w1 [e | h]]; cbn; [discriminate|].
  destruct (imap_login imap h (IMAP_USERNAME cfg) (IMAP_PASSWORD cfg) w1)
    as [w2 [e | []]]; cbn; [discriminate|].
  destruct (imap_select imap h (IMAP_MAILBOX cfg) w2) as [w3 [e | []]]; cbn;
    [discriminate|].
  intros _. exists h. rewrite <- !app_assoc. split; reflexivity.
Qed.

(** A [connect] that raises has stopped at the call that raised; past the
    constructor the client holds the connection. *)
Lemma connect_raised (x : Session W H) (e : exn) :
  snd (EmailClient.connect imap cfg x) = inl e ->
  let x' := fst (EmailClient.connect imap cfg x) in
  (_connection x' = _connection x /\
   commands x' = commands x ++
     [Imap_new (IMAP_USE_SSL cfg) (IMAP_HOST cfg) (IMAP_PORT cfg) false]) \/
  (exists h, _connection x' = Some h /\
   (commands x' = commands x ++
      [Imap_new (IMAP_USE_SSL cfg) (IMAP_HOST cfg) (IMAP_PORT cfg) true;
       Imap_login (IMAP_USERNAME cfg) (IMAP_PASSWORD cfg) false] \/
    commands x' = commands x ++
      [Imap_new (IMAP_USE_SSL cfg) (IMAP_HOST cfg) (IMAP_PORT cfg) true;
       Imap_login (IMAP_USERNAME cfg) (IMAP_PASSWORD cfg) true;
       Imap_select (IMAP_MAILBOX cfg) false])).
Proof.
  unfold EmailClient.connect, bind, imap_do, set_connection. cbn [world commands _connection].
  destruct ((if IMAP_USE_SSL cfg
             then IMAP4_SSL imap (IMAP_HOST cfg) (IMAP_PORT cfg)
             else IMAP4 imap (IMAP_HOST cfg) (IMAP_PORT cfg)) (world x))
    as [w1 [e1 | h]]; cbn; [intros _; left; split; reflexivity|].
  destruct (imap_login imap h (IMAP_USERNAME cfg) (IMAP_PASSWORD cfg) w1)
    as [w2 [e2 | []]]; cbn.
  { intros _. right. exists h. split; [reflexivity|]. left.
    rewrite <- !app_assoc. reflexivity. }
  destruct (imap_select imap h (IMAP_MAILBOX cfg) w2) as [w3 [e3 | []]]; cbn;
    [|discriminate].
  intros _. right. exists h. split; [reflexivity|]. right.
  rewrite <- !app_assoc. reflexivity.
Qed.

Lemma disconnect_spec (x : Session W H) :
  snd (EmailClient.disconnect imap x) = inr tt /\
  _connection (fst (EmailClient.disconnect imap x)) = None /\
  match _connection x with
  | None => fst (EmailClient.disconnect imap x) = x
  | Some _ =>
      exists calls,
        closing calls /\
        commands (fst (EmailClient.disconnect imap x)) = commands x ++ calls
  end.
Proof.
  unfold EmailClient.disconnect. destruct (_connection x) as [h|] eqn:Hc.
  - unfold attempt, bind, imap_do, set_connection.
    destruct (imap_close imap h (world x)) as [w1 [e | []]]; cbn.
    + split; [reflexivity|]. split; [reflexivity|].
      exists [Imap_close false]. split; [left; reflexivity | reflexivity].
    + destruct (imap_logout imap h w1) as [w2 r]; cbn.
      split; [reflexivity|]. split; [reflexivity|].
      exists [Imap_close true; Imap_logout (is_ok r)].
      split; [right; eexists; reflexivity|]. rewrite <- app_assoc. reflexivity.
  - cbn. split; [reflexivity|]. split; [exact Hc | reflexivity].
Qed.

(** The loop of the fetch sends one FETCH per uid, in order, until a call
    raises. *)
Lemma fetch_each_commands (h : H) (uids : list string) :
  forall (results : list AgentEmail) (x : Session W H),
    let out := EmailClient.fetch_each imap parse h uids results x in
    _connection (fst out) = _connection x /\
    exists fetched rest,
      uids = fetched ++ rest /\
      commands (fst out) = commands x ++ map (fun u => Imap_fetch u "(RFC822)") fetched /\
      (forall mails,
         snd out = inr mails ->
         rest = [] /\
         exists more,
           mails = results ++ more /\ (length more <= length uids)%nat /\
           Forall (fun m => exists u raw, In u uids /\ parse u raw = inr (Some m)) more).
Proof.
  induction uids as [|u uids IH]; intros results x; cbv zeta.
  - simpl. split; [reflexivity|]. exists [], []. simpl. rewrite app_nil_r.
    split; [reflexivity|]. split; [reflexivity|].
    intros mails [= <-]. split; [reflexivity|]. exists []. rewrite app_nil_r.
    repeat split; auto.
  - simpl. unfold bind, imap_do.
    destruct (imap_fetch imap h u "(RFC822)" (world x)) as [w1 [e | fetch_data]].
    { cbn. split; [reflexivity|]. exists [u], uids. repeat split; discriminate. }
    set (x1 := {| world := w1; _connection := _connection x;
                  commands := commands x ++ [Imap_fetch u "(RFC822)"] |}).
    assert (Hskip : forall results',
      (results' = results \/ exists parsed raw,
         parse u raw = inr (Some parsed) /\ results' = results ++ [parsed]) ->
      let out := EmailClient.fetch_each imap parse h uids results' x1 in
      _connection (fst out) = _connection x /\
      exists fetched rest,
        u :: uids = fetched ++ rest /\
        commands (fst out) = commands x ++ map (fun u => Imap_fetch u "(RFC822)") fetched /\
        (forall mails,
           snd out = inr mails ->
           rest = [] /\
           exists more,
             mails = results ++ more /\ (length more <= length (u :: uids))%nat /\
             Forall (fun m => exists u0 raw, In u0 (u :: uids) /\ parse u0 raw = inr (Some m))
               more)).
    { intros results' Hres. cbv zeta.
      destruct (IH results' x1) as (Hconn & fetched & rest & Huids & Hcmd & Hret).
      split; [exact Hconn|]. exists (u :: fetched), rest.
      split; [simpl; rewrite Huids; reflexivity|].
      split; [rewrite Hcmd; unfold x1; cbn [commands]; rewrite <- app_assoc; reflexivity|].
      intros mails Hmails. destruct (Hret mails Hmails) as (Hrest & more & Hm & Hlen & Hall).
      split; [exact Hrest|].
      assert (Hall' : Forall (fun m => exists u0 raw,
                                 In u0 (u :: uids) /\ parse u0 raw = inr (Some m)) more).
      { eapply Forall_impl; [|exact Hall]. intros m (u0 & raw & Hin & Hp).
        exists u0, raw. split; [right; exact Hin | exact Hp]. }
      destruct Hres as [-> | (parsed & raw & Hp & ->)].
      - exists more. split; [exact Hm|]. split; [simpl; lia | exact Hall'].
      - exists (parsed :: more). rewrite <- app_assoc in Hm.
        split; [exact Hm|]. split; [simpl; lia|].
        constructor; [|exact Hall']. exists u, raw. split; [left; reflexivity | exact Hp]. }
    destruct fetch_data as [raw|]; [|apply Hskip; left; reflexivity].
    destruct (parse u raw) as [e | [parsed|]] eqn:Hp.
    + cbn. split; [reflexivity|]. exists [u], uids. repeat split; discriminate.
    + apply Hskip. right. exists parsed, raw. split; [exact Hp | reflexivity].
    + apply Hskip. left. reflexivity.
Qed.

(** On a connected client the fetch sends one SEARCH and then FETCH calls
    only. *)
Lemma fetch_commands (x : Session W H) (h : H) :
  _connection x = Some h ->
  let out := EmailClient.fetch_unread_jarvis_emails imap cfg parse x in
  _connection (fst out) = Some h /\
  exists fetches,
    forallb is_fetch fetches = true /\
    commands (fst out)
    = commands x ++ Imap_search (EmailClient.search_criteria cfg) :: fetches.
Proof.
  intros Hc. unfold EmailClient.fetch_unread_jarvis_emails. rewrite Hc.
  unfold bind, imap_do.
  destruct (imap_search imap h (EmailClient.search_criteria cfg) (world x))
    as [w1 [e | uids]]; cbn [fst snd commands _connection world].
  - split; [exact Hc|]. exists []. split; reflexivity.
  - match goal with
    | |- context [EmailClient.fetch_each imap parse h uids [] ?x1] =>
        destruct (fetch_each_commands h uids [] x1)
          as (Hconn & fetched & rest & _ & Hcmd & _)
    end.
    split; [rewrite Hconn; exact Hc|].
    exists (map (fun u => Imap_fetch u "(RFC822)") fetched).
    split; [apply forallb_forall; intros call Hin; apply in_map_iff in Hin;
            destruct Hin as (u & <- & _); reflexivity|].
    rewrite Hcmd. cbn [commands]. rewrite <- app_assoc. reflexivity.
Qed.

Variable c : Services W.
Variable generate : GenArgs -> M W string.
Variable flush_to_s3 : M W unit.

(** Every call of the clients keeps the session: only [mark_as_seen] talks
    to the server. *)
Lemma session_service_steps :
  service_steps session_step (EmailClient.services imap c)
    (fun args => beside_mail (generate args)).
Proof.
  split; simpl; intros; try (apply beside_mail_step; reflexivity).
  - intros x h Hc. unfold EmailClient.mark_as_seen. rewrite Hc. unfold imap_do.
    destruct (imap_store imap h u "+FLAGS" seen_flag (world x)) as [w' r]. cbn.
    split; [exact Hc | reflexivity].
  - intros h Hc. simpl. rewrite app_nil_r. split; [exact Hc | reflexivity].
Qed.

Lemma fetch_and_process_cases (x : Session W H) :
  fetch_and_process (EmailClient.services imap c)
    (fun args => beside_mail (generate args))
    (EmailClient.mailbox imap cfg parse) (x, [])
  = match EmailClient.fetch_unread_jarvis_emails imap cfg parse x with
    | (x1, inl e) => ((x1, []), inl e)
    | (x1, inr []) => ((x1, []), inr {| processed := 0; errors := 0 |})
    | (x1, inr emails) =>
        process_projects (EmailClient.services imap c)
          (fun args => beside_mail (generate args))
          (group_by_project emails) {| processed := 0; errors := 0 |} (x1, [])
    end.
Proof.
  unfold fetch_and_process, bind, quiet.
  cbn [fst snd email_fetch_unread_jarvis_emails EmailClient.mailbox].
  destruct (EmailClient.fetch_unread_jarvis_emails imap cfg parse x)
    as [x1 [e | [|mail emails]]]; reflexivity.
Qed.

(** The body of the [with] block on a connected client: the SEARCH, the
    FETCH calls, then one STORE per [mark_as_seen] call of the trace. *)
Lemma fetch_and_process_session (x : Session W H) (h : H) :
  _connection x = Some h ->
  let out :=
    fetch_and_process (EmailClient.services imap c)
      (fun args => beside_mail (generate args))
      (EmailClient.mailbox imap cfg parse) (x, []) in
  _connection (fst (fst out)) = Some h /\
  exists fetches,
    forallb is_fetch fetches = true /\
    commands (fst (fst out))
    = commands x ++ Imap_search (EmailClient.search_criteria cfg) :: fetches
      ++ stores_of (snd (fst out)).
Proof.
  intros Hc.
  destruct (fetch_commands x h Hc) as (Hconn & fetches & Hfetches & Hcmd).
  rewrite fetch_and_process_cases.
  destruct (EmailClient.fetch_unread_jarvis_emails imap cfg parse x) as [x1 [e | emails]];
    cbn [fst snd] in Hconn, Hcmd |- *.
  - split; [exact Hconn|]. exists fetches. split; [exact Hfetches|].
    simpl. rewrite app_nil_r. exact Hcmd.
  - destruct emails as [|mail emails].
    + cbn. split; [exact Hconn|]. exists fetches. split; [exact Hfetches|].
      rewrite app_nil_r. exact Hcmd.
    + cbv zeta.
      destruct (stepwise_process_projects session_step composable_session_step
                  (EmailClient.services imap c) (fun args => beside_mail (generate args))
                  session_service_steps (group_by_project (mail :: emails))
                  {| processed := 0; errors := 0 |} x1 [])
        as (new & Htr & Hstep).
      destruct (Hstep h Hconn) as [Hconn' Hcmd'].
      split; [exact Hconn'|]. exists fetches. split; [exact Hfetches|].
      rewrite Hcmd', Hcmd, Htr. simpl. rewrite <- app_assoc. reflexivity.
Qed.

(** The [finally] block of [run] leaves the session as it is. *)
Lemma finally_keeps_the_session (x : Session W H) (tr : list event) :
  let out :=
    attempt (invoke (s3_ensure_bucket (EmailClient.services imap c) _LOG_PROJECT_SLUG)
               (Ev_ensure_bucket _LOG_PROJECT_SLUG) ;;
             quiet (beside_mail flush_to_s3)) (x, tr) in
  _connection (fst (fst out)) = _connection x /\
  commands (fst (fst out)) = commands x /\
  stores_of (snd (fst out)) = stores_of tr.
Proof.
  cbv zeta. unfold attempt, bind, invoke, quiet.
  cbn [fst snd s3_ensure_bucket EmailClient.services]. unfold beside_mail.
  destruct (s3_ensure_bucket c _LOG_PROJECT_SLUG (world x)) as [w1 [e | bucket]];
    cbn [fst snd world _connection commands].
  - rewrite stores_of_app. simpl. rewrite app_nil_r. repeat split.
  - destruct (flush_to_s3 w1) as [w2 r]. cbn [fst snd world _connection commands].
    rewrite stores_of_app. simpl. rewrite app_nil_r. repeat split.
Qed.

End MailFacts.

Section MailTheorems.
Context {W H : Type} (imap : Imaplib W H).
Variable cfg : MailSettings.
Variable parse : string -> string -> exn + option AgentEmail.

(** X21.  [disconnect] never raises and always leaves the client without a
    connection.  On a connected client it sends CLOSE, and LOGOUT only when
    CLOSE has returned; on a client that is not connected it does nothing.
    After it, a second [disconnect] does nothing, and
    [fetch_unread_jarvis_emails] and [mark_as_seen] raise [RuntimeError]
    without talking to the server. *)
Theorem disconnect_always_releases_the_connection (x : Session W H) :
  let out := EmailClient.disconnect imap x in
  snd out = inr tt /\
  _connection (fst out) = None /\
  match _connection x with
  | None => fst out = x
  | Some _ => exists calls, closing calls /\ commands (fst out) = commands x ++ calls
  end /\
  EmailClient.disconnect imap (fst out) = (fst out, inr tt) /\
  EmailClient.fetch_unread_jarvis_emails imap cfg parse (fst out)
  = (fst out, inl EmailClient.not_connected) /\
  forall u,
    EmailClient.mark_as_seen imap u (fst out) = (fst out, inl EmailClient.not_connected).
Proof.
  cbv zeta. destruct (disconnect_spec imap x) as (Hres & Hnone & Hcalls).
  split; [exact Hres|]. split; [exact Hnone|]. split; [exact Hcalls|].
  unfold EmailClient.disconnect at 1, EmailClient.fetch_unread_jarvis_emails,
    EmailClient.mark_as_seen.
  rewrite Hnone. repeat split.
Qed.


Variable c : Services W.
Variable generate : GenArgs -> M W string.
Variable flush_to_s3 : M W unit.

Lemma run_after_connect (x x1 : Session W H) :
  EmailClient.connect imap cfg x = (x1, inr tt) ->
  fst (run (EmailClient.services imap c) (fun args => beside_mail (generate args))
         (EmailClient.mailbox imap cfg parse) (beside_mail flush_to_s3) (x, []))
  = let s' := fst (fetch_and_process (EmailClient.services imap c)
                     (fun args => beside_mail (generate args))
                     (EmailClient.mailbox imap cfg parse) (x1, [])) in
    fst (attempt (invoke (s3_ensure_bucket (EmailClient.services imap c) _LOG_PROJECT_SLUG)
                    (Ev_ensure_bucket _LOG_PROJECT_SLUG) ;;
                  quiet (beside_mail flush_to_s3))
           (fst (EmailClient.disconnect imap (fst s')), snd s')).
Proof.
  intros E. unfold run, with_email_client. unfold bind at 1. unfold quiet at 1.
  cbn [fst snd email_connect email_disconnect EmailClient.mailbox]. rewrite E.
  destruct (fetch_and_process (EmailClient.services imap c)
              (fun args => beside_mail (generate args))
              (EmailClient.mailbox imap cfg parse) (x1, [])) as [[x2 tr] r].
  cbn [fst snd].
  destruct (attempt (invoke (s3_ensure_bucket (EmailClient.services imap c) _LOG_PROJECT_SLUG)
                       (Ev_ensure_bucket _LOG_PROJECT_SLUG) ;;
                     quiet (beside_mail flush_to_s3))
              (fst (EmailClient.disconnect imap x2), tr)) as [s2 r2].
  reflexivity.
Qed.

Lemma run_after_failed_connect (x x1 : Session W H) (e : exn) :
  EmailClient.connect imap cfg x = (x1, inl e) ->
  run (EmailClient.services imap c) (fun args => beside_mail (generate args))
    (EmailClient.mailbox imap cfg parse) (beside_mail flush_to_s3) (x, [])
  = (fst (attempt (invoke (s3_ensure_bucket (EmailClient.services imap c) _LOG_PROJECT_SLUG)
                     (Ev_ensure_bucket _LOG_PROJECT_SLUG) ;;
                   quiet (beside_mail flush_to_s3)) (x1, [])),
     inr {| processed := 0; errors := 1 |}).
Proof.
  intros E. unfold run, with_email_client. unfold bind at 1. unfold quiet at 1.
  cbn [fst snd email_connect email_disconnect EmailClient.mailbox]. rewrite E.
  destruct (attempt (invoke (s3_ensure_bucket (EmailClient.services imap c) _LOG_PROJECT_SLUG)
                       (Ev_ensure_bucket _LOG_PROJECT_SLUG) ;;
                     quiet (beside_mail flush_to_s3)) (x1, [])) as [s2 r2].
  reflexivity.
Qed.

(** X23.  A run whose [connect] returned talks to the IMAP server in this
    order and says nothing else: the constructor, LOGIN and SELECT; one
    SEARCH; FETCH calls; one STORE for each [mark_as_seen] call of the
    trace, in order; then CLOSE, and LOGOUT when CLOSE has returned.  So
    every [mark_as_seen] call reaches the server on the open connection, no
    call follows the CLOSE, and the run ends with the connection
    released. *)
Theorem run_keeps_the_imap_session_in_order (x : Session W H) :
  snd (EmailClient.connect imap cfg x) = inr tt ->
  let out :=
    run (EmailClient.services imap c) (fun args => beside_mail (generate args))
      (EmailClient.mailbox imap cfg parse) (beside_mail flush_to_s3) (x, []) in
  exists fetches calls,
    commands (fst (fst out))
    = commands x ++
      [Imap_new (IMAP_USE_SSL cfg) (IMAP_HOST cfg) (IMAP_PORT cfg) true;
       Imap_login (IMAP_USERNAME cfg) (IMAP_PASSWORD cfg) true;
       Imap_select (IMAP_MAILBOX cfg) true] ++
      Imap_search (EmailClient.search_criteria cfg) :: fetches
      ++ stores_of (snd (fst out)) ++ calls /\
    forallb is_fetch fetches = true /\
    closing calls /\
    _connection (fst (fst out)) = None.
Proof.
  intros Hconn. cbv zeta.
  destruct (connect_returned imap cfg x Hconn) as (h & Hc1 & Hcmd1).
  destruct (EmailClient.connect imap cfg x) as [x1 [e | []]] eqn:E; [discriminate|].
  cbn [fst snd] in Hc1, Hcmd1.
  rewrite (run_after_connect x x1 E). cbv zeta.
  destruct (fetch_and_process_session imap cfg parse c generate x1 h Hc1)
    as (Hc2 & fetches & Hfetches & Hcmd2).
  destruct (fetch_and_process (EmailClient.services imap c)
              (fun args => beside_mail (generate args))
              (EmailClient.mailbox imap cfg parse) (x1, [])) as [[x2 tr] r].
  cbn [fst snd] in Hc2, Hcmd2 |- *.
  destruct (disconnect_spec imap x2) as (_ & Hnone & Hcalls).
  rewrite Hc2 in Hcalls. destruct Hcalls as (calls & Hclosing & Hcmd3).
  destruct (finally_keeps_the_session imap c flush_to_s3
              (fst (EmailClient.disconnect imap x2)) tr) as (Hc4 & Hcmd4 & Hstores).
  exists fetches, calls.
  rewrite Hcmd4, Hcmd3, Hcmd2, Hcmd1, Hstores, Hc4.
  split; [|split; [exact Hfetches | split; [exact Hclosing | exact Hnone]]].
  rewrite <- !app_assoc. simpl. rewrite <- !app_assoc. reflexivity.
Qed.

(** X24.  When [connect] raises, the run says nothing more to the IMAP
    server and leaves the client as [connect] left it: past the
    constructor, that is when LOGIN or SELECT raised, the client still
    holds its connection and neither CLOSE nor LOGOUT is ever sent.  The
    run touches no project and counts one error. *)
Theorem run_never_closes_a_failed_connect (x : Session W H) (e : exn) :
  snd (EmailClient.connect imap cfg x) = inl e ->
  let connected := fst (EmailClient.connect imap cfg x) in
  let out :=
    run (EmailClient.services imap c) (fun args => beside_mail (generate args))
      (EmailClient.mailbox imap cfg parse) (beside_mail flush_to_s3) (x, []) in
  commands (fst (fst out)) = commands connected /\
  _connection (fst (fst out)) = _connection connected /\
  snd out = inr {| processed := 0; errors := 1 |} /\
  ensured (snd (fst out)) = [_LOG_PROJECT_SLUG] /\
  ((_connection connected = _connection x /\
    commands connected = commands x ++
      [Imap_new (IMAP_USE_SSL cfg) (IMAP_HOST cfg) (IMAP_PORT cfg) false]) \/
   (exists h, _connection connected = Some h /\
    (commands connected = commands x ++
       [Imap_new (IMAP_USE_SSL cfg) (IMAP_HOST cfg) (IMAP_PORT cfg) true;
        Imap_login (IMAP_USERNAME cfg) (IMAP_PASSWORD cfg) false] \/
     commands connected = commands x ++
       [Imap_new (IMAP_USE_SSL cfg) (IMAP_HOST cfg) (IMAP_PORT cfg) true;
        Imap_login (IMAP_USERNAME cfg) (IMAP_PASSWORD cfg) true;
        Imap_select (IMAP_MAILBOX cfg) false]))).
Proof.
  intros Hconn. cbv zeta.
  pose proof (connect_raised imap cfg x e Hconn) as Hraised. cbv zeta in Hraised.
  destruct (EmailClient.connect imap cfg x) as [x1 [e1 | []]] eqn:E; [|discriminate].
  cbn [fst snd] in Hraised |- *.
  rewrite (run_after_failed_connect x x1 e1 E). cbn [fst snd].
  destruct (finally_keeps_the_session imap c flush_to_s3 x1 []) as (Hc & Hcmd & _).
  split; [exact Hcmd|]. split; [exact Hc|]. split; [reflexivity|].
  split; [|exact Hraised].
  unfold attempt, bind, invoke, quiet.
  cbn [fst snd s3_ensure_bucket EmailClient.services]. unfold beside_mail.
  destruct (s3_ensure_bucket c _LOG_PROJECT_SLUG (world x1)) as [w1 [e2 | bucket]];
    cbn [fst snd world _connection commands]; [reflexivity|].
  destruct (flush_to_s3 w1) as [w2 r]. reflexivity.
Qed.

End MailTheorems.


(** A run at a server that accepts the login: two projects, two
    acknowledgments, then CLOSE and LOGOUT. *)
Lemma run_keeps_the_imap_session_in_order_witness :
  commands (fst (fst (Mailhost.run_on true)))
  = [Imap_new true "imap" 993 true; Imap_login "agent" "secret" true;
     Imap_select "INBOX" true;
     Imap_search (EmailClient.search_criteria Mailhost.settings);
     Imap_fetch "1" "(RFC822)"; Imap_fetch "2" "(RFC822)"; Imap_fetch "3" "(RFC822)";
     Imap_store "1" "+FLAGS" seen_flag true; Imap_store "3" "+FLAGS" seen_flag true;
     Imap_close true; Imap_logout true] /\
  exists fetches calls, forallb is_fetch fetches = true /\ closing calls.
Proof.
  split; [vm_compute; reflexivity|].
  destruct (run_keeps_the_imap_session_in_order Mailhost.imap Mailhost.settings
              Mailhost.parse Mailhost.answering (fun _ => ret "# Epic") (ret tt)
              (Mailhost.start true) eq_refl)
    as (fetches & calls & _ & Hfetches & Hclosing & _).
  exists fetches, calls. split; assumption.
Defined.

(** A run at a server that refuses the login: the connection is opened and
    never closed. *)
Lemma run_never_closes_a_failed_connect_witness :
  commands (fst (fst (Mailhost.run_on false)))
  = [Imap_new true "imap" 993 true; Imap_login "agent" "secret" false] /\
  _connection (fst (fst (Mailhost.run_on false))) = Some tt /\
  snd (Mailhost.run_on false) = inr {| processed := 0; errors := 1 |}.
Proof.
  split; [vm_compute; reflexivity|]. split; [vm_compute; reflexivity|].
  exact (proj1 (proj2 (proj2
           (run_never_closes_a_failed_connect Mailhost.imap Mailhost.settings
              Mailhost.parse Mailhost.answering (fun _ => ret "# Epic") (ret tt)
              (Mailhost.start false) Mailhost.login_failed eq_refl)))).
Defined.

(** ** The SMTP client *)

Section SmtpTheorems.
Context {W S : Type} (lib : Smtplib W S).
Variable cfg : SmtpSettings.

Ltac smtp_case :=
  match goal with
  | |- context [SMTP_SSL lib ?h ?p ?w] => destruct (SMTP_SSL lib h p w) as [? [? | ?]]
  | |- context [SMTP lib ?h ?p ?w] => destruct (SMTP lib h p w) as [? [? | ?]]
  | |- context [smtp_starttls lib ?s ?w] => destruct (smtp_starttls lib s w) as [? [? | []]]
  | |- context [smtp_login lib ?s ?u ?p ?w] =>
      destruct (smtp_login lib s u p w) as [? [? | []]]
  | |- context [smtp_send_message lib ?s ?m ?w] =>
      destruct (smtp_send_message lib s m w) as [? [? | []]]
  | |- context [smtp_exit lib ?s ?w] => destruct (smtp_exit lib s w) as [? [? | []]]
  end; cbn [fst snd is_ok].

Ltac in_cases :=
  repeat match goal with
         | H : In _ (_ :: _) |- _ => simpl in H
         | H : In _ [] |- _ => destruct H
         | H : _ \/ _ |- _ => destruct H as [H | H]; [try discriminate H|]
         | H : False |- _ => destruct H
         end.

Ltac no_exit_before :=
  eexists; split; [reflexivity|];
  let Hq := fresh "Hq" in intros ? Hq; simpl in Hq; in_cases.

Ltac exit_last :=
  first
    [ split; reflexivity
    | exists []; no_exit_before
    | eexists [_]; no_exit_before
    | eexists [_; _]; no_exit_before
    | eexists [_; _; _]; no_exit_before ].

Ltac starttls_first :=
  let Hssl := fresh "Hssl" in
  let Hin := fresh "Hin" in
  intros Hssl; try discriminate Hssl;
  intros ? ? ? Hin; simpl in Hin |- *; in_cases; auto.

Ltac login_first :=
  let Hin := fresh "Hin" in
  intros ? ? Hin; simpl in Hin |- *; in_cases;
  injection Hin as <- <-; split; auto.

Ltac outcome :=
  split;
    [ try discriminate; intros _; simpl; auto 10
    | let H1 := fresh "H" in
      let H2 := fresh "H" in
      intros [H1 H2]; simpl in H1, H2; in_cases; reflexivity ].

(** X25.  When the message cannot be built [send_reply] raises and opens no
    session.  Otherwise it opens one session with the host of the settings
    (the IMAP host when no SMTP host is set) and, once the constructor has
    returned, always leaves it: [__exit__] is its last call, whatever
    raised in between.  Without implicit TLS no LOGIN is sent before
    STARTTLS has returned; the message is sent only after the LOGIN has
    returned, with the user name and password of the settings (those of IMAP
    when none is set); and the call returns only when both the message and
    the exit have. *)
Theorem send_reply_logs_in_over_tls_and_always_quits (mime_error : MimeMessage -> option exn)
    (recipient subj text_body filename content : string) (s : Outbox W) :
  let out :=
    SMTPClient.send_reply lib cfg mime_error recipient subj text_body filename content s in
  let msg := SMTPClient.message cfg recipient subj text_body filename content in
  match mime_error msg with
  | Some e => out = (s, inl e)
  | None =>
      exists opened rest,
        snd (fst out)
        = snd s ++ Smtp_new (SMTP_USE_SSL cfg) (smtp_host cfg) (SMTP_PORT cfg) opened :: rest /\
        (if opened
         then exists calls quit,
                rest = calls ++ [Smtp_exit quit] /\ forall q, ~ In (Smtp_exit q) calls
         else rest = [] /\ is_ok (snd out) = false) /\
        (SMTP_USE_SSL cfg = false ->
         forall username password returned,
           In (Smtp_login username password returned) rest ->
           In (Smtp_starttls true) (before is_login rest)) /\
        (forall sent returned,
           In (Smtp_send_message sent returned) rest ->
           sent = msg /\
           In (Smtp_login (smtp_username cfg) (smtp_password cfg) true)
             (before is_send rest)) /\
        (snd out = inr tt <->
         In (Smtp_send_message msg true) rest /\ In (Smtp_exit true) rest)
  end.
Proof.
  cbv zeta. unfold SMTPClient.send_reply.
  destruct (mime_error (SMTPClient.message cfg recipient subj text_body filename content));
    [reflexivity|].
  unfold SMTPClient.deliver, with_server, bind, smtp_do.
  destruct (SMTP_USE_SSL cfg); cbn [fst snd]; repeat smtp_case;
    (eexists; eexists; rewrite <- ?app_assoc; split; [reflexivity|]);
    cbv beta iota; cbn [app];
    (split; [exit_last|]); (split; [starttls_first|]); (split; [login_first | outcome]).
Qed.

End SmtpTheorems.

(** ** The body tags *)

Lemma dict_get_set (key k v : string) (d : list (string * string)) :
  dict_get key (dict_set k v d) = if String.eqb k key then Some v else dict_get key d.
Proof.
  induction d as [|[k' v'] d IH]; simpl.
  - reflexivity.
  - destruct (String.eqb k' k) eqn:Hk; simpl.
    + apply String.eqb_eq in Hk. subst k'. destruct (String.eqb k key); reflexivity.
    + rewrite IH. destruct (String.eqb k' key) eqn:Hk'; [|reflexivity].
      apply String.eqb_eq in Hk'. subst k'. rewrite String.eqb_sym, Hk. reflexivity.
Qed.

Section BodyTagFacts.
Variable u : Unicode.

Lemma kept_sections (key : string) (sections : list (string * string)) :
  forall d,
    dict_get key (fold_left (keep_section u) sections d)
    = match find (fun section =>
                    String.eqb (str_lower u (fst section)) key
                    && truthy (str_strip u (snd section)))
              (rev sections) with
      | Some section => Some (str_strip u (snd section))
      | None => dict_get key d
      end.
Proof.
  induction sections as [|section sections IH] using rev_ind; intros d.
  - reflexivity.
  - rewrite fold_left_app, rev_app_distr. simpl. unfold keep_section at 1.
    destruct (truthy (str_strip u (snd section))) eqn:Ht.
    + rewrite dict_get_set.
      destruct (String.eqb (str_lower u (fst section)) key); simpl; [reflexivity | apply IH].
    + rewrite andb_false_r. apply IH.
Qed.

(** X26.  [_parse_body_tags] keeps, for each tag, the stripped text of the
    last section of that tag (whatever its case) that is not blank: a later
    section replaces an earlier one, a blank section replaces nothing, and
    a tag all of whose sections are blank is absent.  No value kept is
    empty, and the text before the first tag is not read. *)
Theorem last_section_that_is_not_blank_wins (body_tag_split : string -> list string)
    (body key : string) :
  let sections := tag_sections (tl (body_tag_split body)) in
  dict_get key (_parse_body_tags u body_tag_split body)
  = option_map (fun section => str_strip u (snd section))
      (find (fun section =>
               String.eqb (str_lower u (fst section)) key
               && truthy (str_strip u (snd section)))
         (rev sections)) /\
  (forall value,
     dict_get key (_parse_body_tags u body_tag_split body) = Some value ->
     truthy value = true).
Proof.
  cbv zeta. unfold _parse_body_tags. rewrite kept_sections.
  destruct (find _ (rev (tag_sections (tl (body_tag_split body))))) as [section|] eqn:Hfind.
  - split; [reflexivity|]. intros value [= <-].
    apply find_some in Hfind. destruct Hfind as [_ Hp].
    apply andb_true_iff in Hp. exact (proj2 Hp).
  - split; [reflexivity | discriminate].
Qed.

End BodyTagFacts.

(** A reply through a relay that accepts the agent, without implicit TLS and
    with no SMTP setting of its own. *)
Example reply_over_starttls :
  let out :=
    SMTPClient.send_reply Relay.lib (Relay.settings "agent") (fun _ => None)
      "ann@example.com" "Re: hello"
      "text" "requirements.md" "# Epic" Relay.start in
  snd out = inr tt /\
  map header_from (fst (fst out)) = ["agent"] /\
  snd (fst out)
  = [Smtp_new false "imap" 587 true; Smtp_starttls true; Smtp_login "agent" "secret" true;
     Smtp_send_message
       (SMTPClient.message (Relay.settings "agent") "ann@example.com" "Re: hello" "text"
          "requirements.md" "# Epic") true;
     Smtp_exit true].
Proof. vm_compute. repeat split. Qed.

(** A refused login: nothing is sent and the session is left. *)
Example refused_login_sends_nothing :
  let out :=
    SMTPClient.send_reply Relay.lib (Relay.settings "nobody") (fun _ => None)
      "ann@example.com" "Re: hello"
      "text" "requirements.md" "# Epic" Relay.start in
  snd out = inl Relay.refused /\
  fst (fst out) = [] /\
  snd (fst out)
  = [Smtp_new false "imap" 587 true; Smtp_starttls true; Smtp_login "nobody" "secret" false;
     Smtp_exit true].
Proof. vm_compute. repeat split. Qed.

(** The sections of a body whose [title] tag comes twice and whose [envs]
    section is blank. *)
Example body_tags_of_a_repeated_tag :
  let split := fun _ : string =>
    ["before"; "title"; " first "; "IDEA"; " an idea"; "Title"; "second "; "envs"; "  "] in
  let tags := _parse_body_tags Minio.ascii_tables split "body" in
  dict_get "title" tags = Some "second" /\
  dict_get "idea" tags = Some "an idea" /\
  dict_get "envs" tags = None /\
  dict_get "directives" tags = None.
Proof. vm_compute. repeat split. Qed.
